(** * MSX Grid self-update script ([update.py]): model and properties

    The script downloads a branch archive, merges it over the working
    directory while keeping a fixed set of paths untouched, and optionally
    reinstalls the Python dependencies.  This file contains a shallow
    embedding of [update.py] and the properties stated about it.

    Modelling choices, all visible in the definitions below:
    - a relative path is the list of its components; [str] joins them with
      a slash (POSIX [pathlib]);
    - the working directory and the temporary directory are two stores,
      each a partial map from paths to entries; the extracted archive is a
      finite tree, because [os.walk] enumerates it;
    - a computation threads the stores, the operator's pending input lines
      and a trace of prints and library calls, and ends in a value or in a
      raised exception; effects performed before a raise stay in the state;
    - failures come from the shape of the stores (a file where a directory
      is needed, a directory where a file is written, ...), from the
      network, from the archive, from the end of the operator's input and
      from the child process; the operating system otherwise never refuses
      an operation, and the operator does not interrupt the run;
    - the progress lines of the download and the colours of the messages
      are left out of the trace. *)

From Stdlib Require Import String Ascii List Bool Arith NArith Lia.
From Stdlib Require Import Strings.Byte Permutation FunctionalExtensionality.
From Stdlib Require DecimalString.
Import ListNotations.
Local Open Scope string_scope.
Local Open Scope list_scope.

(* ================================================================== *)
(** * Strings *)

Module Str.

(** [s.startswith(p)] *)
Definition startswith (s p : string) : bool := String.prefix p s.

Fixpoint map (f : ascii -> ascii) (s : string) : string :=
  match s with
  | EmptyString => EmptyString
  | String c s' => String (f c) (map f s')
  end.

(** [s.replace('/', '_')] *)
Definition replace_slash (s : string) : string :=
  map (fun c => if Ascii.eqb c "/" then "_"%char else c) s.

(** ASCII part of [str.lower]. *)
Definition lower_char (c : ascii) : ascii :=
  let n := nat_of_ascii c in
  if ((65 <=? n) && (n <=? 90))%nat then ascii_of_nat (n + 32) else c.

Definition lower (s : string) : string := map lower_char s.

(** ASCII characters for which [str.isspace] holds. *)
Definition is_space (c : ascii) : bool :=
  let n := nat_of_ascii c in
  (((9 <=? n) && (n <=? 13)) || ((28 <=? n) && (n <=? 32)))%nat.

Fixpoint lstrip (s : string) : string :=
  match s with
  | EmptyString => EmptyString
  | String c s' => if is_space c then lstrip s' else s
  end.

Fixpoint rev_onto (s acc : string) : string :=
  match s with
  | EmptyString => acc
  | String c s' => rev_onto s' (String c acc)
  end.

Definition rev (s : string) : string := rev_onto s EmptyString.

(** [s.strip()] *)
Definition strip (s : string) : string := rev (lstrip (rev (lstrip s))).

(** [s.split('/')] *)
Fixpoint split_slash (s : string) : list string :=
  match s with
  | EmptyString => [EmptyString]
  | String c s' =>
      if Ascii.eqb c "/" then EmptyString :: split_slash s'
      else match split_slash s' with
           | [] => [String c EmptyString]
           | w :: ws => String c w :: ws
           end
  end.

(** [str(n)] for a non-negative integer. *)
Definition of_nat (n : nat) : string :=
  DecimalString.NilEmpty.string_of_uint (Nat.to_uint n).

End Str.

(* ================================================================== *)
(** * Paths *)

Definition path := list string.

Fixpoint path_eqb (p q : path) : bool :=
  match p, q with
  | [], [] => true
  | a :: p', b :: q' => String.eqb a b && path_eqb p' q'
  | _, _ => false
  end.

(** [Path(s)] for a relative path: split at slashes, drop empty and dot
    components as [pathlib] does. *)
Definition Path (s : string) : path :=
  filter (fun c => negb (String.eqb c "" || String.eqb c "."))
         (Str.split_slash s).

(** [str(p)] *)
Definition str (p : path) : string :=
  match p with
  | [] => "."
  | _ => String.concat "/" p
  end.

(** [p.parent] *)
Definition parent (p : path) : path := removelast p.

(** [p.name] *)
Definition name (p : path) : string := last p "".

(** [strip_prefix p q = Some r] exactly when [q] is [p] followed by [r]:
    [q] is [p] itself or lies inside it. *)
Fixpoint strip_prefix (p q : path) : option path :=
  match p, q with
  | [], _ => Some q
  | a :: p', b :: q' => if String.eqb a b then strip_prefix p' q' else None
  | _ :: _, [] => None
  end.

(* ================================================================== *)
(** * Stores *)

Inductive entry : Type :=
| File (data : list byte)
| Dir.

(** A store maps the paths below its root to what is there. *)
Definition fs := path -> option entry.

Definition empty_fs : fs := fun _ => None.

(** What a path resolves to; the root itself is a directory. *)
Definition stat (t : fs) (p : path) : option entry :=
  match p with
  | [] => Some Dir
  | _ => t p
  end.

Definition is_some {A} (o : option A) : bool :=
  match o with Some _ => true | None => false end.

Definition exists_ (t : fs) (p : path) : bool := is_some (stat t p).

Definition is_file (t : fs) (p : path) : bool :=
  match stat t p with Some (File _) => true | _ => false end.

Definition is_dir (t : fs) (p : path) : bool :=
  match stat t p with Some Dir => true | _ => false end.

Definition upd (t : fs) (p : path) (e : option entry) : fs :=
  fun q => if path_eqb q p then e else t q.

(** The content found at and below [p], with paths relative to [p]. *)
Definition subtree (t : fs) (p : path) : fs := fun r => t (p ++ r).

(** Remove [p] and everything below it. *)
Definition prune (t : fs) (p : path) : fs :=
  fun q => match strip_prefix p q with Some _ => None | None => t q end.

(** Put the content [sub] at and below [p]. *)
Definition graft (t : fs) (p : path) (sub : fs) : fs :=
  fun q => match strip_prefix p q with Some r => sub r | None => t q end.

(** Every entry sits in a directory. *)
Definition fs_wf (t : fs) : Prop :=
  forall p c, t (p ++ [c]) <> None -> stat t p = Some Dir.

(** The extracted archive: a finite tree, entries in listing order. *)
Inductive node : Type :=
| FileN (data : list byte)
| DirN (children : list (string * node)).

Definition node_entry (n : node) : entry :=
  match n with
  | FileN d => File d
  | DirN _ => Dir
  end.

Fixpoint assoc {A} (k : string) (l : list (string * A)) : option A :=
  match l with
  | [] => None
  | (k', v) :: l' => if String.eqb k k' then Some v else assoc k l'
  end.

(** What [n / c] resolves to. *)
Definition child (n : node) (c : string) : option node :=
  match n with
  | FileN _ => None
  | DirN cs => assoc c cs
  end.

(* ================================================================== *)
(** * Computations *)

Inductive level := INFO | SUCCESS | WARNING | ERROR | PLAIN.

(** Library calls that change the working directory, recorded with the
    path they are called on. *)
Inductive call :=
| Copy2 (dst : path)
| Mkdir (p : path)
| WriteBytes (p : path)
| Unlink (p : path)
| Rmtree (p : path)
| Move (dst : path)
| Run (cmd : string).

Inductive event :=
| Print (l : level) (msg : string)
| Prompt (msg : string)
| Call (c : call).

Inductive exn :=
| FileExistsError
| FileNotFoundError
| NotADirectoryError
| IsADirectoryError
| ShutilError
| UnicodeDecodeError
| BadZipFile
| TypeError
| EOFError
| OSError
| CalledProcessError (returncode : nat).

(** [str(e)], reduced to what tells the exceptions apart. *)
Definition exn_text (e : exn) : string :=
  match e with
  | FileExistsError => "FileExistsError"
  | FileNotFoundError => "FileNotFoundError"
  | NotADirectoryError => "NotADirectoryError"
  | IsADirectoryError => "IsADirectoryError"
  | ShutilError => "Destination path already exists"
  | UnicodeDecodeError => "UnicodeDecodeError"
  | BadZipFile => "File is not a zip file"
  | TypeError => "cannot unpack non-iterable bool object"
  | EOFError => "EOF when reading a line"
  | OSError => "OSError"
  | CalledProcessError rc =>
      ("Command returned non-zero exit status " ++ Str.of_nat rc)%string
  end.

Record state := mkState {
  live : fs;              (* the working directory *)
  tmp : fs;               (* the temporary directory of the run *)
  stdin : list string;    (* lines the operator will type *)
  log : list event        (* trace, oldest first *)
}.

Inductive outcome (A : Type) :=
| Ok (a : A)
| Raise (e : exn).
Arguments Ok {A} a.
Arguments Raise {A} e.

Definition M (A : Type) := state -> outcome A * state.

Definition ret {A} (a : A) : M A := fun s => (Ok a, s).

Definition bind {A B} (c : M A) (k : A -> M B) : M B :=
  fun s => match c s with
           | (Ok a, s') => k a s'
           | (Raise e, s') => (Raise e, s')
           end.

Definition raise {A} (e : exn) : M A := fun s => (Raise e, s).

(** [try: c  except Exception as e: h e] *)
Definition try_except {A} (c : M A) (h : exn -> M A) : M A :=
  fun s => match c s with
           | (Ok a, s') => (Ok a, s')
           | (Raise e, s') => h e s'
           end.

(** [try: c  finally: f], for a clean-up [f] that does not raise. *)
Definition try_finally {A} (c : M A) (f : state -> state) : M A :=
  fun s => let (r, s') := c s in (r, f s').

Declare Scope py_scope.
Delimit Scope py_scope with py.
Notation "x <- c ;; k" := (bind c (fun x => k))
  (at level 61, c at next level, right associativity) : py_scope.
Notation "c ;; k" := (bind c (fun _ => k))
  (at level 61, right associativity) : py_scope.
Local Open Scope py_scope.

Definition gets {A} (f : state -> A) : M A := fun s => (Ok (f s), s).

Definition emit (e : event) : M unit :=
  fun s => (Ok tt, mkState (live s) (tmp s) (stdin s) (log s ++ [e])).

Definition set_live (t : fs) : M unit :=
  fun s => (Ok tt, mkState t (tmp s) (stdin s) (log s)).

Definition set_tmp (t : fs) : M unit :=
  fun s => (Ok tt, mkState (live s) t (stdin s) (log s)).

Definition print_info (msg : string) : M unit := emit (Print INFO msg).
Definition print_success (msg : string) : M unit := emit (Print SUCCESS msg).
Definition print_warning (msg : string) : M unit := emit (Print WARNING msg).
Definition print_error (msg : string) : M unit := emit (Print ERROR msg).

(** [input(prompt)]: the next line, or [EOFError] when input has ended. *)
Definition input (prompt : string) : M string :=
  emit (Prompt prompt) ;;
  fun s => match stdin s with
           | [] => (Raise EOFError, s)
           | l :: ls => (Ok l, mkState (live s) (tmp s) ls (log s))
           end.

Definition lift_live (f : fs -> outcome fs) : M unit :=
  fun s => match f (live s) with
           | Ok t => (Ok tt, mkState t (tmp s) (stdin s) (log s))
           | Raise e => (Raise e, s)
           end.

(* ================================================================== *)
(** * Library calls on the stores *)

(** [Path.mkdir(parents=True, exist_ok=True)]: the components of the path
    are resolved from the root; a missing one is created, a directory is
    entered, a file stops the call ([FileExistsError] at the last
    component, [NotADirectoryError] before it). *)
Fixpoint mkdir_from (pre rest : path) (t : fs) : outcome fs :=
  match rest with
  | [] => Ok t
  | c :: rest' =>
      let q := pre ++ [c] in
      match t q with
      | None => mkdir_from q rest' (upd t q (Some Dir))
      | Some Dir => mkdir_from q rest' t
      | Some (File _) =>
          Raise (match rest' with
                 | [] => FileExistsError
                 | _ => NotADirectoryError
                 end)
      end
  end.

Definition mkdir_parents (p : path) : M unit :=
  emit (Call (Mkdir p)) ;;
  lift_live (mkdir_from [] p).

(** [open(p, 'wb').write(data)]: refuses a directory, needs the parent
    directory, replaces or creates the file. *)
Definition write_file (p : path) (data : list byte) (t : fs) : outcome fs :=
  match stat t p with
  | Some Dir => Raise IsADirectoryError
  | _ =>
      match stat t (parent p) with
      | Some Dir => Ok (upd t p (Some (File data)))
      | Some (File _) => Raise NotADirectoryError
      | None => Raise FileNotFoundError
      end
  end.

(** [Path.write_bytes] *)
Definition write_bytes (p : path) (data : list byte) : M unit :=
  emit (Call (WriteBytes p)) ;;
  lift_live (write_file p data).

(** Where [shutil.copy2] really writes: inside [dst], under the source's
    name, when [dst] is a directory. *)
Definition real_dst (t : fs) (src_name : string) (dst : path) : path :=
  if is_dir t dst then dst ++ [src_name] else dst.

(** [shutil.copy2(src, dst)] for a regular file [src] named [src_name]
    holding [data], onto the working directory. *)
Definition copy2_data (src_name : string) (data : list byte) (dst : path)
  : M unit :=
  emit (Call (Copy2 dst)) ;;
  lift_live (fun t => write_file (real_dst t src_name dst) data t).

(** [shutil.copy2(src, dst)] within the working directory. *)
Definition copy2 (src dst : path) : M unit :=
  t <- gets live ;;
  match stat t src with
  | None => raise FileNotFoundError
  | Some Dir => raise IsADirectoryError
  | Some (File data) => copy2_data (name src) data dst
  end.

(** [shutil.copytree(src, dst)] from the working directory into the
    temporary directory; [dst] must not exist. *)
Definition copytree (src dst : path) : M unit :=
  s <- gets id ;;
  if exists_ (tmp s) dst then raise FileExistsError
  else set_tmp (graft (tmp s) dst (subtree (live s) src)).

(** [Path.unlink] *)
Definition unlink (p : path) : M unit :=
  emit (Call (Unlink p)) ;;
  t <- gets live ;;
  set_live (upd t p None).

(** [shutil.rmtree] *)
Definition rmtree (p : path) : M unit :=
  emit (Call (Rmtree p)) ;;
  t <- gets live ;;
  set_live (prune t p).

(** [shutil.move(src, dst)] of a directory of the temporary directory
    into the working directory.  Into a directory [dst] it moves under the
    source's name, which must be free.  Then it renames or, when that
    fails (another file system, a missing parent), copies the tree, which
    creates missing parents and refuses an existing destination, and
    removes the source. *)
Definition move (src dst : path) : M unit :=
  emit (Call (Move dst)) ;;
  s <- gets id ;;
  dst' <- (if is_dir (live s) dst then
             if exists_ (live s) (dst ++ [name src]) then raise ShutilError
             else ret (dst ++ [name src])
           else ret dst) ;;
  if exists_ (live s) dst' then raise FileExistsError
  else
    lift_live (mkdir_from [] (parent dst')) ;;
    t <- gets live ;;
    set_live (graft t dst' (subtree (tmp s) src)) ;;
    set_tmp (prune (tmp s) src).

(* ================================================================== *)
(** * Text files *)

Module Text.
Local Open Scope N_scope.

Definition cont (b : N) : bool := (0x80 <=? b) && (b <=? 0xBF).
Definition between (lo b hi : N) : bool := (lo <=? b) && (b <=? hi).

(** One step of the strict UTF-8 decoder: the next code point and the
    bytes after it.  Overlong forms, surrogates and values above
    U+10FFFF are rejected, as the [utf-8] codec does. *)
Definition decode1 (bs : list N) : option (N * list N) :=
  match bs with
  | [] => None
  | b0 :: t0 =>
      if b0 <? 0x80 then Some (b0, t0)
      else if between 0xC2 b0 0xDF then
        match t0 with
        | b1 :: t1 =>
            if cont b1 then Some ((b0 - 0xC0) * 64 + (b1 - 0x80), t1)
            else None
        | _ => None
        end
      else if between 0xE0 b0 0xEF then
        match t0 with
        | b1 :: b2 :: t2 =>
            if between (if b0 =? 0xE0 then 0xA0 else 0x80) b1
                       (if b0 =? 0xED then 0x9F else 0xBF)
               && cont b2
            then Some ((b0 - 0xE0) * 4096 + (b1 - 0x80) * 64
                       + (b2 - 0x80), t2)
            else None
        | _ => None
        end
      else if between 0xF0 b0 0xF4 then
        match t0 with
        | b1 :: b2 :: b3 :: t3 =>
            if between (if b0 =? 0xF0 then 0x90 else 0x80) b1
                       (if b0 =? 0xF4 then 0x8F else 0xBF)
               && cont b2 && cont b3
            then Some ((b0 - 0xF0) * 262144 + (b1 - 0x80) * 4096
                       + (b2 - 0x80) * 64 + (b3 - 0x80), t3)
            else None
        | _ => None
        end
      else None
  end.

(** [fuel] bounds the number of code points; the length of the input is
    always enough. *)
Fixpoint decode_fuel (fuel : nat) (bs : list N) : option (list N) :=
  match bs with
  | [] => Some []
  | _ =>
      match fuel with
      | O => None
      | S fuel' =>
          match decode1 bs with
          | None => None
          | Some (c, rest) =>
              match decode_fuel fuel' rest with
              | None => None
              | Some cs => Some (c :: cs)
              end
          end
      end
  end.

(** [bytes.decode('utf-8')], [None] for [UnicodeDecodeError]. *)
Definition decode (data : list byte) : option (list N) :=
  decode_fuel (length data) (List.map Byte.to_N data).

(** Universal newlines on reading: CR LF and a lone CR become LF. *)
Fixpoint newlines (cs : list N) : list N :=
  match cs with
  | [] => []
  | c :: cs' =>
      if c =? 13 then
        10 :: newlines (match cs' with
                        | c' :: cs'' => if c' =? 10 then cs'' else cs'
                        | [] => cs'
                        end)
      else c :: newlines cs'
  end.

(** The bytes [pre] are one well-formed UTF-8 sequence, and [c] is the
    code point it stands for. *)
Inductive encodes : N -> list N -> Prop :=
| enc1 b0 :
    b0 < 0x80 -> encodes b0 [b0]
| enc2 b0 b1 :
    0xC2 <= b0 <= 0xDF -> 0x80 <= b1 <= 0xBF ->
    encodes ((b0 - 0xC0) * 64 + (b1 - 0x80)) [b0; b1]
| enc3 b0 b1 b2 :
    0xE0 <= b0 <= 0xEF -> 0x80 <= b1 <= 0xBF ->
    (b0 = 0xE0 -> 0xA0 <= b1) -> (b0 = 0xED -> b1 <= 0x9F) ->
    0x80 <= b2 <= 0xBF ->
    encodes ((b0 - 0xE0) * 4096 + (b1 - 0x80) * 64 + (b2 - 0x80))
            [b0; b1; b2]
| enc4 b0 b1 b2 b3 :
    0xF0 <= b0 <= 0xF4 -> 0x80 <= b1 <= 0xBF ->
    (b0 = 0xF0 -> 0x90 <= b1) -> (b0 = 0xF4 -> b1 <= 0x8F) ->
    0x80 <= b2 <= 0xBF -> 0x80 <= b3 <= 0xBF ->
    encodes ((b0 - 0xF0) * 262144 + (b1 - 0x80) * 4096
             + (b2 - 0x80) * 64 + (b3 - 0x80))
            [b0; b1; b2; b3].

(** [open(p, 'r', encoding='utf-8').read()] on what [p] resolves to. *)
Definition read (e : entry) : outcome (list N) :=
  match e with
  | Dir => Raise IsADirectoryError
  | File data =>
      match decode data with
      | Some cs => Ok (newlines cs)
      | None => Raise UnicodeDecodeError
      end
  end.

Fixpoint eqb (a b : list N) : bool :=
  match a, b with
  | [], [] => true
  | x :: a', y :: b' => (x =? y) && eqb a' b'
  | _, _ => false
  end.

End Text.

(* ================================================================== *)
(** * What the run does not control *)

(** How the child process started by [subprocess.run] ends. *)
Inductive process :=
| Exited (stdout stderr : string) (returncode : nat)
| NotStarted.

Record world := mkWorld {
  now : string;                            (* strftime('%Y%m%d_%H%M%S') *)
  commit_info : option (string * string);  (* short sha and first line *)
  download_ok : bool;                      (* the archive arrives *)
  archive : option (list (string * node)); (* entries after extraction,
                                              [None]: not a zip file *)
  iter_order : list string;                (* iteration order of the set
                                              [preserve_items] *)
  executable : string;                     (* sys.executable *)
  pip : process
}.

(* ================================================================== *)
(** * update.py *)

Definition GITHUB_ZIP_URL : string :=
  "https://github.com/dominolu/msx_grid/archive/refs/heads/main.zip".

Definition config_path : path := Path "config/config.yaml".

(** [subprocess.run(cmd, shell=True, check=check, ...)] *)
Definition subprocess_run (w : world) (cmd : string) (check : bool)
  : M (string * string * nat) :=
  emit (Call (Run cmd)) ;;
  match pip w with
  | NotStarted => raise OSError
  | Exited out err rc =>
      if check && negb (Nat.eqb rc 0) then raise (CalledProcessError rc)
      else ret (out, err, rc)
  end.

Definition run_command (w : world) (cmd : string) (check : bool)
  : M (option string * string * nat) :=
  try_except
    (r <- subprocess_run w cmd check ;;
     let '(out, err, rc) := r in
     ret (Some (Str.strip out), Str.strip err, rc))
    (fun e =>
       match e with
       | CalledProcessError rc => ret (None, exn_text e, rc)
       | _ => raise e
       end).

Definition backup_config (w : world) : M (option path) :=
  t <- gets live ;;
  if exists_ t config_path then
    let backup_path := Path ("config/config.yaml.backup." ++ now w)%string in
    copy2 config_path backup_path ;;
    print_info ("配置文件已备份到: " ++ str backup_path)%string ;;
    ret (Some backup_path)
  else ret None.

Definition restore_config (backup_path : option path) : M unit :=
  match backup_path with
  | None => ret tt
  | Some bp =>
      t <- gets live ;;
      if exists_ t bp then
        copy2 bp config_path ;;
        print_info "配置文件已恢复"
      else ret tt
  end.

Definition get_latest_commit_info (w : world)
  : M (option (string * string)) :=
  match commit_info w with
  | Some c => ret (Some c)
  | None => print_warning "获取 commit 信息失败" ;; ret None
  end.

(** The archive is written below the temporary directory, which the model
    does not list; only the outcome matters to the callers. *)
Definition download_file (w : world) (url : string) : M bool :=
  if download_ok w then emit (Print PLAIN "") ;; ret true
  else print_error "下载失败" ;; ret false.

Definition check_requirements_changed
    (old_requirements new_requirements : option entry) : bool :=
  match old_requirements, new_requirements with
  | Some old, Some new =>
      match Text.read old, Text.read new with
      | Ok old_content, Ok new_content =>
          negb (Text.eqb old_content new_content)
      | _, _ => true
      end
  | _, _ => true
  end.

Definition update_dependencies (w : world) : M unit :=
  print_info "检查依赖更新..." ;;
  t <- gets live ;;
  if negb (exists_ t (Path "requirements.txt")) then
    print_warning "requirements.txt 不存在，跳过依赖更新"
  else
    print_info "正在更新 Python 依赖..." ;;
    try_except
      (run_command w (executable w
                      ++ " -m pip install -r requirements.txt --upgrade")%string
                   true ;;
       print_success "依赖更新完成")
      (fun e => print_error ("依赖更新失败: " ++ exn_text e)%string).

Definition preserve_items : list string :=
  [ "config/config.yaml"; "logs"; "__pycache__"; ".git";
    "app.bin"; "app.build"; "app.dist"; "app.onefile-build" ].

(** A value of the dictionary [preserve_backup]. *)
Inductive backup :=
| Bytes (data : list byte)
| BackupDir (p : path).        (* a directory of the temporary directory *)

Definition dict := list (string * backup).

(** [d[k] = v] *)
Fixpoint dict_set (k : string) (v : backup) (d : dict) : dict :=
  match d with
  | [] => [(k, v)]
  | (k', v') :: d' =>
      if String.eqb k k' then (k, v) :: d' else (k', v') :: dict_set k v d'
  end.

(** [temp_dir / f"backup_{item.replace('/', '_')}"], relative to the
    temporary directory. *)
Definition backup_dir_of (item : string) : path :=
  [("backup_" ++ Str.replace_slash item)%string].

(** Lines 199-209: the loop that fills [preserve_backup]. *)
Fixpoint snapshot (items : list string) (preserve_backup : dict) : M dict :=
  match items with
  | [] => ret preserve_backup
  | item :: items' =>
      let item_path := Path item in
      t <- gets live ;;
      match stat t item_path with
      | Some (File data) =>
          snapshot items' (dict_set item (Bytes data) preserve_backup)
      | Some Dir =>
          let backup_dir := backup_dir_of item in
          copytree item_path backup_dir ;;
          snapshot items' (dict_set item (BackupDir backup_dir) preserve_backup)
      | None => snapshot items' preserve_backup
      end
  end.

Definition files_of (cs : list (string * node)) : list (string * list byte) :=
  flat_map (fun c => match snd c with
                     | FileN d => [(fst c, d)]
                     | DirN _ => []
                     end) cs.

(** [os.walk(top)], top-down, together with the loop body's
    [dirs.remove('.git')]: one pair per visited directory, its path
    relative to the top and its files.  A top that is not a directory
    yields nothing. *)
Fixpoint walk (rel_root : path) (n : node)
  : list (path * list (string * list byte)) :=
  match n with
  | FileN _ => []
  | DirN cs =>
      (rel_root, files_of cs) ::
      (fix descend (ds : list (string * node)) (git_removed : bool) :=
         match ds with
         | [] => []
         | (d, c) :: ds' =>
             match c with
             | FileN _ => descend ds' git_removed
             | DirN _ =>
                 if String.eqb d ".git" && negb git_removed
                 then descend ds' true
                 else walk (rel_root ++ [d]) c ++ descend ds' git_removed
             end
         end) cs false
  end.

(** Lines 234-238. *)
Definition skip (items : list string) (target_file : path) : bool :=
  existsb (fun preserve => Str.startswith (str target_file) preserve) items.

(** Lines 229-248: the inner loop over the files of one directory. *)
Fixpoint copy_files (items : list string) (target_root : path)
    (files : list (string * list byte)) (files_updated : nat) : M nat :=
  match files with
  | [] => ret files_updated
  | (file, data) :: files' =>
      let target_file := target_root ++ [file] in
      if skip items target_file then
        copy_files items target_root files' files_updated
      else
        mkdir_parents (parent target_file) ;;
        copy2_data file data target_file ;;
        copy_files items target_root files' (files_updated + 1)
  end.

(** Lines 221-248: the loop over [os.walk(source_dir)]. *)
Fixpoint merge (items : list string)
    (visits : list (path * list (string * list byte))) (files_updated : nat)
  : M nat :=
  match visits with
  | [] => ret files_updated
  | (rel_root, files) :: visits' =>
      n <- copy_files items rel_root files files_updated ;;
      merge items visits' n
  end.

(** Lines 253-264. *)
Fixpoint restore (preserve_backup : dict) : M unit :=
  match preserve_backup with
  | [] => ret tt
  | (item, b) :: rest =>
      let item_path := Path item in
      match b with
      | Bytes data =>
          mkdir_parents (parent item_path) ;;
          write_bytes item_path data
      | BackupDir backup_dir =>
          t <- gets live ;;
          (if exists_ t item_path then
             if is_file t item_path then unlink item_path
             else rmtree item_path
           else ret tt) ;;
          move backup_dir item_path
      end ;;
      restore rest
  end.

(** What [update_via_zip] hands back: [False] on two paths, a pair on the
    others. *)
Inductive pyret :=
| RBool (b : bool)
| RPair (success requirements_changed : bool).

(** Lines 211-216: the dependency manifests are compared only when both
    exist. *)
Definition verdict (t : fs) (source_dir : node) : bool :=
  let old_requirements := stat t (Path "requirements.txt") in
  let new_requirements :=
    option_map node_entry (child source_dir "requirements.txt") in
  if is_some old_requirements && is_some new_requirements
  then check_requirements_changed old_requirements new_requirements
  else false.

(** Lines 166-216, the [try] block up to the merge: either the value
    returned early, or the merge source with the snapshots and the verdict
    on the dependency manifest. *)
Definition prepare (w : world) : M (pyret + node * dict * bool) :=
  print_info "正在下载最新代码..." ;;
  ok <- download_file w GITHUB_ZIP_URL ;;
  if negb ok then ret (inl (RBool false))
  else
    print_info "正在解压文件..." ;;
    extracted_dirs <-
      match archive w with
      | Some entries => ret entries
      | None => raise BadZipFile
      end ;;
    match extracted_dirs with
    | [] => print_error "解压后未找到文件" ;; ret (inl (RBool false))
    | (_, source_dir) :: _ =>
        preserve_backup <- snapshot (iter_order w) [] ;;
        t <- gets live ;;
        let requirements_changed := verdict t source_dir in
        ret (inr (source_dir, preserve_backup, requirements_changed))
    end.

(** Lines 218-266, the rest of the [try] block. *)
Definition apply_update (w : world) (source_dir : node)
    (preserve_backup : dict) (requirements_changed : bool) : M pyret :=
  print_info "正在更新文件..." ;;
  files_updated <- merge (iter_order w) (walk [] source_dir) 0 ;;
  print_success ("已更新 " ++ Str.of_nat files_updated ++ " 个文件")%string ;;
  restore preserve_backup ;;
  ret (RPair true requirements_changed).

(** Lines 154-163: the announcement and [mkdtemp]. *)
Definition announce (w : world) : M unit :=
  print_info "使用 ZIP 下载方式更新..." ;;
  commit <- get_latest_commit_info w ;;
  match commit with
  | Some (sha, message) =>
      print_info ("最新 commit: " ++ sha ++ " - " ++ message)%string
  | None => ret tt
  end ;;
  set_tmp empty_fs.

(** Lines 268-270. *)
Definition on_exception (e : exn) : M pyret :=
  print_error ("ZIP 更新过程中出错: " ++ exn_text e)%string ;;
  ret (RPair false false).

(** Lines 271-276: the temporary directory is removed. *)
Definition cleanup (s : state) : state :=
  mkState (live s) empty_fs (stdin s) (log s).

Definition update_via_zip (w : world) : M pyret :=
  announce w ;;
  try_finally
    (try_except
       (x <- prepare w ;;
        match x with
        | inl r => ret r
        | inr (source_dir, preserve_backup, requirements_changed) =>
            apply_update w source_dir preserve_backup requirements_changed
        end)
       on_exception)
    cleanup.

(** [success, requirements_changed = r] *)
Definition unpack2 (r : pyret) : M (bool * bool) :=
  match r with
  | RPair a b => ret (a, b)
  | RBool _ => raise TypeError
  end.

(** Whether the answer to a prompt is the affirmative one. *)
Definition affirmative (response : string) : bool :=
  String.eqb (Str.lower (Str.strip response)) "y".

(** Lines 296-315 of [main], from the unpacking of what [update_via_zip]
    returned. *)
Definition report (w : world) (backup_path : option path) (r : pyret)
  : M unit :=
  sr <- unpack2 r ;;
  let '(success, requirements_changed) := sr in
  if success then
    (if requirements_changed then
       print_info "检测到 requirements.txt 有变化" ;;
       response <- input "是否更新 Python 依赖? (y/n): " ;;
       if affirmative response then update_dependencies w else ret tt
     else ret tt) ;;
    print_success "更新完成！" ;;
    print_info "建议:" ;;
    print_info "1. 检查配置文件 config/config.yaml 是否需要调整" ;;
    print_info "2. 如有备份文件，可手动对比配置差异" ;;
    print_info "3. 重启应用服务以应用更新"
  else
    match backup_path with
    | Some _ => restore_config backup_path
    | None => ret tt
    end ;;
    print_error "更新失败，配置文件已恢复".

(** Lines 295-315 of [main]: the update and the report on it. *)
Definition update_and_report (w : world) (backup_path : option path)
  : M unit :=
  r <- update_via_zip w ;;
  report w backup_path r.

(** Lines 285-315 of [main]: everything after the configuration backup. *)
Definition ask_and_update (w : world) (backup_path : option path) : M unit :=
  commit <- get_latest_commit_info w ;;
  match commit with
  | Some (sha, message) =>
      print_info ("最新版本: " ++ sha ++ " - " ++ message)%string
  | None => ret tt
  end ;;
  response <- input "是否继续更新? (y/n): " ;;
  if negb (affirmative response) then print_info "更新已取消"
  else update_and_report w backup_path.

Definition main (w : world) : M unit :=
  emit (Print PLAIN "=== MSX Grid 自动更新脚本 ===") ;;
  backup_path <- backup_config w ;;
  ask_and_update w backup_path.

(** How the [__main__] block ends a run of [main]. *)
Definition exit_with (r : outcome unit * state) : nat * state :=
  match r with
  | (Ok _, s') => (0, s')
  | (Raise e, s') =>
      (1, snd (print_error ("更新过程中发生错误: " ++ exn_text e)%string s'))
  end.

(** The [__main__] block: exit status and final state of one run. *)
Definition script (w : world) (s : state) : nat * state :=
  exit_with (main w s).

(* ================================================================== *)
(** * Checks on a list of preserved items *)

(** Each slash of [s] has more characters after it than before it
    ([before] counts the characters ahead of [s]). *)
Fixpoint slash_ok_from (before : nat) (s : string) : bool :=
  match s with
  | EmptyString => true
  | String c s' =>
      (if Ascii.eqb c "/" then before <? String.length s' else true)%nat
      && slash_ok_from (S before) s'
  end.

Definition slash_ok (s : string) : bool := slash_ok_from 0 s.

(** The item names a path below the working directory and is spelled the
    way [str] spells that path. *)
Definition item_ok (item : string) : bool :=
  negb (path_eqb (Path item) []) && String.eqb (str (Path item)) item
  && slash_ok item.

(** Two different items are neither inside one another nor backed up
    under the same name. *)
Definition apart (a b : string) : bool :=
  String.eqb a b
  || (negb (is_some (strip_prefix (Path a) (Path b)))
      && negb (path_eqb (backup_dir_of a) (backup_dir_of b))).

Definition items_sane (items : list string) : bool :=
  forallb item_ok items
  && forallb (fun a => forallb (apart a) items) items.

(* ================================================================== *)
(** * Definitions used in the statements *)

(** The [try] block of [update_via_zip]. *)
Definition body (w : world) : M pyret :=
  x <- prepare w ;;
  match x with
  | inl r => ret r
  | inr (source_dir, preserve_backup, requirements_changed) =>
      apply_update w source_dir preserve_backup requirements_changed
  end.

(** The state in which the [try] block starts. *)
Definition announced (w : world) (s : state) : state :=
  snd (announce w s).

(** The state after a download and an extraction that went well. *)
Definition fetched (s : state) : state :=
  mkState (live s) (tmp s) (stdin s)
    (log s ++ [Print INFO "正在下载最新代码..."; Print PLAIN "";
               Print INFO "正在解压文件..."]).

(** Every run of [c] relates the state it starts from to the state it ends
    in, whether it returns or raises. *)
Definition keeps {A} (R : state -> state -> Prop) (c : M A) : Prop :=
  forall s, R s (snd (c s)).

(** Working directories that agree wherever [prot] holds. *)
Definition same_on (prot : path -> Prop) (s s' : state) : Prop :=
  forall q, prot q -> live s' q = live s q.

(** The store [t] has what [ref] has at and below every preserved item. *)
Definition agree (ref t : fs) : Prop :=
  forall item, In item preserve_items ->
    forall r, t (Path item ++ r) = ref (Path item ++ r).

(** The snapshots [d] hold what the store [ref] has at the preserved
    items, the directories as copies in the temporary directory [tm]. *)
Definition good (ref tm : fs) (d : dict) : Prop :=
  forall item b, In (item, b) d ->
    In item preserve_items /\
    match b with
    | Bytes data => ref (Path item) = Some (File data)
    | BackupDir bd =>
        bd = backup_dir_of item /\
        ref (Path item) = Some Dir /\
        forall r, tm (bd ++ r) = ref (Path item ++ r)
    end.

(** Everything in the temporary directory [tm] is a backup of a key of
    [d]. *)
Definition owned (tm : fs) (d : dict) : Prop :=
  forall q, tm q <> None ->
    exists item r, In item (map fst d) /\ q = backup_dir_of item ++ r.

Definition is_notice (e : event) : Prop :=
  match e with
  | Print INFO _ | Print WARNING _ => True
  | _ => False
  end.

Definition is_print_or_call (e : event) : Prop :=
  match e with
  | Print _ _ | Call _ => True
  | _ => False
  end.

(** The library calls of a trace. *)
Definition calls (l : list event) : list call :=
  flat_map (fun e => match e with Call c => [c] | _ => [] end) l.

(** The prompts of a trace. *)
Definition prompts (l : list event) : list string :=
  flat_map (fun e => match e with Prompt m => [m] | _ => [] end) l.

(** The calls that only the restore loop (lines 253-264) makes. *)
Definition is_restore_call (c : call) : bool :=
  match c with
  | WriteBytes _ | Unlink _ | Rmtree _ | Move _ => true
  | _ => false
  end.

(** The state in which the merge loop of a run starts, with the merge
    source, the snapshots and the verdict on the manifests; [None] when
    the run does not get there. *)
Definition merging (w : world) (s : state)
  : option (node * dict * bool * state) :=
  match prepare w (announced w s) with
  | (Ok (inr (source_dir, preserve_backup, requirements_changed)), sp) =>
      Some (source_dir, preserve_backup, requirements_changed,
            mkState (live sp) (tmp sp) (stdin sp)
                    (log sp ++ [Print INFO "正在更新文件..."]))
  | _ => None
  end.

(** Where [backup_config] copies the configuration file. *)
Definition backup_dst (w : world) : path :=
  Path ("config/config.yaml.backup." ++ now w)%string.

(** The state after the banner of [main]. *)
Definition greeted (s : state) : state :=
  mkState (live s) (tmp s) (stdin s)
          (log s ++ [Print PLAIN "=== MSX Grid 自动更新脚本 ==="]).

(** The operator does not give the affirmative answer to the first
    prompt. *)
Definition declines (s : state) : Prop :=
  match stdin s with
  | response :: _ => affirmative response = false
  | [] => True
  end.

(** The trace [b] extends the trace of [a] by prints and library calls
    only. *)
Definition extends_quietly (a b : state) : Prop :=
  exists evs, log b = log a ++ evs /\ Forall is_print_or_call evs.

(* ================================================================== *)
(** * Concrete stores and runs *)

(** A store given by the list of its entries. *)
Fixpoint fs_of_list (l : list (path * entry)) : fs :=
  match l with
  | [] => empty_fs
  | (p, e) :: l' => fun q => if path_eqb q p then Some e else fs_of_list l' q
  end.

(** Every listed entry has its parent listed as a directory. *)
Definition wf_list (l : list (path * entry)) : bool :=
  forallb (fun pe =>
             match stat (fs_of_list l) (parent (fst pe)) with
             | Some Dir => true
             | _ => false
             end) l.

Definition bytes_of (s : string) : list byte := list_byte_of_string s.

Definition start (t : fs) (lines : list string) : state :=
  mkState t empty_fs lines [].

Module Demo.


(** The content of the release. *)
Definition source : node :=
  DirN [ ("app.py", FileN (bytes_of "print(2)"));
         ("logs.txt", FileN (bytes_of "notes"));
         ("requirements.txt", FileN (bytes_of "requests"));
         ("config",
          DirN [ ("config.yaml", FileN (bytes_of "a: 2"));
                 ("config.yaml.example", FileN (bytes_of "a: 0")) ]);
         (".git", DirN [ ("HEAD", FileN (bytes_of "ref")) ]) ].

(** The branch archive: one top-level directory. *)
Definition release : list (string * node) := [ ("msx_grid-main", source) ].

(** A working directory with a configuration file, a log and a module. *)
Definition entries : list (path * entry) :=
  [ (["config"], Dir);
    (["config"; "config.yaml"], File (bytes_of "a: 1"));
    (["logs"], Dir);
    (["logs"; "run.log"], File (bytes_of "old"));
    (["requirements.txt"], File (bytes_of "requests"));
    (["app.py"], File (bytes_of "print(1)")) ].

Definition tree : fs := fs_of_list entries.

Definition with_archive (a : option (list (string * node))) : world :=
  mkWorld "20240101_120000" (Some ("0123abcd", "release")) true
          a preserve_items "python" (Exited "" "" 0).

Definition net : world := with_archive (Some release).

(** The download fails. *)
Definition offline : world :=
  mkWorld "20240101_120000" (Some ("0123abcd", "release")) false
          (Some release) preserve_items "python" (Exited "" "" 0).

(** An archive with no entry. *)
Definition empty_zip : world := with_archive (Some []).

(** An archive with top-level files only. *)
Definition flat : world :=
  with_archive (Some [ ("README.md", FileN (bytes_of "readme"));
                       ("app.py", FileN (bytes_of "print(2)")) ]).

(** A working directory where [docs] is a file, and a release where it is
    a directory. *)
Definition tree_docs : fs :=
  fs_of_list (entries ++ [ (["docs"], File (bytes_of "notes")) ]).

Definition release_docs : list (string * node) :=
  [ ("msx_grid-main",
     DirN [ ("app.py", FileN (bytes_of "print(2)"));
            ("docs", DirN [ ("index.md", FileN (bytes_of "# docs")) ]);
            ("msx", DirN [ ("grid.py", FileN (bytes_of "VERSION")) ]) ]) ].

Definition net_docs : world := with_archive (Some release_docs).

(** A working directory without a dependency manifest. *)
Definition tree_bare : fs :=
  fs_of_list
    [ (["config"], Dir);
      (["config"; "config.yaml"], File (bytes_of "a: 1"));
      (["app.py"], File (bytes_of "print(1)")) ].

(** A release with a new dependency, and a [pip] that exits with 1. *)
Definition release_deps : list (string * node) :=
  [ ("msx_grid-main",
     DirN [ ("app.py", FileN (bytes_of "print(2)"));
            ("requirements.txt", FileN (bytes_of "requests flask")) ]) ].

Definition pip_fails : world :=
  mkWorld "20240101_120000" (Some ("0123abcd", "release")) true
          (Some release_deps) preserve_items "python"
          (Exited "" "ERROR: No matching distribution" 1).

End Demo.

(* ================================================================== *)
(** * Definitions used in the further statements *)

(** Every exception that [c] can raise satisfies [P]. *)
Definition raises_only {A} (P : exn -> Prop) (c : M A) : Prop :=
  forall s, match fst (c s) with
            | Ok _ => True
            | Raise e => P e
            end.

(** The exceptions of the file system. *)
Definition is_os_error (e : exn) : Prop :=
  match e with
  | FileExistsError | FileNotFoundError | NotADirectoryError
  | IsADirectoryError => True
  | _ => False
  end.


(** The state [s] with [evs] appended to its trace. *)
Definition logged (s : state) (evs : list event) : state :=
  mkState (live s) (tmp s) (stdin s) (log s ++ evs).


(** Whether an entry is a file or a directory. *)
Definition kind (e : option entry) : option bool :=
  match e with
  | Some (File _) => Some true
  | Some Dir => Some false
  | None => None
  end.

(** Everything the store [t] has is still there in [t'], files as files
    and directories as directories. *)
Definition persists (t t' : fs) : Prop :=
  forall q, t q <> None -> kind (t' q) = kind (t q).

(** The targets of the merge loop, in the order of the walk. *)
Definition targets (visits : list (path * list (string * list byte)))
  : list path :=
  flat_map (fun v => map (fun f => fst v ++ [fst f]) (snd v)) visits.

(** The targets that the exclusion test lets through. *)
Definition copied (items : list string)
    (visits : list (path * list (string * list byte))) : list path :=
  filter (fun t => negb (skip items t)) (targets visits).

(** The destinations of the [shutil.copy2] calls of a trace. *)
Definition copies (l : list event) : list path :=
  flat_map (fun e => match e with Call (Copy2 p) => [p] | _ => [] end) l.

(** The path [q] is neither at or below the path [p] nor above it. *)
Definition beside (p q : path) : Prop :=
  strip_prefix p q = None /\ strip_prefix q p = None.

(** The visits below one directory, as [walk] makes them: [ds] are the
    entries still to look at. *)
Fixpoint descend (rel_root : path) (ds : list (string * node))
    (git_removed : bool) : list (path * list (string * list byte)) :=
  match ds with
  | [] => []
  | (d, c) :: ds' =>
      match c with
      | FileN _ => descend rel_root ds' git_removed
      | DirN _ =>
          if String.eqb d ".git" && negb git_removed
          then descend rel_root ds' true
          else walk (rel_root ++ [d]) c ++ descend rel_root ds' git_removed
      end
  end.

(** What the path [r] resolves to below [n]. *)
Fixpoint resolve (n : node) (r : path) : option node :=
  match r with
  | [] => Some n
  | c :: r' =>
      match child n c with
      | Some m => resolve m r'
      | None => None
      end
  end.

Fixpoint distinct (l : list string) : bool :=
  match l with
  | [] => true
  | x :: l' => negb (existsb (String.eqb x) l') && distinct l'
  end.

(** No directory lists a name twice, as in a tree that was extracted to a
    file system. *)
Fixpoint unique_names (n : node) : bool :=
  match n with
  | FileN _ => true
  | DirN cs =>
      distinct (map fst cs) &&
      (fix all (l : list (string * node)) : bool :=
         match l with
         | [] => true
         | (_, c) :: l' => unique_names c && all l'
         end) cs
  end.

(** What the snapshot loop records for one item of a working directory. *)
Definition snapshot_of (t : fs) (item : string) : list (string * backup) :=
  match stat t (Path item) with
  | Some (File data) => [(item, Bytes data)]
  | Some Dir => [(item, BackupDir (backup_dir_of item))]
  | None => []
  end.

(** The exceptions that can end [main]. *)
Definition ends_main (e : exn) : Prop :=
  is_os_error e \/ e = EOFError \/ e = TypeError.

(** From [a] to [b] the run asks the questions [ps], in this order, and
    takes at most one line of the input for each. *)
Definition asks (ps : list string) (a b : state) : Prop :=
  exists evs taken,
    log b = log a ++ evs /\ prompts evs = ps /\
    stdin a = taken ++ stdin b /\ length taken <= length ps.

(** Every run of [c] asks an initial part of the questions [full]. *)
Definition within {A} (full : list string) (c : M A) : Prop :=
  forall s, exists ps rest, full = ps ++ rest /\ asks ps s (snd (c s)).

(** A run of [c] that returns has asked the questions [full]; one that
    raises has asked an initial part of them. *)
Definition exactly {A} (full : list string) (c : M A) : Prop :=
  forall s, match fst (c s) with
            | Ok _ => asks full s (snd (c s))
            | Raise _ =>
                exists ps rest, full = ps ++ rest /\ asks ps s (snd (c s))
            end.

(** The two questions of [main]. *)
Definition ask_continue : string := "是否继续更新? (y/n): ".
Definition ask_dependencies : string := "是否更新 Python 依赖? (y/n): ".

(* ================================================================== *)
(** * Facts about strings and paths *)

Section StringFacts.

Lemma prefix_refl (s : string) : String.prefix s s = true.
Proof.
  induction s as [|c s IH]; simpl; [reflexivity|].
  destruct (ascii_dec c c); [assumption | congruence].
Qed.

Lemma prefix_app (s x : string) : String.prefix s (s ++ x)%string = true.
Proof.
  induction s as [|c s IH]; simpl; [destruct x; reflexivity|].
  destruct (ascii_dec c c); [assumption | congruence].
Qed.

Lemma prefix_trans (a b c : string) :
  String.prefix a b = true -> String.prefix b c = true ->
  String.prefix a c = true.
Proof.
  revert b c; induction a as [|x a IH]; intros b c Hab Hbc.
  - destruct c; reflexivity.
  - destruct b as [|y b]; [discriminate|].
    destruct c as [|z c]; [discriminate|].
    simpl in *.
    destruct (ascii_dec x y); [subst | discriminate].
    destruct (ascii_dec y z); [subst | discriminate].
    eauto.
Qed.

(** A prefix of [s ++ x] is a prefix of [s], or it is [s] followed by a
    prefix of [x]. *)
Lemma prefix_app_inv (p s x : string) :
  String.prefix p (s ++ x)%string = true ->
  String.prefix p s = true \/
  exists r, p = (s ++ r)%string /\ String.prefix r x = true.
Proof.
  revert p; induction s as [|c s IH]; intros p H.
  - right. exists p. split; [reflexivity | exact H].
  - destruct p as [|d p]; [left; reflexivity|].
    simpl in H. simpl.
    destruct (ascii_dec d c); [subst | discriminate].
    destruct (IH _ H) as [Hl | [r [-> Hr]]]; [left; assumption|].
    right. exists r. split; [reflexivity | assumption].
Qed.

Lemma prefix_length (p s : string) :
  String.prefix p s = true -> String.length p <= String.length s.
Proof.
  revert s; induction p as [|c p IH]; intros s H; simpl; [lia|].
  destruct s as [|d s]; [discriminate|].
  simpl in *. destruct (ascii_dec c d); [|discriminate].
  apply IH in H. lia.
Qed.

Lemma string_length_app (a b : string) :
  String.length (a ++ b)%string = String.length a + String.length b.
Proof. induction a; simpl; congruence. Qed.

Lemma app_assoc_s (a b c : string) :
  ((a ++ b) ++ c = a ++ (b ++ c))%string.
Proof. induction a; simpl; congruence. Qed.

Lemma app_empty_r (a : string) : (a ++ "")%string = a.
Proof. induction a; simpl; congruence. Qed.

Lemma concat_app (sep : string) (p r : list string) :
  p <> [] -> r <> [] ->
  String.concat sep (p ++ r)
  = (String.concat sep p ++ sep ++ String.concat sep r)%string.
Proof.
  intros Hp Hr. induction p as [|a p IH]; [congruence|].
  destruct p as [|b p].
  - simpl. destruct r; [congruence | reflexivity].
  - change (String.concat sep ((a :: b :: p) ++ r))
      with (a ++ sep ++ String.concat sep ((b :: p) ++ r))%string.
    rewrite IH by discriminate.
    change (String.concat sep (a :: b :: p))
      with (a ++ sep ++ String.concat sep (b :: p))%string.
    now rewrite !app_assoc_s.
Qed.

Lemma str_app (p r : path) :
  p <> [] -> r <> [] -> str (p ++ r) = (str p ++ "/" ++ str r)%string.
Proof.
  intros Hp Hr. unfold str.
  destruct p as [|a p]; [congruence|].
  destruct r as [|b r]; [congruence|].
  simpl app at 1. apply (concat_app "/" (a :: p) (b :: r)); discriminate.
Qed.

(** A path is a string prefix of everything inside it. *)
Lemma str_prefix (p r : path) :
  p <> [] -> String.prefix (str p) (str (p ++ r)) = true.
Proof.
  intros Hp. destruct r as [|b r].
  - rewrite app_nil_r. apply prefix_refl.
  - rewrite str_app by (assumption || discriminate). apply prefix_app.
Qed.

Lemma path_eqb_eq (p q : path) : path_eqb p q = true <-> p = q.
Proof.
  revert q; induction p as [|a p IH]; intros [|b q]; simpl;
    try (split; (reflexivity || discriminate)).
  rewrite andb_true_iff, String.eqb_eq, IH.
  split; [intros [-> ->]; reflexivity | intros [= -> ->]; auto].
Qed.

Lemma path_eqb_refl (p : path) : path_eqb p p = true.
Proof. now apply path_eqb_eq. Qed.

Lemma path_eqb_neq (p q : path) : p <> q -> path_eqb p q = false.
Proof.
  intros H. destruct (path_eqb p q) eqn:E; [|reflexivity].
  apply path_eqb_eq in E. contradiction.
Qed.

Lemma strip_prefix_app (p r : path) : strip_prefix p (p ++ r) = Some r.
Proof.
  induction p as [|a p IH]; simpl; [reflexivity|].
  now rewrite String.eqb_refl.
Qed.

Lemma strip_prefix_Some (p q r : path) :
  strip_prefix p q = Some r -> q = p ++ r.
Proof.
  revert q; induction p as [|a p IH]; intros q H; simpl in *.
  - congruence.
  - destruct q as [|b q]; [discriminate|].
    destruct (String.eqb_spec a b); [subst | discriminate].
    f_equal. auto.
Qed.

Lemma strip_prefix_None (p q : path) :
  strip_prefix p q = None -> forall r, q <> p ++ r.
Proof.
  intros H r ->. rewrite strip_prefix_app in H. discriminate.
Qed.

Lemma parent_snoc (p : path) (c : string) : parent (p ++ [c]) = p.
Proof. apply removelast_last. Qed.

Lemma name_snoc (p : path) (c : string) : name (p ++ [c]) = c.
Proof. apply last_last. Qed.

End StringFacts.

(* ================================================================== *)
(** * Relations kept by every step of a computation *)

Section Keeps.
Variable R : state -> state -> Prop.
Hypothesis R_refl : forall s, R s s.
Hypothesis R_trans : forall a b c, R a b -> R b c -> R a c.

Lemma keeps_ret {A} (a : A) : keeps R (ret a).
Proof. intros s. apply R_refl. Qed.

Lemma keeps_raise {A} (e : exn) : keeps R (@raise A e).
Proof. intros s. apply R_refl. Qed.

Lemma keeps_gets {A} (f : state -> A) : keeps R (gets f).
Proof. intros s. apply R_refl. Qed.

Lemma keeps_bind {A B} (c : M A) (k : A -> M B) :
  keeps R c -> (forall a, keeps R (k a)) -> keeps R (bind c k).
Proof.
  intros Hc Hk s. unfold bind.
  specialize (Hc s). destruct (c s) as [[a|e] s1]; simpl in *.
  - eapply R_trans; [exact Hc | apply Hk].
  - exact Hc.
Qed.

Lemma keeps_try_except {A} (c : M A) (h : exn -> M A) :
  keeps R c -> (forall e, keeps R (h e)) -> keeps R (try_except c h).
Proof.
  intros Hc Hh s. unfold try_except.
  specialize (Hc s). destruct (c s) as [[a|e] s1]; simpl in *.
  - exact Hc.
  - eapply R_trans; [exact Hc | apply Hh].
Qed.

Lemma keeps_try_finally {A} (c : M A) (f : state -> state) :
  keeps R c -> (forall s, R s (f s)) -> keeps R (try_finally c f).
Proof.
  intros Hc Hf s. unfold try_finally.
  specialize (Hc s). destruct (c s) as [r s1]; simpl in *.
  eapply R_trans; [exact Hc | apply Hf].
Qed.

Lemma keeps_if {A} (b : bool) (c d : M A) :
  keeps R c -> keeps R d -> keeps R (if b then c else d).
Proof. destruct b; auto. Qed.

End Keeps.

Lemma same_on_refl prot s : same_on prot s s.
Proof. intros q _. reflexivity. Qed.

Lemma same_on_trans prot a b c :
  same_on prot a b -> same_on prot b c -> same_on prot a c.
Proof. intros H1 H2 q Hq. rewrite (H2 q Hq). apply H1, Hq. Qed.

Section StoreFacts.

Lemma upd_same t p e : upd t p e p = e.
Proof. unfold upd. now rewrite path_eqb_refl. Qed.

Lemma upd_other t p e q : q <> p -> upd t p e q = t q.
Proof. intros H. unfold upd. now rewrite path_eqb_neq. Qed.

(** [mkdir_from] touches only the paths it resolves. *)
Lemma mkdir_from_frame rest : forall pre t t' q,
  mkdir_from pre rest t = Ok t' ->
  (forall r1 r2, r1 <> [] -> rest = r1 ++ r2 -> q <> pre ++ r1) ->
  t' q = t q.
Proof.
  induction rest as [|c rest IH]; intros pre t t' q H Hq; simpl in H.
  - congruence.
  - assert (Hrec : forall r1 r2, r1 <> [] -> rest = r1 ++ r2 ->
                                 q <> (pre ++ [c]) ++ r1).
    { intros r1 r2 Hr1 -> . rewrite <- app_assoc. simpl.
      apply (Hq (c :: r1) r2); [discriminate | reflexivity]. }
    assert (Hc : q <> pre ++ [c]).
    { apply (Hq [c] rest); [discriminate | reflexivity]. }
    destruct (t (pre ++ [c])) as [[d|]|] eqn:E.
    + discriminate.
    + eapply IH; eauto.
    + rewrite (IH _ _ _ q H Hrec). now apply upd_other.
Qed.

Lemma write_file_frame p d t t' q :
  write_file p d t = Ok t' -> q <> p -> t' q = t q.
Proof.
  unfold write_file. intros H Hq.
  destruct (stat t p) as [[?|]|]; try discriminate;
    destruct (stat t (parent p)) as [[?|]|]; try discriminate;
    injection H as <-; now apply upd_other.
Qed.

Lemma write_file_at p d t t' :
  write_file p d t = Ok t' -> t' p = Some (File d).
Proof.
  unfold write_file. intros H.
  destruct (stat t p) as [[?|]|]; try discriminate;
    destruct (stat t (parent p)) as [[?|]|]; try discriminate;
    injection H as <-; apply upd_same.
Qed.

End StoreFacts.

(* ================================================================== *)
(** * The merge never writes where the exclusion test matches *)

Section Skip.

Lemma skip_spec items t :
  skip items t = true <->
  exists preserve, In preserve items /\
                   String.prefix preserve (str t) = true.
Proof. unfold skip, Str.startswith. apply existsb_exists. Qed.

(** Anything inside a path that is skipped is skipped. *)
Lemma skip_inside items p r :
  p <> [] -> skip items p = true -> skip items (p ++ r) = true.
Proof.
  intros Hp H. apply skip_spec in H as [x [Hx Hpre]].
  apply skip_spec. exists x. split; [assumption|].
  eapply prefix_trans; [exact Hpre | now apply str_prefix].
Qed.

Lemma slash_ok_from_split (a b : string) : forall n,
  slash_ok_from n (a ++ String "/" b)%string = true ->
  n + String.length a < String.length b.
Proof.
  induction a as [|c a IH]; intros n H; simpl in H.
  - apply andb_true_iff in H as [H _].
    apply Nat.ltb_lt in H. simpl. lia.
  - apply andb_true_iff in H as [_ H].
    apply IH in H. simpl. lia.
Qed.

Lemma str_snoc_length (root : path) (f : string) :
  String.length f <= String.length (str (root ++ [f])).
Proof.
  destruct root as [|a root].
  - simpl. lia.
  - rewrite str_app by discriminate.
    rewrite !string_length_app. simpl. lia.
Qed.

(** Where [copy2] lands when the target is a directory is not a place
    the exclusion test protects, for the items of this program. *)
Lemma skip_into_dir items root f :
  Forall (fun p => slash_ok p = true) items ->
  skip items (root ++ [f]) = false ->
  skip items ((root ++ [f]) ++ [f]) = false.
Proof.
  intros Hok Hns.
  destruct (skip items ((root ++ [f]) ++ [f])) eqn:E; [|reflexivity].
  exfalso.
  apply skip_spec in E as [p [Hp Hpre]].
  assert (Hnot : String.prefix p (str (root ++ [f])) <> true).
  { intros Hc. assert (skip items (root ++ [f]) = true)
      by (apply skip_spec; eauto). congruence. }
  rewrite str_app in Hpre; [| now destruct root | discriminate].
  apply prefix_app_inv in Hpre as [Hl | [r [-> Hr]]]; [contradiction|].
  destruct r as [|c r].
  - apply Hnot. rewrite app_empty_r. apply prefix_refl.
  - change (str [f]) with f in Hr. simpl in Hr.
    destruct (ascii_dec c "/"); [subst c | discriminate].
    rewrite Forall_forall in Hok. specialize (Hok _ Hp).
    apply slash_ok_from_split in Hok.
    apply prefix_length in Hr.
    pose proof (str_snoc_length root f). lia.
Qed.

End Skip.

Section MergeFrame.
Variable items : list string.
Hypothesis items_ok : Forall (fun p => slash_ok p = true) items.

Let prot (q : path) : Prop := skip items q = true.
Let K {A} (c : M A) : Prop := keeps (same_on prot) c.

Local Hint Resolve same_on_refl same_on_trans : core.

Lemma keeps_emit_live prot' e : keeps (same_on prot') (emit e).
Proof. intros s q _. reflexivity. Qed.

Lemma keeps_lift_live prot' (f : fs -> outcome fs) :
  (forall t t' q, f t = Ok t' -> prot' q -> t' q = t q) ->
  keeps (same_on prot') (lift_live f).
Proof.
  intros Hf s q Hq. unfold lift_live.
  destruct (f (live s)) as [t'|e] eqn:E; simpl; [|reflexivity].
  eapply Hf; eauto.
Qed.

Lemma mkdir_parents_skip root f :
  skip items (root ++ [f]) = false -> K (mkdir_parents root).
Proof.
  intros Hns. unfold mkdir_parents.
  apply keeps_bind; eauto.
  - apply keeps_emit_live.
  - intros _. apply keeps_lift_live. intros t t' q H Hq.
    eapply mkdir_from_frame; [exact H|].
    intros r1 r2 Hr1 -> Heq. simpl in Heq. subst q.
    assert (skip items ((r1 ++ r2) ++ [f]) = true).
    { rewrite <- app_assoc. now apply skip_inside. }
    congruence.
Qed.

Lemma copy2_data_skip root f data :
  skip items (root ++ [f]) = false -> K (copy2_data f data (root ++ [f])).
Proof.
  intros Hns. unfold copy2_data.
  apply keeps_bind; eauto.
  - apply keeps_emit_live.
  - intros _. apply keeps_lift_live. intros t t' q H Hq.
    eapply write_file_frame; [exact H|].
    intros ->. unfold prot, real_dst in Hq.
    destruct (is_dir t (root ++ [f])).
    + rewrite skip_into_dir in Hq by assumption. discriminate.
    + congruence.
Qed.

Lemma copy_files_skip root files : forall n, K (copy_files items root files n).
Proof.
  induction files as [|[f data] files IH]; intros n; simpl.
  - apply keeps_ret. apply same_on_refl.
  - destruct (skip items (root ++ [f])) eqn:E; [apply IH|].
    rewrite parent_snoc.
    apply keeps_bind; eauto.
    { now apply mkdir_parents_skip with (f := f). }
    intros _. apply keeps_bind; eauto.
    { now apply copy2_data_skip. }
    intros _. apply IH.
Qed.

(** Whatever the merge does, and wherever it stops, the store is the
    same at every path the exclusion test matches. *)
Lemma merge_skip visits : forall n, K (merge items visits n).
Proof.
  induction visits as [|[root files] visits IH]; intros n; simpl.
  - apply keeps_ret. apply same_on_refl.
  - apply keeps_bind; eauto.
    apply copy_files_skip.
Qed.

End MergeFrame.

(* ================================================================== *)
(** * Running a computation step by step *)

Section Steps.

Lemma bind_Ok {A B} (c : M A) (k : A -> M B) s b s' :
  bind c k s = (Ok b, s') ->
  exists a s1, c s = (Ok a, s1) /\ k a s1 = (Ok b, s').
Proof.
  unfold bind. destruct (c s) as [[a|e] s1]; intros H; [eauto | discriminate].
Qed.

Lemma bind_run {A B} (c : M A) (k : A -> M B) s a s1 :
  c s = (Ok a, s1) -> bind c k s = k a s1.
Proof. unfold bind. now intros ->. Qed.

Lemma bind_run_raise {A B} (c : M A) (k : A -> M B) s e s1 :
  c s = (Raise e, s1) -> bind c k s = (Raise e, s1).
Proof. unfold bind. now intros ->. Qed.

Lemma lift_live_Ok f s u s' :
  lift_live f s = (Ok u, s') ->
  exists t', f (live s) = Ok t' /\
             s' = mkState t' (tmp s) (stdin s) (log s).
Proof.
  unfold lift_live. destruct (f (live s)) as [t'|e]; intros [= <- <-]; eauto.
Qed.

End Steps.

(* ================================================================== *)
(** * What holds of the preserved items *)

Section Items.

Lemma preserve_items_sane : items_sane preserve_items = true.
Proof. vm_compute. reflexivity. Qed.

Lemma sane_item l x :
  items_sane l = true -> In x l ->
  Path x <> [] /\ str (Path x) = x /\ slash_ok x = true.
Proof.
  unfold items_sane, item_ok. intros H Hx.
  apply andb_true_iff in H as [H _].
  rewrite forallb_forall in H. specialize (H x Hx).
  apply andb_true_iff in H as [H H3].
  apply andb_true_iff in H as [H1 H2].
  repeat split; [| now apply String.eqb_eq | exact H3].
  intros E. rewrite E in H1. discriminate.
Qed.

Lemma sane_apart l a b :
  items_sane l = true -> In a l -> In b l -> a <> b ->
  strip_prefix (Path a) (Path b) = None /\
  backup_dir_of a <> backup_dir_of b.
Proof.
  unfold items_sane, apart. intros H Ha Hb Hab.
  apply andb_true_iff in H as [_ H].
  rewrite forallb_forall in H. specialize (H a Ha).
  rewrite forallb_forall in H. specialize (H b Hb).
  apply orb_true_iff in H as [H | H].
  - apply String.eqb_eq in H. contradiction.
  - apply andb_true_iff in H as [H1 H2]. split.
    + destruct (strip_prefix (Path a) (Path b)); [discriminate | reflexivity].
    + intros E. rewrite E, path_eqb_refl in H2. discriminate.
Qed.

(** Two preserved items, one inside the other, are the same item. *)
Lemma items_nested a b r x :
  In a preserve_items -> In b preserve_items ->
  Path a ++ r = Path b ++ x -> a = b.
Proof.
  intros Ha Hb E.
  destruct (String.eqb_spec a b) as [|Hab]; [assumption | exfalso].
  apply app_eq_app in E as [y [[E1 _] | [E1 _]]].
  - destruct (sane_apart _ b a preserve_items_sane Hb Ha) as [Hn _];
      [congruence|].
    rewrite E1, strip_prefix_app in Hn. discriminate.
  - destruct (sane_apart _ a b preserve_items_sane Ha Hb Hab) as [Hn _].
    rewrite E1, strip_prefix_app in Hn. discriminate.
Qed.

Lemma strip_prefix_apart a b r :
  In a preserve_items -> In b preserve_items -> a <> b ->
  strip_prefix (Path a) (Path b ++ r) = None.
Proof.
  intros Ha Hb Hab.
  destruct (strip_prefix (Path a) (Path b ++ r)) as [x|] eqn:E;
    [|reflexivity].
  apply strip_prefix_Some in E. symmetry in E.
  apply items_nested in E; congruence.
Qed.

Lemma strip_prefix_single (a b : string) (r : path) :
  a <> b -> strip_prefix [a] ([b] ++ r) = None.
Proof.
  intros H. cbn [strip_prefix app].
  destruct (String.eqb_spec a b); [contradiction | reflexivity].
Qed.

Lemma backup_dir_apart a b r :
  In a preserve_items -> In b preserve_items -> a <> b ->
  strip_prefix (backup_dir_of a) (backup_dir_of b ++ r) = None.
Proof.
  intros Ha Hb Hab.
  destruct (sane_apart _ a b preserve_items_sane Ha Hb Hab) as [_ Hn].
  unfold backup_dir_of in *.
  apply strip_prefix_single. congruence.
Qed.

(** Every path at or below a preserved item passes the exclusion test,
    whatever the iteration order. *)
Lemma skip_preserved items item r :
  Permutation items preserve_items -> In item preserve_items ->
  skip items (Path item ++ r) = true.
Proof.
  intros Hperm Hin.
  destruct (sane_item _ _ preserve_items_sane Hin) as [Hne [Hstr _]].
  apply skip_inside; [assumption|].
  apply skip_spec. exists item. split.
  - eapply Permutation_in; [symmetry; exact Hperm | exact Hin].
  - rewrite Hstr. apply prefix_refl.
Qed.

Lemma slash_ok_perm items :
  Permutation items preserve_items ->
  Forall (fun p => slash_ok p = true) items.
Proof.
  intros Hperm. apply Forall_forall. intros x Hx.
  apply (sane_item preserve_items x preserve_items_sane).
  eapply Permutation_in; eauto.
Qed.

End Items.

(* ================================================================== *)
(** * Snapshot and restore *)

Section Snapshot.

Lemma dict_set_fresh k v d :
  ~ In k (map fst d) -> dict_set k v d = d ++ [(k, v)].
Proof.
  induction d as [|[k' v'] d IH]; simpl; intros H; [reflexivity|].
  destruct (String.eqb_spec k k') as [->|_]; [tauto|].
  f_equal. apply IH. tauto.
Qed.

Lemma stat_nonempty t p : p <> [] -> stat t p = t p.
Proof. destruct p; [congruence | reflexivity]. Qed.

Lemma good_snoc ref tm tm' d item b :
  good ref tm d ->
  (forall item' r, In item' (map fst d) ->
                   tm' (backup_dir_of item' ++ r) = tm (backup_dir_of item' ++ r)) ->
  In item preserve_items ->
  match b with
  | Bytes data => ref (Path item) = Some (File data)
  | BackupDir bd =>
      bd = backup_dir_of item /\
      ref (Path item) = Some Dir /\
      forall r, tm' (bd ++ r) = ref (Path item ++ r)
  end ->
  good ref tm' (d ++ [(item, b)]).
Proof.
  intros Hg Htm Hin Hb item' b' H.
  apply in_app_or in H as [H | [[= <- <-] | []]]; [|auto].
  destruct (Hg _ _ H) as [H1 H2]. split; [assumption|].
  destruct b'; [assumption|].
  destruct H2 as [-> [Hd H2]]. split; [reflexivity|]. split; [assumption|].
  intros r. rewrite Htm; [apply H2|].
  apply in_map_iff. exists (item', BackupDir (backup_dir_of item')). auto.
Qed.

(** The snapshot loop leaves the working directory alone and records
    every item it finds. *)
Lemma snapshot_good items : forall d s d' s',
  incl items preserve_items -> NoDup items ->
  (forall x, In x items -> ~ In x (map fst d)) ->
  incl (map fst d) preserve_items ->
  NoDup (map fst d) ->
  good (live s) (tmp s) d ->
  snapshot items d s = (Ok d', s') ->
  live s' = live s /\ log s' = log s /\ stdin s' = stdin s /\
  NoDup (map fst d') /\ good (live s) (tmp s') d'.
Proof.
  induction items as [|item items IH]; intros d s d' s' Hincl Hnd Hfresh
    Hkeys Hndd Hg H.
  - injection H as <- <-. auto.
  - simpl in H. unfold bind at 1 in H. simpl in H.
    assert (Hin : In item preserve_items) by (apply Hincl; now left).
    assert (Hincl' : incl items preserve_items)
      by (intros x Hx; apply Hincl; now right).
    inversion Hnd as [|? ? Hni Hnd']; subst.
    assert (Hfr : ~ In item (map fst d)) by (apply Hfresh; now left).
    destruct (sane_item _ _ preserve_items_sane Hin) as [Hne _].
    assert (Hstep : forall b,
               (forall x, In x items -> ~ In x (map fst (dict_set item b d)))
               /\ incl (map fst (dict_set item b d)) preserve_items
               /\ NoDup (map fst (dict_set item b d))).
    { intros b. rewrite dict_set_fresh by assumption.
      rewrite map_app. simpl. repeat split.
      - intros x Hx Hc. apply in_app_or in Hc as [Hc | [<- | []]].
        + apply (Hfresh x); [now right | assumption].
        + contradiction.
      - intros x Hx. apply in_app_or in Hx as [Hx | [<- | []]]; auto.
      - apply NoDup_app; [assumption | repeat constructor; tauto |].
        intros x Hx [<- | []]. contradiction. }
    destruct (stat (live s) (Path item)) as [[data|]|] eqn:E.
    + destruct (Hstep (Bytes data)) as [F1 [F2 F3]].
      refine (IH _ _ _ _ Hincl' Hnd' F1 F2 F3 _ H).
      rewrite dict_set_fresh by assumption.
      apply good_snoc with (tm := tmp s); auto.
      rewrite <- stat_nonempty by assumption. exact E.
    + apply bind_Ok in H as [u [s1 [Hc H]]].
      unfold copytree, bind, gets, set_tmp, raise, id in Hc. simpl in Hc.
      destruct (exists_ (tmp s) (backup_dir_of item)); [discriminate|].
      injection Hc as _ <-.
      destruct (Hstep (BackupDir (backup_dir_of item))) as [F1 [F2 F3]].
      refine (IH _ _ _ _ Hincl' Hnd' F1 F2 F3 _ H).
      simpl. rewrite dict_set_fresh by assumption.
      apply good_snoc with (tm := tmp s); auto.
      * intros item' r Hi. unfold graft.
        rewrite backup_dir_apart; auto. congruence.
      * split; [reflexivity|]. split.
        { rewrite <- stat_nonempty by assumption. exact E. }
        intros r. unfold graft, subtree.
        now rewrite strip_prefix_app.
    + refine (IH _ _ _ _ Hincl' Hnd' _ Hkeys Hndd Hg H).
      intros x Hx. apply Hfresh. now right.
Qed.

End Snapshot.

Section Restore.
Variable ref : fs.

(** Creating the directories above a preserved item changes nothing at or
    below any preserved item. *)
Lemma mkdir_from_preserved p x item t t' :
  In item preserve_items -> x <> [] -> Path item = p ++ x ->
  mkdir_from [] p t = Ok t' ->
  forall item' r, In item' preserve_items ->
                  t' (Path item' ++ r) = t (Path item' ++ r).
Proof.
  intros Hin Hx Hp H item' r Hin'.
  eapply mkdir_from_frame; [exact H|].
  intros r1 r2 Hr1 -> E. simpl in E.
  assert (E' : Path item' ++ (r ++ r2 ++ x) = Path item ++ []).
  { rewrite app_nil_r, Hp, app_assoc, E, <- !app_assoc. reflexivity. }
  assert (item' = item) by (eapply items_nested; eauto).
  subst item'. apply app_inv_head in E'.
  apply app_eq_nil in E' as [_ E']. apply app_eq_nil in E' as [_ E'].
  contradiction.
Qed.

Lemma strip_prefix_refl (p : path) : strip_prefix p p = Some [].
Proof.
  rewrite <- (app_nil_r p) at 2. apply strip_prefix_app.
Qed.

Lemma parent_split (p : path) :
  p <> [] -> exists x, x <> [] /\ p = parent p ++ x.
Proof.
  intros Hp. exists [name p]. split; [discriminate|].
  unfold parent, name. now apply app_removelast_last.
Qed.

Lemma restore_bytes item data s s1 :
  In item preserve_items -> ref (Path item) = Some (File data) ->
  agree ref (live s) ->
  (mkdir_parents (parent (Path item)) ;; write_bytes (Path item) data) s
  = (Ok tt, s1) ->
  agree ref (live s1) /\ tmp s1 = tmp s.
Proof.
  intros Hin Href Hag H.
  destruct (sane_item _ _ preserve_items_sane Hin) as [Hne _].
  destruct (parent_split _ Hne) as [x [Hx Hp]].
  unfold mkdir_parents, write_bytes in H.
  apply bind_Ok in H as [u1 [s2 [H H2]]].
  apply bind_Ok in H as [u0 [s0 [H0 H]]].
  injection H0 as _ <-.
  apply lift_live_Ok in H as [t1 [Hm ->]]. simpl in Hm.
  apply bind_Ok in H2 as [u2 [s3 [H3 H2]]].
  injection H3 as _ <-.
  apply lift_live_Ok in H2 as [t2 [Hw ->]]. simpl in *.
  split; [|reflexivity].
  intros item' Hin' r.
  destruct (list_eq_dec string_dec (Path item' ++ r) (Path item))
    as [E|E].
  - rewrite E. rewrite (write_file_at _ _ _ _ Hw). now rewrite Href.
  - rewrite (write_file_frame _ _ _ _ _ Hw E).
    rewrite (mkdir_from_preserved _ _ _ _ _ Hin Hx Hp Hm _ _ Hin').
    now apply Hag.
Qed.

Lemma restore_dir item s u s1 :
  In item preserve_items ->
  (forall r, tmp s (backup_dir_of item ++ r) = ref (Path item ++ r)) ->
  agree ref (live s) ->
  (t <- gets live ;;
   (if exists_ t (Path item) then
      if is_file t (Path item) then unlink (Path item)
      else rmtree (Path item)
    else ret tt) ;;
   move (backup_dir_of item) (Path item)) s = (Ok u, s1) ->
  agree ref (live s1) /\ tmp s1 = prune (tmp s) (backup_dir_of item).
Proof.
  intros Hin Htm Hag H.
  destruct (sane_item _ _ preserve_items_sane Hin) as [Hne _].
  destruct (parent_split _ Hne) as [x [Hx Hp]].
  apply bind_Ok in H as [t [s0 [H0 H]]].
  injection H0 as <- <-.
  apply bind_Ok in H as [u1 [sr [Hr H]]].
  assert (R : tmp sr = tmp s /\ live sr (Path item) = None /\
              forall q, strip_prefix (Path item) q = None ->
                        live sr q = live s q).
  { destruct (exists_ (live s) (Path item)) eqn:Ex.
    - destruct (is_file (live s) (Path item)).
      + injection Hr as _ <-. simpl. repeat split.
        * apply upd_same.
        * intros q Hq. apply upd_other. intros ->.
          rewrite strip_prefix_refl in Hq. discriminate.
      + injection Hr as _ <-. simpl. unfold prune. repeat split.
        * now rewrite strip_prefix_refl.
        * intros q ->. reflexivity.
    - injection Hr as _ <-. repeat split.
      unfold exists_ in Ex. rewrite stat_nonempty in Ex by assumption.
      destruct (live s (Path item)); [discriminate | reflexivity]. }
  destruct R as [Rt [Rn Rf]].
  unfold move in H.
  apply bind_Ok in H as [u2 [s2 [H2 H]]]. injection H2 as _ <-.
  apply bind_Ok in H as [sg [s3 [H3 H]]]. injection H3 as <- <-.
  unfold id in H. simpl in H.
  assert (Hd : is_dir (live sr) (Path item) = false).
  { unfold is_dir. rewrite stat_nonempty by assumption. now rewrite Rn. }
  rewrite Hd in H.
  apply bind_Ok in H as [dst' [s4 [H4 H]]]. injection H4 as <- <-.
  unfold exists_ in H. rewrite stat_nonempty in H by assumption.
  rewrite Rn in H. simpl in H.
  apply bind_Ok in H as [u4 [s4 [H4 H]]].
  apply lift_live_Ok in H4 as [t4 [Hm ->]]. simpl in Hm.
  unfold bind, gets, set_live, set_tmp in H. simpl in H.
  injection H as _ <-. simpl.
  split; [| now rewrite Rt].
  intros item' Hin' r. unfold graft.
  destruct (String.eqb_spec item item') as [<-|Hneq].
  - rewrite strip_prefix_app. unfold subtree. rewrite Rt. apply Htm.
  - rewrite strip_prefix_apart by assumption.
    rewrite (mkdir_from_preserved _ _ _ _ _ Hin Hx Hp Hm _ _ Hin').
    rewrite Rf by (now apply strip_prefix_apart).
    now apply Hag.
Qed.

(** A restore that completes leaves every preserved item with the content
    recorded in the snapshots. *)
Lemma restore_agree d : forall s s',
  NoDup (map fst d) -> good ref (tmp s) d -> agree ref (live s) ->
  restore d s = (Ok tt, s') -> agree ref (live s').
Proof.
  induction d as [|[item b] d IH]; intros s s' Hnd Hg Hag H.
  - injection H as <-. assumption.
  - simpl in H. apply bind_Ok in H as [u [s1 [Hstep H]]].
    inversion Hnd as [|? ? Hni Hnd']; subst.
    destruct (Hg item b (or_introl eq_refl)) as [Hin Hb].
    assert (Hg' : forall tm',
               (forall item' r, In item' preserve_items -> item' <> item ->
                  tm' (backup_dir_of item' ++ r)
                  = tmp s (backup_dir_of item' ++ r)) ->
               good ref tm' d).
    { intros tm' Htm item' b' Hi.
      destruct (Hg item' b' (or_intror Hi)) as [Hin' Hb'].
      split; [assumption|]. destruct b'; [assumption|].
      destruct Hb' as [-> [Hd' Hb']]. split; [reflexivity|].
      split; [assumption|].
      intros r. rewrite Htm; auto.
      intros ->. apply Hni. apply in_map_iff.
      exists (item, BackupDir (backup_dir_of item)). auto. }
    destruct b as [data | bd].
    + destruct u. apply restore_bytes in Hstep as [Hag1 Ht1]; auto.
      apply (IH s1 s'); auto.
      apply Hg'. intros. now rewrite Ht1.
    + destruct Hb as [-> [_ Hb]].
      apply restore_dir in Hstep as [Hag1 Ht1]; auto.
      apply (IH s1 s'); auto.
      apply Hg'. intros item' r Hin' Hneq. rewrite Ht1. unfold prune.
      now rewrite backup_dir_apart by auto.
Qed.

End Restore.

(* ================================================================== *)
(** * Relations kept by the library calls and by the update *)

Section Quiet.
Variable R : state -> state -> Prop.
Hypothesis R_refl : forall s, R s s.
Hypothesis R_trans : forall a b c, R a b -> R b c -> R a c.
Hypothesis R_live :
  forall s t, R s (mkState t (tmp s) (stdin s) (log s)).
Hypothesis R_tmp :
  forall s t, R s (mkState (live s) t (stdin s) (log s)).
Hypothesis R_log :
  forall s e, is_print_or_call e ->
              R s (mkState (live s) (tmp s) (stdin s) (log s ++ [e])).

Let K {A} (c : M A) : Prop := keeps R c.

Ltac keeps_step :=
  cbv beta zeta;
  first
    [ apply (keeps_ret R R_refl)
    | apply (keeps_raise R R_refl)
    | apply (keeps_gets R R_refl)
    | apply (keeps_bind R R_trans); [| intro]
    | apply (keeps_try_except R R_trans); [| intro]
    | apply keeps_if ].

Lemma q_emit e : is_print_or_call e -> K (emit e).
Proof. intros He s. apply R_log, He. Qed.

Lemma q_lift_live f : K (lift_live f).
Proof.
  intros s. unfold lift_live.
  destruct (f (live s)); simpl; [apply R_live | apply R_refl].
Qed.

Lemma q_set_live t : K (set_live t).
Proof. intros s. apply R_live. Qed.

Lemma q_set_tmp t : K (set_tmp t).
Proof. intros s. apply R_tmp. Qed.

Lemma q_mkdir_parents p : K (mkdir_parents p).
Proof.
  unfold mkdir_parents. keeps_step; [now apply q_emit | apply q_lift_live].
Qed.

Lemma q_write_bytes p d : K (write_bytes p d).
Proof.
  unfold write_bytes. keeps_step; [now apply q_emit | apply q_lift_live].
Qed.

Lemma q_copy2_data n d p : K (copy2_data n d p).
Proof.
  unfold copy2_data. keeps_step; [now apply q_emit | apply q_lift_live].
Qed.

Lemma q_copy2 src dst : K (copy2 src dst).
Proof.
  unfold copy2. keeps_step; [keeps_step|].
  destruct (stat a src) as [[d|]|]; [apply q_copy2_data | |]; keeps_step.
Qed.

Lemma q_copytree src dst : K (copytree src dst).
Proof.
  unfold copytree. keeps_step; [keeps_step|].
  keeps_step; [keeps_step | apply q_set_tmp].
Qed.

Lemma q_unlink p : K (unlink p).
Proof.
  unfold unlink. keeps_step; [now apply q_emit|].
  keeps_step; [keeps_step | apply q_set_live].
Qed.

Lemma q_rmtree p : K (rmtree p).
Proof.
  unfold rmtree. keeps_step; [now apply q_emit|].
  keeps_step; [keeps_step | apply q_set_live].
Qed.

Lemma q_move src dst : K (move src dst).
Proof.
  unfold move. keeps_step; [now apply q_emit|].
  keeps_step; [keeps_step|].
  keeps_step.
  - keeps_step; [|keeps_step]. keeps_step; keeps_step.
  - keeps_step; [keeps_step|].
    keeps_step; [apply q_lift_live|].
    keeps_step; [keeps_step|].
    keeps_step; [apply q_set_live | apply q_set_tmp].
Qed.

Lemma q_snapshot items : forall d, K (snapshot items d).
Proof.
  induction items as [|item items IH]; intros d; simpl; [keeps_step|].
  keeps_step; [keeps_step|].
  destruct (stat a (Path item)) as [[data|]|]; [apply IH | | apply IH].
  keeps_step; [apply q_copytree | apply IH].
Qed.

Lemma q_copy_files items root files : forall n,
  K (copy_files items root files n).
Proof.
  induction files as [|[f data] files IH]; intros n; simpl; [keeps_step|].
  keeps_step; [apply IH|].
  keeps_step; [apply q_mkdir_parents|].
  keeps_step; [apply q_copy2_data | apply IH].
Qed.

Lemma q_merge items visits : forall n, K (merge items visits n).
Proof.
  induction visits as [|[root files] visits IH]; intros n; simpl;
    [keeps_step|].
  keeps_step; [apply q_copy_files | apply IH].
Qed.

Lemma q_restore d : K (restore d).
Proof.
  induction d as [|[item b] d IH]; simpl; [keeps_step|].
  keeps_step; [| apply IH].
  destruct b.
  - keeps_step; [apply q_mkdir_parents | apply q_write_bytes].
  - keeps_step; [keeps_step|].
    keeps_step; [| apply q_move].
    keeps_step; [|keeps_step].
    keeps_step; [apply q_unlink | apply q_rmtree].
Qed.

Lemma q_print_info m : K (print_info m).
Proof. now apply q_emit. Qed.
Lemma q_print_success m : K (print_success m).
Proof. now apply q_emit. Qed.
Lemma q_print_warning m : K (print_warning m).
Proof. now apply q_emit. Qed.
Lemma q_print_error m : K (print_error m).
Proof. now apply q_emit. Qed.

Lemma q_get_latest_commit_info w : K (get_latest_commit_info w).
Proof.
  unfold get_latest_commit_info. destruct (commit_info w); [keeps_step|].
  keeps_step; [apply q_print_warning | keeps_step].
Qed.

Lemma q_download_file w url : K (download_file w url).
Proof.
  unfold download_file. keeps_step.
  - keeps_step; [now apply q_emit | keeps_step].
  - keeps_step; [apply q_print_error | keeps_step].
Qed.

Lemma q_announce w : K (announce w).
Proof.
  unfold announce. keeps_step; [apply q_print_info|].
  keeps_step; [apply q_get_latest_commit_info|].
  keeps_step; [| apply q_set_tmp].
  destruct a0 as [[sha msg]|]; [apply q_print_info | keeps_step].
Qed.

Lemma q_prepare w : K (prepare w).
Proof.
  unfold prepare. keeps_step; [apply q_print_info|].
  keeps_step; [apply q_download_file|].
  keeps_step; [keeps_step|].
  keeps_step; [apply q_print_info|].
  keeps_step; [destruct (archive w); keeps_step|].
  destruct a2 as [|[nm source_dir] rest].
  - keeps_step; [apply q_print_error | keeps_step].
  - keeps_step; [apply q_snapshot|].
    keeps_step; keeps_step.
Qed.

Lemma q_apply_update w src d rc : K (apply_update w src d rc).
Proof.
  unfold apply_update. keeps_step; [apply q_print_info|].
  keeps_step; [apply q_merge|].
  keeps_step; [apply q_print_success|].
  keeps_step; [apply q_restore | keeps_step].
Qed.

Lemma q_update_via_zip w : K (update_via_zip w).
Proof.
  unfold update_via_zip. keeps_step; [apply q_announce|].
  apply (keeps_try_finally R R_trans); [| intros s; apply R_tmp].
  keeps_step.
  - keeps_step; [apply q_prepare|].
    destruct a0 as [r | [[src d] rc]]; [keeps_step | apply q_apply_update].
  - unfold on_exception. keeps_step; [apply q_print_error | keeps_step].
Qed.

End Quiet.

(* ================================================================== *)
(** * The stages of [update_via_zip] *)

Section Stages.

Lemma announce_run w s :
  exists evs,
    announce w s
    = (Ok tt, mkState (live s) empty_fs (stdin s) (log s ++ evs)) /\
    Forall is_notice evs.
Proof.
  unfold announce, get_latest_commit_info, bind, print_info, print_warning,
    emit, set_tmp, ret.
  destruct (commit_info w) as [[sha msg]|]; simpl;
    rewrite <- ?app_assoc; simpl;
    eexists; (split; [reflexivity | repeat constructor]).
Qed.

(** What [prepare] can hand over: [False] after a failed download or an
    empty extraction, and otherwise the first extracted entry with the
    snapshots taken from an untouched working directory. *)
Lemma prepare_inv w s x s' :
  prepare w s = (Ok x, s') ->
  (x = inl (RBool false) /\ live s' = live s /\
   (download_ok w = false \/ archive w = Some [])) \/
  (exists nm source_dir rest d s0,
      download_ok w = true /\
      archive w = Some ((nm, source_dir) :: rest) /\
      live s0 = live s /\ tmp s0 = tmp s /\ stdin s0 = stdin s /\
      snapshot (iter_order w) [] s0 = (Ok d, s') /\
      x = inr (source_dir, d, verdict (live s') source_dir)).
Proof.
  unfold prepare, download_file. intros H.
  apply bind_Ok in H as [u0 [s0 [H0 H]]]. injection H0 as _ <-.
  apply bind_Ok in H as [ok [s1 [H1 H]]].
  destruct (download_ok w) eqn:Hd.
  - injection H1 as <- <-. simpl in H.
    apply bind_Ok in H as [u2 [s2 [H2 H]]]. injection H2 as _ <-.
    apply bind_Ok in H as [ex [s3 [H3 H]]].
    destruct (archive w) as [entries|] eqn:Ha; [|discriminate].
    injection H3 as <- <-.
    destruct entries as [|[nm source_dir] rest].
    + injection H as <- <-. left. auto.
    + apply bind_Ok in H as [d [s4 [H4 H]]].
      injection H as <- <-.
      right. exists nm, source_dir, rest, d.
      match type of H4 with snapshot _ _ ?st = _ => exists st end.
      simpl. do 5 (split; [reflexivity|]). split; [exact H4|].
      reflexivity.
  - injection H1 as <- <-. simpl in H. injection H as <- <-.
    left. auto.
Qed.

Lemma merge_tmp items visits n s :
  tmp (snd (merge items visits n s)) = tmp s.
Proof.
  apply (q_merge (fun a b => tmp b = tmp a)); try reflexivity.
  intros a b c H1 H2. congruence.
Qed.

Lemma merge_agree items visits n s ref :
  Permutation items preserve_items ->
  agree ref (live s) -> agree ref (live (snd (merge items visits n s))).
Proof.
  intros Hperm Hag item Hin r.
  rewrite <- (Hag item Hin r).
  apply (merge_skip items (slash_ok_perm _ Hperm) visits n s).
  now apply skip_preserved.
Qed.

(** What [apply_update] does when it returns. *)
Lemma apply_update_inv w src d rc s r s' :
  apply_update w src d rc s = (Ok r, s') ->
  exists n sm,
    merge (iter_order w) (walk [] src) 0
          (mkState (live s) (tmp s) (stdin s)
                   (log s ++ [Print INFO "正在更新文件..."]))
    = (Ok n, sm) /\
    restore d (mkState (live sm) (tmp sm) (stdin sm)
                 (log sm ++ [Print SUCCESS
                               ("已更新 " ++ Str.of_nat n ++ " 个文件")%string]))
    = (Ok tt, s') /\
    r = RPair true rc.
Proof.
  unfold apply_update. intros H.
  apply bind_Ok in H as [u0 [s0 [H0 H]]]. injection H0 as _ <-.
  apply bind_Ok in H as [n [sm [Hm H]]].
  apply bind_Ok in H as [u1 [s1 [H1 H]]]. injection H1 as _ <-.
  apply bind_Ok in H as [[] [s2 [Hr H]]]. injection H as <- <-.
  eauto.
Qed.

(** What [update_via_zip] does when it reports success. *)
Lemma update_via_zip_success w s rc s' :
  update_via_zip w s = (Ok (RPair true rc), s') ->
  exists sa x sp sr,
    live sa = live s /\ tmp sa = empty_fs /\
    prepare w sa = (Ok x, sp) /\
    match x with
    | inl _ => False
    | inr (src, d, rc') => apply_update w src d rc' sp = (Ok (RPair true rc), sr)
    end /\
    s' = cleanup sr.
Proof.
  unfold update_via_zip. intros H.
  destruct (announce_run w s) as [evs [Ha _]].
  rewrite (bind_run _ _ _ _ _ Ha) in H.
  unfold try_finally, try_except in H.
  match type of H with
  | context [bind (prepare w) ?k ?st] =>
      destruct (bind (prepare w) k st) as [[r|e] sr] eqn:Hb
  end.
  - injection H as -> <-.
    apply bind_Ok in Hb as [x [sp [Hp Hx]]].
    exists (mkState (live s) empty_fs (stdin s) (log s ++ evs)), x, sp, sr.
    do 2 (split; [reflexivity|]). split; [exact Hp|].
    split; [|reflexivity].
    destruct x as [r | [[src d] rc']].
    + injection Hx as -> <-.
      apply prepare_inv in Hp as [[Hp _] | [? [? [? [? [? [_ [_ [_ [_ [_ [_ Hp]]]]]]]]]]]];
        discriminate.
    + exact Hx.
  - unfold on_exception, bind, print_error, emit, ret in H. simpl in H.
    discriminate.
Qed.

End Stages.

Section Preservation.

Lemma good_nil ref tm : good ref tm [].
Proof. intros item b []. Qed.

Lemma agree_refl t : agree t t.
Proof. intros item _ r. reflexivity. Qed.

Lemma perm_facts items :
  Permutation items preserve_items ->
  incl items preserve_items /\ NoDup items.
Proof.
  intros Hperm. split.
  - intros x Hx. eapply Permutation_in; eauto.
  - eapply Permutation_NoDup; [symmetry; exact Hperm|].
    repeat constructor; simpl; intuition discriminate.
Qed.

Lemma update_via_zip_preserves w s rc s' :
  Permutation (iter_order w) preserve_items ->
  update_via_zip w s = (Ok (RPair true rc), s') ->
  agree (live s) (live s').
Proof.
  intros Hperm H.
  destruct (perm_facts _ Hperm) as [Hincl Hnd].
  apply update_via_zip_success in H
    as [sa [x [sp [sr [Hla [Hta [Hp [Hx ->]]]]]]]].
  destruct x as [r | [[src d] rc']]; [contradiction|].
  apply prepare_inv in Hp as [[Hp _] | Hp]; [discriminate|].
  destruct Hp as [nm [src' [rest [d' [s0 [_ [_ [Hl0 [Ht0 [_ [Hsn E]]]]]]]]]]].
  injection E as -> -> _.
  apply snapshot_good in Hsn
    as [Hl [_ [_ [Hndd Hg]]]]; auto;
    [ | intros ? [] | constructor | apply good_nil ].
  apply apply_update_inv in Hx as [n [sm [Hm [Hr _]]]].
  simpl. rewrite <- Hla, <- Hl0.
  apply (restore_agree (live s0) d' _ _ Hndd) in Hr; [exact Hr | |]; simpl.
  - replace (tmp sm) with (tmp sp); [exact Hg|].
    pose proof (merge_tmp (iter_order w) (walk [] src') 0
                  (mkState (live sp) (tmp sp) (stdin sp)
                     (log sp ++ [Print INFO "正在更新文件..."]))) as T.
    rewrite Hm in T. simpl in T. now rewrite T.
  - pose proof (merge_agree (iter_order w) (walk [] src') 0
                  (mkState (live sp) (tmp sp) (stdin sp)
                     (log sp ++ [Print INFO "正在更新文件..."]))
                  (live s0) Hperm) as A.
    rewrite Hm in A. simpl in A. apply A. rewrite Hl. apply agree_refl.
Qed.

End Preservation.

(* ================================================================== *)
(** * Snapshot and restore on a well-formed working directory *)

Section Succeeds.

Lemma wf_ancestor t a : forall b,
  fs_wf t -> t (a ++ b) <> None -> b <> [] -> stat t a = Some Dir.
Proof.
  intros b. induction b as [|c b IH] using rev_ind; intros Hwf H Hb.
  - congruence.
  - rewrite app_assoc in H. apply Hwf in H.
    destruct b as [|c' b].
    + now rewrite app_nil_r in H.
    + apply IH; [assumption | | discriminate].
      destruct (a ++ c' :: b) eqn:E; [destruct a; discriminate|].
      simpl in H. congruence.
Qed.

Lemma mkdir_from_noop rest : forall pre t,
  (forall r1 r2, r1 <> [] -> rest = r1 ++ r2 -> t (pre ++ r1) = Some Dir) ->
  mkdir_from pre rest t = Ok t.
Proof.
  induction rest as [|c rest IH]; intros pre t H; simpl; [reflexivity|].
  rewrite (H [c] rest) by (discriminate || reflexivity).
  apply IH. intros r1 r2 Hr1 ->. rewrite <- app_assoc. simpl.
  apply (H (c :: r1) r2); [discriminate | reflexivity].
Qed.

(** In a well-formed store the directories above an existing path are
    all there. *)
Lemma mkdir_parent_noop t p :
  fs_wf t -> p <> [] -> t p <> None ->
  mkdir_from [] (parent p) t = Ok t.
Proof.
  intros Hwf Hp Hex. apply mkdir_from_noop.
  intros r1 r2 Hr1 E. simpl.
  destruct (parent_split p Hp) as [x [Hx Ep]].
  rewrite <- (stat_nonempty t r1) by assumption.
  apply wf_ancestor with (b := r2 ++ x); [assumption | |].
  - rewrite app_assoc, <- E, <- Ep. assumption.
  - destruct r2; [assumption | discriminate].
Qed.

Lemma stat_parent t p :
  fs_wf t -> p <> [] -> t p <> None -> stat t (parent p) = Some Dir.
Proof.
  intros Hwf Hp Hex.
  destruct (parent_split p Hp) as [x [Hx Ep]].
  apply wf_ancestor with (b := x); [assumption | | assumption].
  now rewrite <- Ep.
Qed.

Lemma restore_bytes_noop item data s :
  In item preserve_items -> fs_wf (live s) ->
  live s (Path item) = Some (File data) ->
  exists evs,
    (mkdir_parents (parent (Path item)) ;; write_bytes (Path item) data) s
    = (Ok tt, mkState (live s) (tmp s) (stdin s) (log s ++ evs)) /\
    Forall is_print_or_call evs.
Proof.
  intros Hin Hwf Hf.
  destruct (sane_item _ _ preserve_items_sane Hin) as [Hne _].
  assert (Hex : live s (Path item) <> None) by congruence.
  unfold mkdir_parents, write_bytes, bind, emit, lift_live. simpl.
  rewrite (mkdir_parent_noop _ _ Hwf Hne Hex). simpl.
  unfold write_file.
  rewrite (stat_nonempty _ _ Hne), Hf, (stat_parent _ _ Hwf Hne Hex).
  exists [Call (Mkdir (parent (Path item))); Call (WriteBytes (Path item))].
  split; [| repeat constructor].
  rewrite <- app_assoc. simpl. do 2 f_equal.
  apply functional_extensionality. intros q. unfold upd.
  destruct (path_eqb q (Path item)) eqn:E; [|reflexivity].
  apply path_eqb_eq in E. now subst q.
Qed.

Lemma restore_dir_noop item s :
  In item preserve_items -> fs_wf (live s) ->
  live s (Path item) = Some Dir ->
  (forall r, tmp s (backup_dir_of item ++ r) = live s (Path item ++ r)) ->
  exists evs,
    (t <- gets live ;;
     (if exists_ t (Path item) then
        if is_file t (Path item) then unlink (Path item)
        else rmtree (Path item)
      else ret tt) ;;
     move (backup_dir_of item) (Path item)) s
    = (Ok tt, mkState (live s) (prune (tmp s) (backup_dir_of item))
                (stdin s) (log s ++ evs)) /\
    Forall is_print_or_call evs.
Proof.
  intros Hin Hwf Hd Htm.
  destruct (sane_item _ _ preserve_items_sane Hin) as [Hne _].
  assert (Hex : live s (Path item) <> None) by congruence.
  unfold bind at 1. unfold gets at 1. cbv beta iota.
  unfold exists_, is_file. rewrite (stat_nonempty _ _ Hne), Hd. simpl.
  unfold rmtree, move, bind, emit, gets, set_live, set_tmp, raise, ret,
    lift_live, id. simpl.
  assert (Hp : prune (live s) (Path item) (Path item) = None).
  { unfold prune. now rewrite strip_prefix_refl. }
  unfold is_dir, exists_. rewrite !(stat_nonempty _ _ Hne), Hp.
  simpl. rewrite ?(stat_nonempty _ _ Hne), ?Hp. simpl.
  rewrite mkdir_from_noop.
  - simpl. exists [Call (Rmtree (Path item)); Call (Move (Path item))].
    split; [| repeat constructor].
    rewrite <- app_assoc. simpl. do 2 f_equal.
    apply functional_extensionality. intros q. unfold graft, prune, subtree.
    destruct (strip_prefix (Path item) q) as [r|] eqn:E; [|reflexivity].
    apply strip_prefix_Some in E. subst q. apply Htm.
  - intros r1 r2 Hr1 E. simpl. unfold prune.
    destruct (parent_split _ Hne) as [x [Hx Ep]].
    destruct (strip_prefix (Path item) r1) as [y|] eqn:Es.
    + exfalso. apply strip_prefix_Some in Es.
      apply (f_equal (@length _)) in Ep. rewrite E in Ep.
      subst r1. rewrite !List.length_app in Ep.
      destruct x; [congruence | simpl in Ep; lia].
    + rewrite <- (stat_nonempty (live s) r1) by assumption.
      apply wf_ancestor with (b := r2 ++ x); [assumption | |].
      * rewrite app_assoc, <- E, <- Ep. assumption.
      * destruct r2; [assumption | discriminate].
Qed.

(** On a well-formed working directory that still holds what was
    snapshotted, the restore loop completes and changes nothing. *)
Lemma restore_noop d : forall s,
  fs_wf (live s) -> NoDup (map fst d) -> good (live s) (tmp s) d ->
  exists evs tm,
    restore d s = (Ok tt, mkState (live s) tm (stdin s) (log s ++ evs)) /\
    Forall is_print_or_call evs.
Proof.
  induction d as [|[item b] d IH]; intros s Hwf Hnd Hg.
  - exists [], (tmp s). rewrite app_nil_r. destruct s. split; [reflexivity|].
    constructor.
  - inversion Hnd as [|? ? Hni Hnd']; subst.
    destruct (Hg item b (or_introl eq_refl)) as [Hin Hb].
    assert (Hg' : forall tm',
               (forall item' r, In item' preserve_items -> item' <> item ->
                  tm' (backup_dir_of item' ++ r)
                  = tmp s (backup_dir_of item' ++ r)) ->
               good (live s) tm' d).
    { intros tm' Htm item' b' Hi.
      destruct (Hg item' b' (or_intror Hi)) as [Hin' Hb'].
      split; [assumption|]. destruct b'; [assumption|].
      destruct Hb' as [-> [Hd' Hb']]. split; [reflexivity|].
      split; [assumption|].
      intros r. rewrite Htm; auto.
      intros ->. apply Hni. apply in_map_iff.
      exists (item, BackupDir (backup_dir_of item)). auto. }
    simpl. destruct b as [data | bd].
    + destruct (restore_bytes_noop item data s Hin Hwf Hb) as [evs [Hs Hev]].
      rewrite (bind_run _ _ _ _ _ Hs).
      destruct (IH (mkState (live s) (tmp s) (stdin s) (log s ++ evs)))
        as [evs' [tm [Hr Hev']]]; auto.
      exists (evs ++ evs'), tm. rewrite Hr. simpl. rewrite <- app_assoc.
      split; [reflexivity | now apply Forall_app].
    + destruct Hb as [-> [Hd Hb]].
      destruct (restore_dir_noop item s Hin Hwf Hd Hb) as [evs [Hs Hev]].
      rewrite (bind_run _ _ _ _ _ Hs).
      destruct (IH (mkState (live s) (prune (tmp s) (backup_dir_of item))
                      (stdin s) (log s ++ evs)))
        as [evs' [tm [Hr Hev']]]; auto.
      { simpl. apply Hg'. intros item' r Hin' Hneq. unfold prune.
        now rewrite backup_dir_apart by auto. }
      exists (evs ++ evs'), tm. rewrite Hr. simpl. rewrite <- app_assoc.
      split; [reflexivity | now apply Forall_app].
Qed.

(** From a temporary directory that holds only backups of the keys
    already in [d], the snapshot loop completes. *)
Lemma snapshot_completes items : forall d s,
  incl items preserve_items -> NoDup items ->
  (forall x, In x items -> ~ In x (map fst d)) ->
  incl (map fst d) preserve_items ->
  owned (tmp s) d ->
  exists d' s', snapshot items d s = (Ok d', s').
Proof.
  induction items as [|item items IH]; intros d s Hincl Hnd Hfresh Hkeys Hown.
  - exists d, s. reflexivity.
  - simpl. unfold bind at 1. unfold gets at 1. cbv beta iota.
    assert (Hin : In item preserve_items) by (apply Hincl; now left).
    assert (Hincl' : incl items preserve_items)
      by (intros x Hx; apply Hincl; now right).
    inversion Hnd as [|? ? Hni Hnd']; subst.
    assert (Hfr : ~ In item (map fst d)) by (apply Hfresh; now left).
    assert (Hstep : forall b,
               (forall x, In x items -> ~ In x (map fst (dict_set item b d)))
               /\ incl (map fst (dict_set item b d)) preserve_items
               /\ (forall tm, owned tm d -> owned tm (dict_set item b d))).
    { intros b. rewrite dict_set_fresh by assumption.
      rewrite map_app. simpl. repeat split.
      - intros x Hx Hc. apply in_app_or in Hc as [Hc | [<- | []]].
        + apply (Hfresh x); [now right | assumption].
        + contradiction.
      - intros x Hx. apply in_app_or in Hx as [Hx | [<- | []]]; auto.
      - intros tm Ho q Hq. destruct (Ho q Hq) as [i [r [Hi Hr]]].
        exists i, r.
        split; [rewrite map_app; apply in_or_app; now left | assumption]. }
    destruct (stat (live s) (Path item)) as [[data|]|] eqn:E.
    + destruct (Hstep (Bytes data)) as [F1 [F2 F3]]. apply IH; auto.
    + destruct (Hstep (BackupDir (backup_dir_of item))) as [F1 [F2 F3]].
      assert (Hnew : exists_ (tmp s) (backup_dir_of item) = false).
      { unfold exists_, stat. simpl.
        destruct (tmp s (backup_dir_of item)) eqn:Et; [|reflexivity].
        exfalso. destruct (Hown (backup_dir_of item)) as [i [r [Hi Hr]]];
          [unfold backup_dir_of in *; congruence|].
        assert (Hne : i <> item) by congruence.
        pose proof (backup_dir_apart i item [] (Hkeys i Hi) Hin Hne) as Hn.
        rewrite app_nil_r, Hr, strip_prefix_app in Hn. discriminate. }
      unfold copytree, bind, gets, set_tmp, raise, id. simpl.
      simpl in Hnew. rewrite Hnew.
      match goal with
      | |- exists d' s', snapshot _ _ ?st = _ =>
          destruct (IH (dict_set item (BackupDir (backup_dir_of item)) d) st)
            as [d' [s' Hs]]; auto
      end.
      * simpl. rewrite dict_set_fresh by assumption.
        intros q Hq. unfold graft in Hq.
        destruct (strip_prefix (backup_dir_of item) q) as [r|] eqn:Es.
        -- apply strip_prefix_Some in Es. exists item, r.
           split; [rewrite map_app; apply in_or_app; right; now left
                  | assumption].
        -- destruct (Hown q Hq) as [i [r [Hi Hr]]]. exists i, r.
           split; [rewrite map_app; apply in_or_app; now left | assumption].
      * eauto.
    + apply IH; auto. intros x Hx. apply Hfresh. now right.
Qed.

End Succeeds.

(* ================================================================== *)
(** * Runs of [prepare] and [update_via_zip] *)

Section Runs.

Lemma announced_spec w s :
  announce w s = (Ok tt, announced w s) /\
  live (announced w s) = live s /\ tmp (announced w s) = empty_fs /\
  stdin (announced w s) = stdin s /\
  exists evs, log (announced w s) = log s ++ evs /\
              Forall is_notice evs.
Proof.
  unfold announced. destruct (announce_run w s) as [evs [-> Hev]].
  simpl. eauto 10.
Qed.

Lemma update_via_zip_unfold w s :
  update_via_zip w s
  = try_finally (try_except (body w) on_exception) cleanup (announced w s).
Proof.
  unfold update_via_zip.
  destruct (announced_spec w s) as [Ha _].
  now rewrite (bind_run _ _ _ _ _ Ha).
Qed.

Lemma prepare_download_failed w s :
  download_ok w = false ->
  prepare w s
  = (Ok (inl (RBool false)),
     mkState (live s) (tmp s) (stdin s)
       (log s ++ [Print INFO "正在下载最新代码..."; Print ERROR "下载失败"])).
Proof.
  intros Hd. unfold prepare, download_file, bind, print_info, print_error,
    emit, ret. simpl. rewrite Hd. simpl.
  now rewrite <- app_assoc.
Qed.

Lemma prepare_empty w s :
  download_ok w = true -> archive w = Some [] ->
  prepare w s
  = (Ok (inl (RBool false)),
     mkState (live s) (tmp s) (stdin s)
       (log (fetched s) ++ [Print ERROR "解压后未找到文件"])).
Proof.
  intros Hd Ha. unfold prepare, download_file, bind, print_info, print_error,
    emit, ret. simpl. rewrite Hd. simpl. rewrite Ha. simpl.
  now rewrite <- !app_assoc.
Qed.

Lemma prepare_snapshot w s nm src rest :
  download_ok w = true -> archive w = Some ((nm, src) :: rest) ->
  prepare w s
  = match snapshot (iter_order w) [] (fetched s) with
    | (Ok d, sp) => (Ok (inr (src, d, verdict (live sp) src)), sp)
    | (Raise e, sp) => (Raise e, sp)
    end.
Proof.
  intros Hd Ha. unfold prepare, download_file, bind, print_info,
    emit, ret, gets. simpl. rewrite Hd. simpl. rewrite Ha. simpl.
  unfold fetched. rewrite <- !app_assoc. simpl.
  destruct (snapshot _ _ _) as [[d|e] sp]; reflexivity.
Qed.

Lemma snapshot_from_empty w s :
  Permutation (iter_order w) preserve_items -> tmp s = empty_fs ->
  exists d sp,
    snapshot (iter_order w) [] s = (Ok d, sp) /\
    live sp = live s /\ log sp = log s /\ stdin sp = stdin s /\
    NoDup (map fst d) /\ good (live s) (tmp sp) d.
Proof.
  intros Hperm Ht.
  destruct (perm_facts _ Hperm) as [Hincl Hnd].
  assert (Hfresh : forall x, In x (iter_order w) -> ~ In x (map fst (@nil (string * backup)))).
  { intros x _ []. }
  assert (Hkeys : incl (map fst (@nil (string * backup))) preserve_items).
  { intros x []. }
  destruct (snapshot_completes (iter_order w) [] s Hincl Hnd Hfresh Hkeys)
    as [d [sp Hs]].
  { intros q Hq. rewrite Ht in Hq. now contradiction Hq. }
  exists d, sp. split; [assumption|].
  apply (snapshot_good (iter_order w) [] s d sp Hincl Hnd Hfresh Hkeys);
    [constructor | apply good_nil | assumption].
Qed.

End Runs.

(* ================================================================== *)
(** * Stores given by a list *)

Section Listed.

Lemma fs_of_list_In l : forall q e,
  fs_of_list l q = Some e -> In (q, e) l.
Proof.
  induction l as [|[p e'] l IH]; intros q e H; simpl in H.
  - discriminate.
  - destruct (path_eqb q p) eqn:E.
    + apply path_eqb_eq in E. injection H as <-. subst. now left.
    + right. auto.
Qed.

Lemma wf_list_sound l : wf_list l = true -> fs_wf (fs_of_list l).
Proof.
  intros H p c Hex.
  destruct (fs_of_list l (p ++ [c])) as [e|] eqn:E; [|congruence].
  apply fs_of_list_In in E.
  unfold wf_list in H. rewrite forallb_forall in H.
  specialize (H _ E). simpl in H. rewrite parent_snoc in H.
  destruct (stat (fs_of_list l) p) as [[d|]|]; congruence.
Qed.

End Listed.

(* ================================================================== *)
(** * C10: a regular file as the first extracted entry *)

(** C10. When the archive arrives and the first entry listed in the
    extraction directory is a regular file, the walk over it visits
    nothing: on a well-formed working directory [update_via_zip] prints
    that 0 files were updated, returns [(True, False)] and leaves the
    working directory as it was. *)
Theorem file_as_source_updates_nothing
    (w : world) (s : state) (nm : string) (data : list byte)
    (rest : list (string * node)) :
  Permutation (iter_order w) preserve_items ->
  fs_wf (live s) ->
  download_ok w = true ->
  archive w = Some ((nm, FileN data) :: rest) ->
  walk [] (FileN data) = [] /\
  exists s',
    update_via_zip w s = (Ok (RPair true false), s') /\
    live s' = live s /\
    In (Print SUCCESS "已更新 0 个文件") (log s').
Proof.
  intros Hperm Hwf Hd Ha. split; [reflexivity|].
  rewrite update_via_zip_unfold.
  destruct (announced_spec w s) as [_ [Hl [Ht [_ _]]]].
  set (sa := announced w s) in *.
  destruct (snapshot_from_empty w (fetched sa) Hperm Ht)
    as [d [sp [Hs [Hlp [Hgp [_ [Hnd Hg]]]]]]].
  unfold try_finally, try_except, body.
  rewrite (bind_run _ _ _ _ _
             (eq_trans (prepare_snapshot w sa nm _ rest Hd Ha)
                       ltac:(rewrite Hs; reflexivity))).
  unfold apply_update. simpl walk. unfold merge.
  unfold bind at 1. unfold print_info at 1, emit at 1. cbv beta iota.
  unfold bind at 1. unfold ret at 1. cbv beta iota.
  unfold bind at 1. unfold print_success at 1, emit at 1. cbv beta iota.
  match goal with
  | |- context [bind (restore d) _ ?st] =>
      destruct (restore_noop d st) as [evs [tm [Hr Hev]]]
  end.
  { simpl. rewrite Hlp. simpl. rewrite Hl. exact Hwf. }
  { exact Hnd. }
  { simpl. rewrite Hlp. exact Hg. }
  simpl in Hr. rewrite (bind_run _ _ _ _ _ Hr). unfold ret. cbv beta iota.
  assert (Hv : verdict (live sp) (FileN data) = false)
    by (unfold verdict; simpl; now rewrite andb_false_r).
  rewrite Hv.
  eexists. split; [reflexivity|]. simpl.
  split; [rewrite Hlp; exact Hl|].
  apply in_or_app. left. apply in_or_app. right. now left.
Qed.

Lemma file_as_source_witness :
  walk [] (FileN (bytes_of "readme")) = [] /\
  exists s',
    update_via_zip Demo.flat (start Demo.tree []) = (Ok (RPair true false), s') /\
    live s' = live (start Demo.tree []) /\
    In (Print SUCCESS "已更新 0 个文件") (log s').
Proof.
  apply (file_as_source_updates_nothing Demo.flat (start Demo.tree [])
           "README.md" (bytes_of "readme")
           [("app.py", FileN (bytes_of "print(2)"))]).
  - apply Permutation_refl.
  - apply wf_list_sound. vm_compute. reflexivity.
  - reflexivity.
  - reflexivity.
Defined.

(* ================================================================== *)
(** * C7: an extraction that leaves nothing *)

Section EmptyExtraction.

Lemma update_via_zip_empty w s :
  download_ok w = true -> archive w = Some [] ->
  update_via_zip w s
  = (Ok (RBool false),
     mkState (live s) empty_fs (stdin s)
       (log (fetched (announced w s)) ++ [Print ERROR "解压后未找到文件"])).
Proof.
  intros Hd Ha. rewrite update_via_zip_unfold.
  destruct (announced_spec w s) as [_ [Hl [_ [Hi _]]]].
  unfold try_finally, try_except, body.
  rewrite (bind_run _ _ _ _ _ (prepare_empty w _ Hd Ha)).
  unfold ret, cleanup. simpl. now rewrite Hl, Hi.
Qed.

End EmptyExtraction.

(** C7. When the archive arrives and its extraction leaves the target
    directory empty, [update_via_zip] prints the error about the missing
    files and returns [False]; it prints no success message, leaves the
    working directory as it was, and [main], which cannot unpack [False],
    ends in an exception rather than in its success report. *)
Theorem empty_extraction_is_failure (w : world) (s : state) :
  download_ok w = true ->
  archive w = Some [] ->
  exists s',
    update_via_zip w s = (Ok (RBool false), s') /\
    live s' = live s /\
    In (Print ERROR "解压后未找到文件") (log s') /\
    (forall msg, In (Print SUCCESS msg) (log s') ->
                 In (Print SUCCESS msg) (log s)) /\
    (forall backup_path,
        update_and_report w backup_path s = (Raise TypeError, s')).
Proof.
  intros Hd Ha. eexists. split; [apply update_via_zip_empty; assumption|].
  split; [reflexivity|]. split; [|split].
  - simpl. apply in_or_app. right. now left.
  - intros msg H. simpl in H.
    destruct (announced_spec w s) as [_ [_ [_ [_ [evs [Hl Hev]]]]]].
    rewrite Hl in H.
    repeat (apply in_app_or in H as [H | H]); try assumption.
    + exfalso. rewrite Forall_forall in Hev. specialize (Hev _ H).
      exact Hev.
    + simpl in H. intuition discriminate.
    + simpl in H. intuition discriminate.
  - intros bp. unfold update_and_report.
    rewrite (bind_run _ _ _ _ _ (update_via_zip_empty w s Hd Ha)).
    reflexivity.
Qed.

Lemma empty_extraction_witness :
  exists s',
    update_via_zip Demo.empty_zip (start Demo.tree ["y"])
    = (Ok (RBool false), s') /\
    live s' = live (start Demo.tree ["y"]) /\
    In (Print ERROR "解压后未找到文件") (log s') /\
    (forall msg, In (Print SUCCESS msg) (log s') ->
                 In (Print SUCCESS msg) (log (start Demo.tree ["y"]))) /\
    (forall backup_path,
        update_and_report Demo.empty_zip backup_path (start Demo.tree ["y"])
        = (Raise TypeError, s')).
Proof.
  apply (empty_extraction_is_failure Demo.empty_zip (start Demo.tree ["y"]));
    reflexivity.
Defined.

Lemma run_eq {A} (c : M A) (s : state) (r : outcome A) :
  fst (c s) = r -> c s = (r, snd (c s)).
Proof. destruct (c s). simpl. now intros ->. Qed.

(* ================================================================== *)
(** * C2: preserved paths across a successful update *)

(** C2. After a run of [update_via_zip] that returns success, what the
    working directory holds at and below every preserved item is what it
    held before the run, whatever the merge source contains; and the merge
    loop on its own, on any source and from any state, complete or
    interrupted, writes nothing at or below a preserved item. *)
Theorem preserved_paths_survive_update
    (w : world) (s s' : state) (rc : bool) (item : string) :
  Permutation (iter_order w) preserve_items ->
  update_via_zip w s = (Ok (RPair true rc), s') ->
  In item preserve_items ->
  (forall r, live s' (Path item ++ r) = live s (Path item ++ r)) /\
  (forall visits n s0 r,
      live (snd (merge (iter_order w) visits n s0)) (Path item ++ r)
      = live s0 (Path item ++ r)).
Proof.
  intros Hperm Hrun Hin. split.
  - intros r. exact (update_via_zip_preserves w s rc s' Hperm Hrun item Hin r).
  - intros visits n s0 r.
    exact (merge_agree (iter_order w) visits n s0 (live s0) Hperm
             (agree_refl _) item Hin r).
Qed.

Lemma preserved_paths_witness :
  (forall r,
      live (snd (update_via_zip Demo.net (start Demo.tree [])))
           (Path "config/config.yaml" ++ r)
      = live (start Demo.tree []) (Path "config/config.yaml" ++ r)) /\
  (forall visits n s0 r,
      live (snd (merge (iter_order Demo.net) visits n s0))
           (Path "config/config.yaml" ++ r)
      = live s0 (Path "config/config.yaml" ++ r)).
Proof.
  apply (preserved_paths_survive_update Demo.net (start Demo.tree [])
           (snd (update_via_zip Demo.net (start Demo.tree []))) false
           "config/config.yaml").
  - apply Permutation_refl.
  - apply run_eq. vm_compute. reflexivity.
  - simpl. auto.
Defined.

(* ================================================================== *)
(** * C9: the exclusion test is a test on strings *)

(** C9. A source file is skipped exactly when the string of its relative
    path starts with the text of some preserved item.  Such a file costs
    the loop nothing but the test: it is not copied and not counted, and
    no run of the merge, on any source, changes what the working directory
    has at its path.  [logs.txt] and [config/config.yaml.example] are
    skipped in this way although neither is a preserved path or lies
    inside one. *)
Theorem prefix_match_skips_file
    (items : list string) (preserve : string) (target_root : path)
    (file : string) (data : list byte) (files : list (string * list byte))
    (files_updated : nat) (s : state) :
  Permutation items preserve_items ->
  In preserve items ->
  Str.startswith (str (target_root ++ [file])) preserve = true ->
  skip items (target_root ++ [file]) = true /\
  copy_files items target_root ((file, data) :: files) files_updated s
  = copy_files items target_root files files_updated s /\
  (forall visits n s0,
      live (snd (merge items visits n s0)) (target_root ++ [file])
      = live s0 (target_root ++ [file])) /\
  skip items (Path "logs.txt") = true /\
  skip items (Path "config/config.yaml.example") = true /\
  forallb (fun item =>
             negb (is_some (strip_prefix (Path item) (Path "logs.txt")))
             && negb (is_some (strip_prefix (Path item)
                                 (Path "config/config.yaml.example"))))
          preserve_items = true.
Proof.
  intros Hperm Hin Hpre.
  assert (Hskip : skip items (target_root ++ [file]) = true).
  { apply skip_spec. exists preserve. auto. }
  assert (Hmem : forall x, In x preserve_items -> In x items).
  { intros x Hx. eapply Permutation_in; [symmetry; exact Hperm | exact Hx]. }
  split; [exact Hskip|]. split; [simpl; now rewrite Hskip|].
  split.
  { intros visits n s0.
    now apply (merge_skip items (slash_ok_perm _ Hperm) visits n s0). }
  split.
  { apply skip_spec. exists "logs". split; [|reflexivity].
    apply Hmem. simpl. auto. }
  split; [|reflexivity].
  apply skip_spec. exists "config/config.yaml". split; [|reflexivity].
  apply Hmem. simpl. auto.
Qed.

Lemma prefix_match_witness :
  skip preserve_items ([] ++ ["logs.txt"]) = true /\
  copy_files preserve_items [] [("logs.txt", bytes_of "notes")] 0
             (start Demo.tree [])
  = copy_files preserve_items [] [] 0 (start Demo.tree []) /\
  (forall visits n s0,
      live (snd (merge preserve_items visits n s0)) ([] ++ ["logs.txt"])
      = live s0 ([] ++ ["logs.txt"])) /\
  skip preserve_items (Path "logs.txt") = true /\
  skip preserve_items (Path "config/config.yaml.example") = true /\
  forallb (fun item =>
             negb (is_some (strip_prefix (Path item) (Path "logs.txt")))
             && negb (is_some (strip_prefix (Path item)
                                 (Path "config/config.yaml.example"))))
          preserve_items = true.
Proof.
  apply (prefix_match_skips_file preserve_items "logs" [] "logs.txt"
           (bytes_of "notes") [] 0 (start Demo.tree [])).
  - apply Permutation_refl.
  - simpl. auto.
  - reflexivity.
Defined.

(* ================================================================== *)
(** * C3: a merge that raises partway *)

Section MergeRaises.

Lemma update_via_zip_merge_raises w s src d rc sm e s2 :
  merging w s = Some (src, d, rc, sm) ->
  merge (iter_order w) (walk [] src) 0 sm = (Raise e, s2) ->
  update_via_zip w s
  = (Ok (RPair false false),
     mkState (live s2) empty_fs (stdin s2)
       (log s2 ++ [Print ERROR ("ZIP 更新过程中出错: " ++ exn_text e)%string])).
Proof.
  unfold merging. intros Hm Hr.
  rewrite update_via_zip_unfold.
  unfold try_finally, try_except, body.
  destruct (prepare w (announced w s)) as [[[r | [[src' d'] rc']] | e'] sp]
    eqn:Hp; try discriminate.
  injection Hm as <- <- <- <-.
  rewrite (bind_run _ _ _ _ _ Hp).
  unfold apply_update.
  unfold bind at 1. unfold print_info at 1, emit at 1. cbv beta iota.
  rewrite (bind_run_raise _ _ _ _ _ Hr).
  reflexivity.
Qed.

Lemma merging_live w s src d rc sm :
  Permutation (iter_order w) preserve_items ->
  merging w s = Some (src, d, rc, sm) -> live sm = live s.
Proof.
  unfold merging. intros Hperm Hm.
  destruct (prepare w (announced w s)) as [[[r | [[src' d'] rc']] | e'] sp]
    eqn:Hp; try discriminate.
  injection Hm as <- <- <- <-. simpl.
  apply prepare_inv in Hp as [[Hp _] | Hp]; [discriminate|].
  destruct Hp as [nm [src2 [rest [d2 [s0 [_ [_ [Hl0 [Ht0 [_ [Hsn E]]]]]]]]]]].
  destruct (announced_spec w s) as [_ [Hl [Ht _]]].
  destruct (perm_facts _ Hperm) as [Hincl Hnd].
  apply snapshot_good in Hsn as [Hls _]; auto.
  - congruence.
  - intros ? [].
  - constructor.
  - apply good_nil.
Qed.

End MergeRaises.

(** C3, as the code has it.  When the merge loop of a run raises, the
    exception handler of [update_via_zip] takes over: the only things that
    happen after the raise are the error print and the removal of the
    temporary directory, so the restore loop does not run and the function
    returns [(False, False)].  The preserved items nevertheless hold what
    they held before the run, because the merge never writes to them. *)
Theorem merge_failure_returns_without_restore
    (w : world) (s : state) (source_dir : node) (preserve_backup : dict)
    (requirements_changed : bool) (sm : state) (e : exn) (s2 : state) :
  Permutation (iter_order w) preserve_items ->
  merging w s
  = Some (source_dir, preserve_backup, requirements_changed, sm) ->
  merge (iter_order w) (walk [] source_dir) 0 sm = (Raise e, s2) ->
  update_via_zip w s
  = (Ok (RPair false false),
     mkState (live s2) empty_fs (stdin s2)
       (log s2 ++ [Print ERROR ("ZIP 更新过程中出错: " ++ exn_text e)%string]))
  /\ agree (live s) (live s2).
Proof.
  intros Hperm Hm Hr. split.
  - eapply update_via_zip_merge_raises; eauto.
  - pose proof (merge_agree (iter_order w) (walk [] source_dir) 0 sm
                  (live s) Hperm) as A.
    rewrite Hr in A. simpl in A. apply A.
    rewrite (merging_live _ _ _ _ _ _ Hperm Hm). apply agree_refl.
Qed.

Lemma merge_failure_witness :
  exists s2,
    update_via_zip Demo.net_docs (start Demo.tree_docs [])
    = (Ok (RPair false false),
       mkState (live s2) empty_fs (stdin s2)
         (log s2 ++ [Print ERROR "ZIP 更新过程中出错: FileExistsError"]))
    /\ agree (live (start Demo.tree_docs [])) (live s2).
Proof.
  eexists.
  eapply (merge_failure_returns_without_restore Demo.net_docs
            (start Demo.tree_docs []) _ _ _ _ FileExistsError).
  - apply Permutation_refl.
  - lazy. reflexivity.
  - apply run_eq. lazy. reflexivity.
Defined.

(** C3 as stated fails: in this run the working directory has a file
    [docs] where the release has a directory.  The merge copies [app.py],
    then raises on [docs]; two snapshots had been taken, and no call of the
    restore loop follows. *)
Lemma merge_failure_restore_not_run :
  match merging Demo.net_docs (start Demo.tree_docs []) with
  | Some (source_dir, preserve_backup, _, sm) =>
      map fst preserve_backup = ["config/config.yaml"; "logs"] /\
      fst (merge (iter_order Demo.net_docs) (walk [] source_dir) 0 sm)
      = Raise FileExistsError /\
      calls (log (snd (merge (iter_order Demo.net_docs)
                             (walk [] source_dir) 0 sm)))
      = [Mkdir []; Copy2 ["app.py"]; Mkdir ["docs"]]
  | None => False
  end /\
  fst (update_via_zip Demo.net_docs (start Demo.tree_docs []))
  = Ok (RPair false false) /\
  filter is_restore_call
         (calls (log (snd (update_via_zip Demo.net_docs
                                          (start Demo.tree_docs [])))))
  = [].
Proof.
  vm_compute. repeat split; reflexivity.
Qed.

Section QuietMain.
Variable R : state -> state -> Prop.
Hypothesis R_refl : forall s, R s s.
Hypothesis R_trans : forall a b c, R a b -> R b c -> R a c.
Hypothesis R_live :
  forall s t, R s (mkState t (tmp s) (stdin s) (log s)).
Hypothesis R_log :
  forall s e, is_print_or_call e ->
              R s (mkState (live s) (tmp s) (stdin s) (log s ++ [e])).

Let K {A} (c : M A) : Prop := keeps R c.

Ltac keeps_step :=
  cbv beta zeta;
  first
    [ apply (keeps_ret R R_refl)
    | apply (keeps_raise R R_refl)
    | apply (keeps_gets R R_refl)
    | apply (keeps_bind R R_trans); [| intro]
    | apply (keeps_try_except R R_trans); [| intro]
    | apply keeps_if ].

Lemma q_backup_config w : K (backup_config w).
Proof.
  unfold backup_config. keeps_step; [keeps_step|].
  keeps_step; [|keeps_step].
  keeps_step; [now apply q_copy2|].
  keeps_step; [now apply q_print_info | keeps_step].
Qed.

Lemma q_restore_config bp : K (restore_config bp).
Proof.
  unfold restore_config. destruct bp as [p|]; [|keeps_step].
  keeps_step; [keeps_step|].
  keeps_step; [|keeps_step].
  keeps_step; [now apply q_copy2 | now apply q_print_info].
Qed.

Lemma keeps_bind_ret {A B} (a : A) (k : A -> M B) :
  K (k a) -> K (bind (ret a) k).
Proof. intros H s. exact (H s). Qed.

(** Unless the update succeeded with changed requirements, the report
    asks nothing. *)
Lemma q_report w bp r : r <> RPair true true -> K (report w bp r).
Proof.
  intros Hr. unfold report, unpack2.
  destruct r as [b | [|] [|]]; try congruence.
  - intros s. apply R_refl.
  - apply keeps_bind_ret. cbv beta iota zeta.
    keeps_step; [keeps_step|].
    keeps_step; [now apply q_print_success|].
    keeps_step; [now apply q_print_info|].
    keeps_step; [now apply q_print_info|].
    keeps_step; now apply q_print_info.
  - apply keeps_bind_ret. cbv beta iota zeta.
    keeps_step; [| now apply q_print_error].
    destruct bp; [now apply q_restore_config | keeps_step].
  - apply keeps_bind_ret. cbv beta iota zeta.
    keeps_step; [| now apply q_print_error].
    destruct bp; [now apply q_restore_config | keeps_step].
Qed.

End QuietMain.

(* ================================================================== *)
(** * A run that the operator declines *)

Section Declined.
Variable R : state -> state -> Prop.
Hypothesis R_refl : forall s, R s s.
Hypothesis R_trans : forall a b c, R a b -> R b c -> R a c.
Hypothesis R_log :
  forall s e, R s (mkState (live s) (tmp s) (stdin s) (log s ++ [e])).
Hypothesis R_stdin :
  forall s l, R s (mkState (live s) (tmp s) l (log s)).

Lemma backup_config_stdin w s :
  stdin (snd (backup_config w s)) = stdin s.
Proof.
  apply (q_backup_config (fun a b => stdin b = stdin a)); try reflexivity.
  intros a b c H1 H2. congruence.
Qed.

Lemma R_logs s evs :
  R s (mkState (live s) (tmp s) (stdin s) (log s ++ evs)).
Proof.
  revert s. induction evs as [|e evs IH]; intros s.
  - rewrite app_nil_r. destruct s. apply R_refl.
  - eapply R_trans; [apply (R_log s e)|].
    specialize (IH (mkState (live s) (tmp s) (stdin s) (log s ++ [e]))).
    simpl in IH. rewrite <- app_assoc in IH. exact IH.
Qed.

Lemma R_after s l evs :
  R s (mkState (live s) (tmp s) l (log s ++ evs)).
Proof.
  eapply R_trans; [apply (R_logs s evs)|].
  apply (R_stdin (mkState (live s) (tmp s) (stdin s) (log s ++ evs)) l).
Qed.

(** When the operator declines, the whole run is the banner, the
    configuration backup and prints. *)
Lemma script_declined w s :
  declines s ->
  R (greeted s) (snd (backup_config w (greeted s))) ->
  R s (snd (script w s)).
Proof.
  intros Hdec Hb.
  assert (R0 : R s (greeted s)) by apply R_log.
  pose proof (backup_config_stdin w (greeted s)) as Hin.
  assert (E : script w s
              = match backup_config w (greeted s) with
                | (Ok bp, s1) => exit_with (ask_and_update w bp s1)
                | (Raise e, s1) => exit_with (Raise e, s1)
                end).
  { unfold script, main.
    unfold bind at 1. unfold emit at 1. cbv beta iota. fold (greeted s).
    unfold bind at 1.
    destruct (backup_config w (greeted s)) as [[bp|e] s1]; reflexivity. }
  rewrite E. clear E.
  destruct (backup_config w (greeted s)) as [[bp|e] s1]; simpl in Hb, Hin.
  - assert (R1 : R s s1) by (eapply R_trans; eauto).
    unfold declines in Hdec. rewrite <- Hin in Hdec.
    unfold exit_with, ask_and_update, get_latest_commit_info, input, bind,
      print_info, print_warning, emit, ret.
    destruct (commit_info w) as [[sha msg]|]; simpl;
      destruct (stdin s1) as [|response rest]; simpl;
      rewrite ?Hdec; simpl; rewrite <- ?app_assoc; simpl;
      (eapply R_trans; [exact R1 | apply (R_after s1)]).
  - simpl. eapply R_trans; [exact R0|]. eapply R_trans; [exact Hb|].
    apply R_log.
Qed.

End Declined.

(* ================================================================== *)
(** * C4: a declined run *)

Section DeclinedRun.

Lemma backup_config_frame w :
  keeps (same_on (fun q => q <> backup_dst w /\
                           q <> backup_dst w ++ ["config.yaml"]))
        (backup_config w).
Proof.
  set (prot := fun q => q <> backup_dst w /\
                        q <> backup_dst w ++ ["config.yaml"]).
  assert (Ht : forall a b c, same_on prot a b -> same_on prot b c ->
                             same_on prot a c)
    by apply same_on_trans.
  assert (Hr : forall a, same_on prot a a) by apply same_on_refl.
  unfold backup_config. fold (backup_dst w).
  apply (keeps_bind _ Ht); [apply (keeps_gets _ Hr) | intros t].
  apply keeps_if; [| apply (keeps_ret _ Hr)].
  apply (keeps_bind _ Ht); [| intros _].
  - unfold copy2.
    apply (keeps_bind _ Ht); [apply (keeps_gets _ Hr) | intros t'].
    destruct (stat t' config_path) as [[data|]|];
      [| apply (keeps_raise _ Hr) | apply (keeps_raise _ Hr)].
    unfold copy2_data.
    apply (keeps_bind _ Ht); [apply keeps_emit_live | intros _].
    apply keeps_lift_live. intros t0 t1 q Hw [Hq1 Hq2].
    eapply write_file_frame; [exact Hw|].
    unfold real_dst. destruct (is_dir t0 (backup_dst w)); assumption.
  - apply (keeps_bind _ Ht); [apply keeps_emit_live | intros _].
    apply (keeps_ret _ Hr).
Qed.

Lemma backup_config_absent w s :
  exists_ (live s) config_path = false ->
  backup_config w s = (Ok None, s).
Proof.
  intros H. unfold backup_config, bind, gets. simpl.
  simpl in H. now rewrite H.
Qed.

Lemma backup_config_tmp w s : tmp (snd (backup_config w s)) = tmp s.
Proof.
  apply (q_backup_config (fun a b => tmp b = tmp a)); try reflexivity.
  intros a b c H1 H2. congruence.
Qed.

End DeclinedRun.

(** C4, as the code has it.  The configuration backup is taken before the
    prompt.  When the operator does not give the affirmative answer, the
    run changes nothing in the working directory except at the place where
    [backup_config] writes its timestamped copy, nothing at all when there
    is no configuration file, and nothing in the temporary directory. *)
Theorem declined_run_only_writes_backup (w : world) (s : state) :
  declines s ->
  (forall q, q <> backup_dst w -> q <> backup_dst w ++ ["config.yaml"] ->
             live (snd (script w s)) q = live s q) /\
  (exists_ (live s) config_path = false ->
   live (snd (script w s)) = live s) /\
  tmp (snd (script w s)) = tmp s.
Proof.
  intros Hdec. split; [|split].
  - intros q H1 H2.
    apply (script_declined
             (same_on (fun q => q <> backup_dst w /\
                                q <> backup_dst w ++ ["config.yaml"])));
      auto using same_on_refl.
    + apply same_on_trans.
    + intros s0 e q0 _. reflexivity.
    + intros s0 l q0 _. reflexivity.
    + apply backup_config_frame.
  - intros Habs.
    apply (script_declined (fun a b => live b = live a)); auto.
    + intros a b c H1 H2. congruence.
    + rewrite backup_config_absent; [reflexivity | exact Habs].
  - apply (script_declined (fun a b => tmp b = tmp a)); auto.
    + intros a b c H1 H2. congruence.
    + apply backup_config_tmp.
Qed.

Lemma declined_run_witness :
  (forall q, q <> backup_dst Demo.net ->
             q <> backup_dst Demo.net ++ ["config.yaml"] ->
             live (snd (script Demo.net (start Demo.tree ["n"]))) q
             = live (start Demo.tree ["n"]) q) /\
  (exists_ (live (start Demo.tree ["n"])) config_path = false ->
   live (snd (script Demo.net (start Demo.tree ["n"])))
   = live (start Demo.tree ["n"])) /\
  tmp (snd (script Demo.net (start Demo.tree ["n"])))
  = tmp (start Demo.tree ["n"]).
Proof.
  apply (declined_run_only_writes_backup Demo.net (start Demo.tree ["n"])).
  reflexivity.
Defined.

(** C4 as stated fails: the operator answers [n], the run ends with
    status 0, and the working directory has a file it did not have. *)
Lemma declined_run_creates_backup :
  affirmative "n" = false /\
  fst (script Demo.net (start Demo.tree ["n"])) = 0 /\
  live (start Demo.tree ["n"]) (backup_dst Demo.net) = None /\
  live (snd (script Demo.net (start Demo.tree ["n"]))) (backup_dst Demo.net)
  = Some (File (bytes_of "a: 1")).
Proof. vm_compute. repeat split; reflexivity. Qed.

(* ================================================================== *)
(** * C6: a missing dependency manifest *)

Section MissingManifest.

Lemma extends_quietly_refl a : extends_quietly a a.
Proof. exists []. split; [now rewrite app_nil_r | constructor]. Qed.

Lemma extends_quietly_trans a b c :
  extends_quietly a b -> extends_quietly b c -> extends_quietly a c.
Proof.
  intros [e1 [H1 F1]] [e2 [H2 F2]]. exists (e1 ++ e2). split.
  - now rewrite H2, H1, app_assoc.
  - now apply Forall_app.
Qed.

Lemma extends_quietly_live s t :
  extends_quietly s (mkState t (tmp s) (stdin s) (log s)).
Proof. exists []. split; [simpl; now rewrite app_nil_r | constructor]. Qed.

Lemma extends_quietly_tmp s t :
  extends_quietly s (mkState (live s) t (stdin s) (log s)).
Proof. exists []. split; [simpl; now rewrite app_nil_r | constructor]. Qed.

Lemma extends_quietly_log s e :
  is_print_or_call e ->
  extends_quietly s (mkState (live s) (tmp s) (stdin s) (log s ++ [e])).
Proof. intros He. exists [e]. split; [reflexivity | now constructor]. Qed.

Lemma prompts_quiet evs : Forall is_print_or_call evs -> prompts evs = [].
Proof.
  induction 1 as [|e evs He _ IH]; [reflexivity|].
  unfold prompts in *. simpl. rewrite IH.
  destruct e; simpl in *; (reflexivity || contradiction).
Qed.

Lemma extends_quietly_prompts a b :
  extends_quietly a b -> prompts (log b) = prompts (log a).
Proof.
  intros [evs [-> Hev]]. unfold prompts. rewrite flat_map_app.
  fold (prompts evs). rewrite (prompts_quiet _ Hev). apply app_nil_r.
Qed.

Lemma snapshot_live items d s : live (snd (snapshot items d s)) = live s.
Proof.
  apply (q_snapshot (fun a b => live b = live a)); try reflexivity.
  intros a b c H1 H2. congruence.
Qed.

Lemma verdict_missing t source_dir :
  stat t (Path "requirements.txt") = None \/
  child source_dir "requirements.txt" = None ->
  verdict t source_dir = false.
Proof.
  unfold verdict. intros [H | H]; rewrite H; simpl; [reflexivity|].
  now rewrite andb_false_r.
Qed.

Lemma update_via_zip_verdict w s nm source_dir rest rc s' :
  archive w = Some ((nm, source_dir) :: rest) ->
  update_via_zip w s = (Ok (RPair true rc), s') ->
  rc = verdict (live s) source_dir.
Proof.
  intros Ha H.
  apply update_via_zip_success in H
    as [sa [x [sp [sr [Hla [Hta [Hp [Hx ->]]]]]]]].
  destruct x as [r | [[src d] rc']]; [contradiction|].
  apply prepare_inv in Hp as [[Hp _] | Hp]; [discriminate|].
  destruct Hp as [nm' [src' [rest' [d' [s0 [_ [Ha' [Hl0 [_ [_ [Hsn E]]]]]]]]]]].
  injection E as -> -> ->.
  rewrite Ha in Ha'. injection Ha' as _ <- _.
  apply apply_update_inv in Hx as [n [sm [_ [_ E]]]].
  injection E as E.
  pose proof (snapshot_live (iter_order w) [] s0) as Hl.
  rewrite Hsn in Hl. simpl in Hl. rewrite E, Hl, Hl0, Hla. reflexivity.
Qed.

End MissingManifest.

(** C6, as the code has it.  [check_requirements_changed] answers true
    when a manifest is missing, but [update_via_zip] consults it only when
    both manifests exist.  When the old or the new manifest is missing the
    verdict is false: a successful [update_via_zip] returns
    [requirements_changed = False], and the update and its report prompt
    for nothing. *)
Theorem missing_manifest_no_reinstall_prompt
    (w : world) (s : state) (nm : string) (source_dir : node)
    (rest : list (string * node)) :
  archive w = Some ((nm, source_dir) :: rest) ->
  stat (live s) (Path "requirements.txt") = None \/
  child source_dir "requirements.txt" = None ->
  (forall x, check_requirements_changed None x = true /\
             check_requirements_changed x None = true) /\
  verdict (live s) source_dir = false /\
  (forall rc s', update_via_zip w s = (Ok (RPair true rc), s') ->
                 rc = false) /\
  (forall backup_path,
      prompts (log (snd (update_and_report w backup_path s)))
      = prompts (log s)).
Proof.
  intros Ha Hmiss.
  pose proof (verdict_missing _ _ Hmiss) as Hv.
  assert (Hrc : forall rc s', update_via_zip w s = (Ok (RPair true rc), s') ->
                              rc = false).
  { intros rc s' H. rewrite <- Hv. eapply update_via_zip_verdict; eauto. }
  split; [|split; [exact Hv | split; [exact Hrc|]]].
  - intros x. split; [reflexivity | destruct x; reflexivity].
  - intros bp. apply extends_quietly_prompts.
    unfold update_and_report, bind.
    pose proof (q_update_via_zip extends_quietly extends_quietly_refl
                  extends_quietly_trans extends_quietly_live
                  extends_quietly_tmp extends_quietly_log w s) as Hq.
    destruct (update_via_zip w s) as [[r|e] s1] eqn:Hu; simpl in Hq.
    + eapply extends_quietly_trans; [exact Hq|].
      apply (q_report extends_quietly extends_quietly_refl
               extends_quietly_trans extends_quietly_live
               extends_quietly_log).
      intros ->. specialize (Hrc _ _ eq_refl). discriminate.
    + exact Hq.
Qed.

Lemma missing_manifest_witness :
  (forall x, check_requirements_changed None x = true /\
             check_requirements_changed x None = true) /\
  verdict (live (start Demo.tree_bare ["y"])) Demo.source = false /\
  (forall rc s',
      update_via_zip Demo.net (start Demo.tree_bare ["y"])
      = (Ok (RPair true rc), s') -> rc = false) /\
  (forall backup_path,
      prompts (log (snd (update_and_report Demo.net backup_path
                           (start Demo.tree_bare ["y"]))))
      = prompts (log (start Demo.tree_bare ["y"]))).
Proof.
  apply (missing_manifest_no_reinstall_prompt Demo.net
           (start Demo.tree_bare ["y"]) "msx_grid-main" Demo.source []).
  - reflexivity.
  - left. reflexivity.
Defined.

(** C6 as stated fails: the working directory has no [requirements.txt],
    the comparison function itself would answer true, the update succeeds
    with [requirements_changed = False], and the only prompt of the run is
    the confirmation. *)
Lemma missing_manifest_no_prompt_shown :
  live (start Demo.tree_bare ["y"; "y"]) (Path "requirements.txt") = None /\
  check_requirements_changed
    (stat (live (start Demo.tree_bare ["y"; "y"])) (Path "requirements.txt"))
    (option_map node_entry (child Demo.source "requirements.txt")) = true /\
  fst (update_via_zip Demo.net (start Demo.tree_bare ["y"; "y"]))
  = Ok (RPair true false) /\
  fst (script Demo.net (start Demo.tree_bare ["y"; "y"])) = 0 /\
  prompts (log (snd (script Demo.net (start Demo.tree_bare ["y"; "y"]))))
  = ["是否继续更新? (y/n): "].
Proof. vm_compute. repeat split; reflexivity. Qed.

(* ================================================================== *)
(** * C1: a download that fails *)

Section DownloadFails.

(** After a failed download [update_via_zip] returns the bare [False] of
    line 169, which [main] cannot unpack: the branch of [main] that
    restores the configuration is never reached. *)
Lemma download_failure_raises w s backup_path :
  download_ok w = false ->
  update_and_report w backup_path s
  = (Raise TypeError,
     mkState (live s) empty_fs (stdin s)
       (log (announced w s)
        ++ [Print INFO "正在下载最新代码..."; Print ERROR "下载失败"])).
Proof.
  intros Hd. unfold update_and_report.
  assert (E : update_via_zip w s
              = (Ok (RBool false),
                 mkState (live s) empty_fs (stdin s)
                   (log (announced w s)
                    ++ [Print INFO "正在下载最新代码...";
                        Print ERROR "下载失败"]))).
  { rewrite update_via_zip_unfold.
    destruct (announced_spec w s) as [_ [Hl [_ [Hi _]]]].
    unfold try_finally, try_except, body.
    rewrite (bind_run _ _ _ _ _ (prepare_download_failed w _ Hd)).
    unfold ret, cleanup. simpl. now rewrite Hl, Hi. }
  rewrite (bind_run _ _ _ _ _ E). reflexivity.
Qed.

End DownloadFails.

(** C1, on a run whose download fails after the operator confirmed.
    [update_via_zip] returns [False]; [main] raises [TypeError] on
    unpacking it; the script exits with status 1; the only library call of
    the whole run is the copy that made the backup, so [restore_config] was
    never called and "配置文件已恢复" never printed.  The configuration
    file has its old content only because nothing had touched it. *)
Theorem download_failure_skips_config_restore :
  fst (update_via_zip Demo.offline (start Demo.tree []))
  = Ok (RBool false) /\
  fst (main Demo.offline (start Demo.tree ["y"])) = Raise TypeError /\
  fst (script Demo.offline (start Demo.tree ["y"])) = 1 /\
  calls (log (snd (script Demo.offline (start Demo.tree ["y"]))))
  = [Copy2 (backup_dst Demo.offline)] /\
  filter (fun e => match e with
                   | Print INFO "配置文件已恢复" => true
                   | _ => false
                   end)
         (log (snd (script Demo.offline (start Demo.tree ["y"])))) = [] /\
  live (snd (script Demo.offline (start Demo.tree ["y"]))) config_path
  = live (start Demo.tree ["y"]) config_path.
Proof. vm_compute. repeat split; reflexivity. Qed.

(* ================================================================== *)
(** * C8: a dependency reinstall that fails *)

Section ReinstallFails.

(** Whatever status [pip] exits with, [run_command] returns a tuple and
    [update_dependencies] prints its success message: the [except] branch
    that would report the failure is not reached. *)
Lemma update_dependencies_exited w s out err rc :
  pip w = Exited out err rc ->
  exists_ (live s) (Path "requirements.txt") = true ->
  update_dependencies w s
  = (Ok tt,
     mkState (live s) (tmp s) (stdin s)
       (log s ++ [Print INFO "检查依赖更新...";
                  Print INFO "正在更新 Python 依赖...";
                  Call (Run (executable w
                             ++ " -m pip install -r requirements.txt --upgrade")%string);
                  Print SUCCESS "依赖更新完成"])).
Proof.
  intros Hp Hex.
  unfold update_dependencies, run_command, subprocess_run, try_except, bind,
    print_info, print_success, print_error, print_warning, emit, gets, ret,
    raise.
  simpl. simpl in Hex. rewrite Hex. simpl. rewrite Hp.
  destruct (Nat.eqb rc 0); simpl; rewrite <- !app_assoc; reflexivity.
Qed.

End ReinstallFails.

(** C8, on a run where [pip] exits with status 1 after the operator asked
    for the reinstall.  [run_command] catches the [CalledProcessError] and
    returns [(None, message, 1)]; [update_dependencies] ignores the tuple
    and prints "依赖更新完成"; the run prints no error at all and exits
    with status 0.  The merged tree is left as merged. *)
Theorem failed_reinstall_reported_as_success :
  fst (run_command Demo.pip_fails
         "python -m pip install -r requirements.txt --upgrade" true
         (start Demo.tree []))
  = Ok (None, "Command returned non-zero exit status 1", 1) /\
  fst (script Demo.pip_fails (start Demo.tree ["y"; "y"])) = 0 /\
  prompts (log (snd (script Demo.pip_fails (start Demo.tree ["y"; "y"]))))
  = ["是否继续更新? (y/n): "; "是否更新 Python 依赖? (y/n): "] /\
  filter (fun e => match e with
                   | Print ERROR _ | Print SUCCESS _ | Call (Run _) => true
                   | _ => false
                   end)
         (log (snd (script Demo.pip_fails (start Demo.tree ["y"; "y"]))))
  = [Print SUCCESS "已更新 2 个文件";
     Call (Run "python -m pip install -r requirements.txt --upgrade");
     Print SUCCESS "依赖更新完成";
     Print SUCCESS "更新完成！"] /\
  live (snd (script Demo.pip_fails (start Demo.tree ["y"; "y"]))) ["app.py"]
  = Some (File (bytes_of "print(2)")).
Proof. vm_compute. repeat split; reflexivity. Qed.

(* ================================================================== *)
(** * Decoding text *)

Section Decoding.
Local Open Scope N_scope.
Import Text.

Lemma between_spec lo b hi : between lo b hi = true -> lo <= b <= hi.
Proof.
  unfold between. intros H. apply andb_true_iff in H as [H1 H2].
  apply N.leb_le in H1, H2. lia.
Qed.

Lemma cont_spec b : cont b = true -> 0x80 <= b <= 0xBF.
Proof. apply between_spec. Qed.

(** A step of the decoder consumes one well-formed sequence. *)
Lemma decode1_encodes bs c rest :
  decode1 bs = Some (c, rest) ->
  exists pre, bs = pre ++ rest /\ encodes c pre.
Proof.
  unfold decode1. destruct bs as [|b0 t0]; [discriminate|].
  destruct (N.ltb_spec b0 0x80) as [H0|H0].
  { intros [= <- <-]. exists [b0]. split; [reflexivity | now constructor]. }
  destruct (between 0xC2 b0 0xDF) eqn:E2.
  { apply between_spec in E2.
    destruct t0 as [|b1 t1]; [discriminate|].
    destruct (cont b1) eqn:C1; [|discriminate].
    apply cont_spec in C1.
    intros [= <- <-]. exists [b0; b1]. split; [reflexivity | now constructor]. }
  destruct (between 0xE0 b0 0xEF) eqn:E3.
  { apply between_spec in E3.
    destruct t0 as [|b1 [|b2 t2]]; try discriminate.
    destruct (between _ b1 _ && cont b2) eqn:C; [|discriminate].
    apply andb_true_iff in C as [C1 C2].
    apply between_spec in C1. apply cont_spec in C2.
    intros [= <- <-]. exists [b0; b1; b2]. split; [reflexivity|].
    destruct (N.eqb_spec b0 0xE0); destruct (N.eqb_spec b0 0xED);
      constructor; lia. }
  destruct (between 0xF0 b0 0xF4) eqn:E4; [|discriminate].
  apply between_spec in E4.
  destruct t0 as [|b1 [|b2 [|b3 t3]]]; try discriminate.
  destruct (between _ b1 _ && cont b2 && cont b3) eqn:C; [|discriminate].
  apply andb_true_iff in C as [C C3].
  apply andb_true_iff in C as [C1 C2].
  apply between_spec in C1. apply cont_spec in C2, C3.
  intros [= <- <-]. exists [b0; b1; b2; b3]. split; [reflexivity|].
  destruct (N.eqb_spec b0 0xF0); destruct (N.eqb_spec b0 0xF4);
    constructor; lia.
Qed.

(** A code point has one well-formed sequence. *)
Lemma encodes_inj c p q : encodes c p -> encodes c q -> p = q.
Proof.
  intros Hp Hq.
  destruct Hp; inversion Hq; subst;
    repeat match goal with
           | |- ?a :: _ = ?b :: _ =>
               assert (a = b) by lia; subst; f_equal
           | |- [] = [] => reflexivity
           end; try (exfalso; lia).
Qed.

Lemma encodes_nonempty c p : encodes c p -> (0 < length p)%nat.
Proof. destruct 1; simpl; lia. Qed.

Lemma encodes_cr p : encodes 13 p -> p = [13].
Proof.
  intros H. apply (encodes_inj 13); [exact H|]. constructor. lia.
Qed.

Lemma decode_fuel_nil n bs : decode_fuel n bs = Some [] -> bs = [].
Proof.
  destruct bs as [|b bs]; [reflexivity|].
  destruct n; cbn [decode_fuel]; [discriminate|].
  destruct (decode1 (b :: bs)) as [[c r]|]; [|discriminate].
  destruct (decode_fuel n r); discriminate.
Qed.

Lemma decode_fuel_cons n bs c cs :
  decode_fuel n bs = Some (c :: cs) ->
  exists n' pre rest,
    bs = pre ++ rest /\ encodes c pre /\ decode_fuel n' rest = Some cs.
Proof.
  destruct bs as [|b bs]; [destruct n; cbn [decode_fuel]; discriminate|].
  destruct n; cbn [decode_fuel]; [discriminate|].
  destruct (decode1 (b :: bs)) as [[c' r]|] eqn:D; [|discriminate].
  destruct (decode_fuel n r) as [cs'|] eqn:F; [|discriminate].
  intros [= -> ->].
  apply decode1_encodes in D as [pre [-> E]]. eauto 6.
Qed.

Lemma decode_fuel_inj cs : forall n m a b,
  decode_fuel n a = Some cs -> decode_fuel m b = Some cs -> a = b.
Proof.
  induction cs as [|c cs IH]; intros n m a b Ha Hb.
  - apply decode_fuel_nil in Ha, Hb. congruence.
  - apply decode_fuel_cons in Ha as [n' [pa [ra [-> [Ea Fa]]]]].
    apply decode_fuel_cons in Hb as [m' [pb [rb [-> [Eb Fb]]]]].
    rewrite (encodes_inj _ _ _ Ea Eb). f_equal. eauto.
Qed.

Lemma decode1_shorter bs c rest :
  decode1 bs = Some (c, rest) -> (length rest < length bs)%nat.
Proof.
  intros H. apply decode1_encodes in H as [pre [-> E]].
  apply encodes_nonempty in E. rewrite List.length_app. lia.
Qed.

(** The length of the input is fuel enough: more fuel decodes the same. *)
Lemma decode_fuel_enough n : forall m bs,
  (length bs <= n)%nat -> (length bs <= m)%nat ->
  decode_fuel n bs = decode_fuel m bs.
Proof.
  induction n as [|n IH]; intros m bs Hn Hm.
  - destruct bs; [|simpl in Hn; lia]. destruct m; reflexivity.
  - destruct bs as [|b0 bs]; [destruct m; reflexivity|].
    destruct m; [simpl in Hm; lia|]. cbn [decode_fuel].
    destruct (decode1 (b0 :: bs)) as [[c r]|] eqn:D; [|reflexivity].
    apply decode1_shorter in D. simpl in *.
    rewrite (IH m r); [reflexivity | lia | lia].
Qed.

Lemma decode_fuel_cr cs : forall n bs,
  decode_fuel n bs = Some cs -> In 13 cs -> In 13 bs.
Proof.
  induction cs as [|c cs IH]; intros n bs H Hin; [contradiction|].
  apply decode_fuel_cons in H as [n' [pre [rest [-> [E F]]]]].
  apply in_or_app. destruct Hin as [-> | Hin].
  - left. rewrite (encodes_cr _ E). now left.
  - right. eauto.
Qed.

Lemma newlines_id cs : ~ In 13 cs -> newlines cs = cs.
Proof.
  induction cs as [|c cs IH]; intros H; simpl; [reflexivity|].
  destruct (N.eqb_spec c 13) as [->|_].
  - exfalso. apply H. now left.
  - f_equal. apply IH. intros Hc. apply H. now right.
Qed.

Lemma text_eqb_eq a : forall b, Text.eqb a b = true <-> a = b.
Proof.
  induction a as [|x a IH]; intros [|y b]; simpl;
    try (split; (reflexivity || discriminate)).
  rewrite andb_true_iff, N.eqb_eq, IH.
  split; [intros [-> ->]; reflexivity | intros [= -> ->]; auto].
Qed.

Lemma to_N_inj_list (a b : list byte) :
  List.map Byte.to_N a = List.map Byte.to_N b -> a = b.
Proof.
  revert b. induction a as [|x a IH]; intros [|y b] H; try discriminate.
  - reflexivity.
  - injection H as Hx Hr. f_equal; [|auto].
    pose proof (Byte.of_to_N x) as Ex. pose proof (Byte.of_to_N y) as Ey.
    rewrite Hx in Ex. congruence.
Qed.

(** Decoding is injective on the inputs it accepts. *)
Lemma decode_inj a b cs :
  decode a = Some cs -> decode b = Some cs -> a = b.
Proof.
  unfold decode. intros Ha Hb. apply to_N_inj_list.
  eapply decode_fuel_inj; eauto.
Qed.

Lemma decode_cr data cs :
  decode data = Some cs -> ~ In x0d data -> ~ In 13 cs.
Proof.
  unfold decode. intros H Hn Hin.
  apply (decode_fuel_cr _ _ _ H) in Hin.
  apply in_map_iff in Hin as [x [Hx Hin]].
  assert (x = x0d).
  { pose proof (Byte.of_to_N x) as E. rewrite Hx in E.
    vm_compute in E. congruence. }
  subst. contradiction.
Qed.

(** Text that is plain ASCII decodes to itself. *)
Lemma decode_fuel_ascii bs :
  Forall (fun b => b < 0x80) bs -> decode_fuel (length bs) bs = Some bs.
Proof.
  induction 1 as [|b bs Hb _ IH]; [reflexivity|].
  simpl. destruct (N.ltb_spec b 0x80); [|lia]. now rewrite IH.
Qed.

Lemma decode_ascii data :
  Forall (fun b => Byte.to_N b < 0x80) data ->
  decode data = Some (List.map Byte.to_N data).
Proof.
  intros H. unfold decode.
  rewrite <- (List.length_map Byte.to_N data).
  apply decode_fuel_ascii. now apply Forall_map.
Qed.

End Decoding.

(* ================================================================== *)
(** * C5: what the manifest comparison compares *)

(** C5, as the code has it.  The manifests are read as UTF-8 text with
    universal newlines, and any error counts as a change.  For two existing
    files the answer is false exactly when both decode and their texts are
    equal once CR LF and CR are read as LF.  So for files that decode and
    hold no carriage return the answer is false exactly when they are
    byte-for-byte identical. *)
Theorem requirements_check_compares_text (old new : list byte) :
  (check_requirements_changed (Some (File old)) (Some (File new)) = false <->
   exists a b,
     Text.decode old = Some a /\ Text.decode new = Some b /\
     Text.newlines a = Text.newlines b) /\
  (Text.decode old <> None -> Text.decode new <> None ->
   ~ In x0d old -> ~ In x0d new ->
   (check_requirements_changed (Some (File old)) (Some (File new)) = false
    <-> old = new)).
Proof.
  assert (Hchar :
    check_requirements_changed (Some (File old)) (Some (File new)) = false <->
    exists a b,
      Text.decode old = Some a /\ Text.decode new = Some b /\
      Text.newlines a = Text.newlines b).
  { unfold check_requirements_changed, Text.read.
    destruct (Text.decode old) as [a|], (Text.decode new) as [b|];
      try (split; [discriminate | intros [? [? [? [? ?]]]]; discriminate]).
    rewrite negb_false_iff, text_eqb_eq. split.
    - intros H. exists a, b. auto.
    - intros [a' [b' [[= <-] [[= <-] H]]]]. exact H. }
  split; [exact Hchar|].
  intros Vo Vn Co Cn. rewrite Hchar. split.
  - intros [a [b [Ha [Hb E]]]].
    rewrite (newlines_id a) in E by (eapply decode_cr; eauto).
    rewrite (newlines_id b) in E by (eapply decode_cr; eauto).
    subst b. eapply decode_inj; eauto.
  - intros <-. destruct (Text.decode old) as [a|] eqn:E; [|congruence].
    exists a, a. auto.
Qed.

Lemma requirements_check_witness :
  check_requirements_changed (Some (File (bytes_of "requests==2.31")))
                             (Some (File (bytes_of "requests==2.31")))
  = false
  <-> bytes_of "requests==2.31" = bytes_of "requests==2.31".
Proof.
  apply (proj2 (requirements_check_compares_text
                  (bytes_of "requests==2.31") (bytes_of "requests==2.31"))).
  - vm_compute. discriminate.
  - vm_compute. discriminate.
  - vm_compute. intuition discriminate.
  - vm_compute. intuition discriminate.
Defined.

(** C5 as stated fails both ways: a manifest that is not valid UTF-8
    (here Latin-1) compared with an identical copy gives true, and two
    manifests that differ in one byte, CR against LF, give false. *)
Lemma requirements_check_not_bytewise :
  check_requirements_changed
    (Some (File [x63; x61; x66; xe9])) (Some (File [x63; x61; x66; xe9]))
  = true /\
  check_requirements_changed
    (Some (File (bytes_of "requests" ++ [x0d])))
    (Some (File (bytes_of "requests" ++ [x0a])))
  = false /\
  bytes_of "requests" ++ [x0d] <> bytes_of "requests" ++ [x0a].
Proof.
  split; [vm_compute; reflexivity|].
  split; [vm_compute; reflexivity|].
  vm_compute. discriminate.
Qed.

(* ================================================================== *)
(** * What [update_via_zip] returns *)

Section Returns.

Lemma prepare_not_zip w s :
  download_ok w = true -> archive w = None ->
  prepare w s = (Raise BadZipFile, fetched s).
Proof.
  intros Hd Ha. unfold prepare, download_file, bind, print_info, emit, ret,
    raise. simpl. rewrite Hd. simpl. rewrite Ha. simpl.
  unfold fetched. now rewrite <- !app_assoc.
Qed.

(** [apply_update] returns [(True, _)] when it returns. *)
Lemma apply_update_value w src d rc s :
  match fst (apply_update w src d rc s) with
  | Ok r => r = RPair true rc
  | Raise _ => True
  end.
Proof.
  destruct (apply_update w src d rc s) as [[r|e] s'] eqn:E; simpl; [|exact I].
  apply apply_update_inv in E as [n [sm [_ [_ E]]]]. exact E.
Qed.

(** After the announcement, the rest of [update_via_zip] turns every
    exception into [(False, False)] and empties the temporary directory. *)
Lemma guarded_value (c : M pyret) s :
  exists r s',
    try_finally (try_except c on_exception) cleanup s = (Ok r, s') /\
    tmp s' = empty_fs /\
    match fst (c s) with
    | Ok v => r = v
    | Raise _ => r = RPair false false
    end.
Proof.
  unfold try_finally, try_except.
  destruct (c s) as [[v|e] s1]; simpl.
  - exists v. eexists. split; [reflexivity|]. split; reflexivity.
  - exists (RPair false false). eexists. split; [reflexivity|].
    split; reflexivity.
Qed.

(** The [try] block returns the bare [False] exactly after a failed
    download or an empty extraction; otherwise it returns [(True, _)] or
    raises. *)
Lemma body_value w s :
  match fst (body w s) with
  | Ok r =>
      (r = RBool false /\ (download_ok w = false \/ archive w = Some [])) \/
      (exists rc, r = RPair true rc /\
                  download_ok w = true /\ archive w <> Some [])
  | Raise _ => download_ok w = true /\ archive w <> Some []
  end.
Proof.
  unfold body.
  destruct (download_ok w) eqn:Hd.
  - destruct (archive w) as [[|[nm src] rest]|] eqn:Ha.
    + rewrite (bind_run _ _ _ _ _ (prepare_empty w s Hd Ha)). simpl.
      left. auto.
    + unfold bind. rewrite (prepare_snapshot w s nm src rest Hd Ha).
      destruct (snapshot (iter_order w) [] (fetched s)) as [[d|e] sp].
      * pose proof (apply_update_value w src d (verdict (live sp) src) sp)
          as Hv.
        destruct (apply_update w src d (verdict (live sp) src) sp)
          as [[r|e] s']; simpl in *.
        -- right. exists (verdict (live sp) src).
           repeat split; [assumption | discriminate].
        -- split; [reflexivity | discriminate].
      * simpl. split; [reflexivity | discriminate].
    + rewrite (bind_run_raise _ _ _ _ _ (prepare_not_zip w s Hd Ha)). simpl.
      split; [reflexivity | discriminate].
  - rewrite (bind_run _ _ _ _ _ (prepare_download_failed w s Hd)). simpl.
    left. auto.
Qed.

Lemma update_via_zip_stdin w s :
  stdin (snd (update_via_zip w s)) = stdin s.
Proof.
  apply (q_update_via_zip (fun a b => stdin b = stdin a)); try reflexivity.
  intros a b c H1 H2. congruence.
Qed.

End Returns.

(** X1.  The update never lets an exception out and never leaves its temporary
    directory behind.  [update_via_zip] always returns: the bare [False],
    [(False, False)] or [(True, _)]; the temporary directory is gone
    afterwards and no line of the operator's input has been read. *)
Theorem update_via_zip_always_returns (w : world) (s : state) :
  exists r s',
    update_via_zip w s = (Ok r, s') /\
    tmp s' = empty_fs /\
    stdin s' = stdin s /\
    (r = RBool false \/ r = RPair false false \/
     exists requirements_changed, r = RPair true requirements_changed).
Proof.
  pose proof (update_via_zip_stdin w s) as Hin.
  rewrite update_via_zip_unfold in *.
  destruct (guarded_value (body w) (announced w s)) as [r [s' [E [Ht Hr]]]].
  rewrite E in *. simpl in Hin.
  exists r, s'. repeat split; try assumption.
  pose proof (body_value w (announced w s)) as Hb.
  destruct (fst (body w (announced w s))) as [v|e].
  - subst v. destruct Hb as [[-> _] | [rc [-> _]]]; eauto.
  - auto.
Qed.

(* ================================================================== *)
(** * Which exceptions a computation can raise *)

Section RaisesOnly.
Variable P : exn -> Prop.

Lemma ro_ret {A} (a : A) : raises_only P (ret a).
Proof. intros s. exact I. Qed.

Lemma ro_gets {A} (f : state -> A) : raises_only P (gets f).
Proof. intros s. exact I. Qed.

Lemma ro_emit e : raises_only P (emit e).
Proof. intros s. exact I. Qed.

Lemma ro_raise {A} e : P e -> raises_only P (@raise A e).
Proof. intros H s. exact H. Qed.

Lemma ro_bind {A B} (c : M A) (k : A -> M B) :
  raises_only P c -> (forall a, raises_only P (k a)) ->
  raises_only P (bind c k).
Proof.
  intros Hc Hk s. unfold bind. specialize (Hc s).
  destruct (c s) as [[a|e] s1]; simpl in *; [apply Hk | exact Hc].
Qed.

Lemma ro_if {A} (b : bool) (c d : M A) :
  raises_only P c -> raises_only P d -> raises_only P (if b then c else d).
Proof. destruct b; auto. Qed.

(** A handler decides what gets out of a [try]. *)
Lemma ro_try_except {A} (c : M A) (h : exn -> M A) :
  (forall e, raises_only P (h e)) -> raises_only P (try_except c h).
Proof.
  intros Hh s. unfold try_except.
  destruct (c s) as [[a|e] s1]; simpl; [exact I | apply Hh].
Qed.

Lemma ro_lift_live f :
  (forall t e, f t = Raise e -> P e) -> raises_only P (lift_live f).
Proof.
  intros Hf s. unfold lift_live.
  destruct (f (live s)) as [t|e] eqn:E; simpl; [exact I | eauto].
Qed.

Lemma ro_input m : P EOFError -> raises_only P (input m).
Proof.
  intros H s. unfold input, bind, emit. simpl.
  destruct (stdin s); simpl; [exact H | exact I].
Qed.

End RaisesOnly.

Section WhoRaises.

Lemma write_file_raises p d t e : write_file p d t = Raise e -> is_os_error e.
Proof.
  unfold write_file.
  destruct (stat t p) as [[?|]|];
    destruct (stat t (parent p)) as [[?|]|]; intros [= <-]; exact I.
Qed.

Lemma ro_copy2 src dst : raises_only is_os_error (copy2 src dst).
Proof.
  unfold copy2. apply ro_bind; [apply ro_gets | intros t].
  destruct (stat t src) as [[d|]|]; try (apply ro_raise; exact I).
  unfold copy2_data. apply ro_bind; [apply ro_emit | intros _].
  apply ro_lift_live. intros t0 e. apply write_file_raises.
Qed.

Lemma ro_restore_config bp : raises_only is_os_error (restore_config bp).
Proof.
  unfold restore_config. destruct bp as [p|]; [|apply ro_ret].
  apply ro_bind; [apply ro_gets | intros t].
  apply ro_if; [|apply ro_ret].
  apply ro_bind; [apply ro_copy2 | intros _]. apply ro_emit.
Qed.

Lemma ro_backup_config w : raises_only is_os_error (backup_config w).
Proof.
  unfold backup_config. apply ro_bind; [apply ro_gets | intros t].
  apply ro_if; [|apply ro_ret].
  apply ro_bind; [apply ro_copy2 | intros _].
  apply ro_bind; [apply ro_emit | intros _]. apply ro_ret.
Qed.

(** [update_dependencies] lets no exception out. *)
Lemma ro_update_dependencies w :
  raises_only (fun _ => False) (update_dependencies w).
Proof.
  unfold update_dependencies.
  apply ro_bind; [apply ro_emit | intros _].
  apply ro_bind; [apply ro_gets | intros t].
  apply ro_if; [apply ro_emit|].
  apply ro_bind; [apply ro_emit | intros _].
  apply ro_try_except. intros e. apply ro_emit.
Qed.

Lemma ro_weaken {A} (P Q : exn -> Prop) (c : M A) :
  (forall e, P e -> Q e) -> raises_only P c -> raises_only Q c.
Proof.
  intros H Hc s. specialize (Hc s).
  destruct (fst (c s)); [exact I | auto].
Qed.

(** What [main] gets out of a pair: an exception of the file system from
    restoring the configuration, or the end of the input. *)
Lemma ro_report_pair w bp a b :
  raises_only (fun e => is_os_error e \/ e = EOFError)
              (report w bp (RPair a b)).
Proof.
  set (Q := fun e => is_os_error e \/ e = EOFError).
  unfold report, unpack2.
  apply ro_bind; [apply ro_ret | intros [success rc]].
  destruct success.
  - apply ro_bind.
    + destruct rc; [|apply ro_ret].
      apply ro_bind; [apply ro_emit | intros _].
      apply ro_bind; [apply ro_input; right; reflexivity | intros r].
      apply ro_if; [|apply ro_ret].
      apply (ro_weaken (fun _ => False)); [intros e [] |].
      apply ro_update_dependencies.
    + intros _. repeat (apply ro_bind; [apply ro_emit | intros _]).
      apply ro_emit.
  - apply ro_bind; [| intros _; apply ro_emit].
    destruct bp; [|apply ro_ret].
    apply (ro_weaken is_os_error); [intros e He; now left |].
    apply ro_restore_config.
Qed.

End WhoRaises.

(* ================================================================== *)
(** * When [main] cannot unpack the result *)

Section Unpacking.

Lemma update_via_zip_bare w s :
  exists r s',
    update_via_zip w s = (Ok r, s') /\
    r <> RBool true /\
    (r = RBool false <->
     download_ok w = false \/ archive w = Some []).
Proof.
  rewrite update_via_zip_unfold.
  destruct (guarded_value (body w) (announced w s)) as [r [s' [E [_ Hr]]]].
  exists r, s'. split; [exact E|].
  pose proof (body_value w (announced w s)) as Hb.
  destruct (fst (body w (announced w s))) as [v|e].
  - subst v. destruct Hb as [[-> Hc] | [rc [-> [Hd Ha]]]].
    + split; [discriminate | tauto].
    + split; [discriminate|].
      split; [discriminate|]. intros [H|H]; congruence.
  - subst r. destruct Hb as [Hd Ha]. split; [discriminate|].
    split; [discriminate|]. intros [H|H]; congruence.
Qed.

End Unpacking.

(** X2.  [update_via_zip] returns the bare [False] of lines 169 and 183 exactly
    when the download fails or the extraction leaves nothing, and these are
    exactly the runs in which [main] ends in a [TypeError] on unpacking the
    result. *)
Theorem bare_false_iff_type_error
    (w : world) (s : state) (backup_path : option path) :
  (fst (update_via_zip w s) = Ok (RBool false) <->
   download_ok w = false \/ archive w = Some []) /\
  (fst (update_and_report w backup_path s) = Raise TypeError <->
   download_ok w = false \/ archive w = Some []).
Proof.
  destruct (update_via_zip_bare w s) as [r [s' [E [Hnt Hr]]]].
  split.
  - rewrite E. simpl. rewrite <- Hr. split; [intros [= ->] | intros ->];
      reflexivity.
  - unfold update_and_report. rewrite (bind_run _ _ _ _ _ E).
    rewrite <- Hr. split.
    + intros H. destruct r as [b | a b].
      * destruct b; [congruence | reflexivity].
      * pose proof (ro_report_pair w backup_path a b s') as Hp.
        rewrite H in Hp. destruct Hp as [[] | Hp]; discriminate.
    + intros ->. reflexivity.
Qed.

(* ================================================================== *)
(** * Child processes *)

Section Processes.

Lemma logged_app s a b : logged (logged s a) b = logged s (a ++ b).
Proof. unfold logged. simpl. now rewrite <- app_assoc. Qed.

Lemma run_command_run w cmd check s :
  run_command w cmd check s =
  (match pip w with
   | NotStarted => Raise OSError
   | Exited out err rc =>
       if check && negb (Nat.eqb rc 0)
       then Ok (None, exn_text (CalledProcessError rc), rc)
       else Ok (Some (Str.strip out), Str.strip err, rc)
   end, logged s [Call (Run cmd)]).
Proof.
  unfold run_command, try_except, subprocess_run, bind, emit, raise, ret,
    logged.
  destruct (pip w) as [out err rc|]; [|reflexivity].
  destruct (check && negb (Nat.eqb rc 0)); reflexivity.
Qed.

End Processes.



(* ================================================================== *)
(** * The answer to a prompt *)

Section Answers.










End Answers.


(* ================================================================== *)
(** * The manifest comparison as a relation *)

Section Unchanged.

Lemma text_eqb_sym a : forall b, Text.eqb a b = Text.eqb b a.
Proof.
  induction a as [|x a IH]; intros [|y b]; simpl; try reflexivity.
  rewrite N.eqb_sym. now rewrite IH.
Qed.

End Unchanged.

(** X6.  The answer of [check_requirements_changed] does not depend on which
    manifest is the old one, and "unchanged" is transitive; a manifest
    compared with itself counts as changed exactly when it cannot be read
    as text. *)
Theorem requirements_check_is_symmetric (a b c : option entry) :
  check_requirements_changed a b = check_requirements_changed b a /\
  (check_requirements_changed a b = false ->
   check_requirements_changed b c = false ->
   check_requirements_changed a c = false) /\
  (check_requirements_changed a a = true <->
   forall text, option_map Text.read a <> Some (Ok text)).
Proof.
  unfold check_requirements_changed. split; [|split].
  - destruct a as [ea|], b as [eb|]; try reflexivity.
    destruct (Text.read ea), (Text.read eb); try reflexivity.
    now rewrite text_eqb_sym.
  - destruct a as [ea|], b as [eb|], c as [ec|]; try discriminate.
    destruct (Text.read ea) as [ta|], (Text.read eb) as [tb|],
      (Text.read ec) as [tc|]; try discriminate.
    rewrite !negb_false_iff, !text_eqb_eq. congruence.
  - destruct a as [ea|]; simpl.
    + destruct (Text.read ea) as [ta|e].
      * assert (Text.eqb ta ta = true) as -> by now apply text_eqb_eq.
        simpl. split; [discriminate|]. intros H. now destruct (H ta).
      * split; [discriminate | reflexivity].
    + split; [discriminate | reflexivity].
Qed.

(* ================================================================== *)
(** * Relations on the working directory that a run keeps *)

Section LiveRel.
Variable L : fs -> fs -> Prop.
Hypothesis L_refl : forall t, L t t.
Hypothesis L_trans : forall a b c, L a b -> L b c -> L a c.

Let R (s s' : state) : Prop := L (live s) (live s').

Lemma lr_refl s : R s s.
Proof. apply L_refl. Qed.

Lemma lr_trans a b c : R a b -> R b c -> R a c.
Proof. apply L_trans. Qed.

Lemma lr_emit e : keeps R (emit e).
Proof. intros s. apply L_refl. Qed.

Lemma lr_set_tmp t : keeps R (set_tmp t).
Proof. intros s. apply L_refl. Qed.

(** A computation that leaves the working directory alone. *)
Lemma lr_same_live {A} (c : M A) :
  (forall s, live (snd (c s)) = live s) -> keeps R c.
Proof. intros H s. unfold R. rewrite H. apply L_refl. Qed.

Lemma lr_lift_live f :
  (forall t t', f t = Ok t' -> L t t') -> keeps R (lift_live f).
Proof.
  intros Hf s. unfold lift_live.
  destruct (f (live s)) as [t'|e] eqn:E; simpl; [|apply L_refl].
  apply Hf, E.
Qed.

Lemma lr_set_live (g : fs -> fs) :
  (forall t, L t (g t)) -> keeps R (t <- gets live ;; set_live (g t)).
Proof. intros Hg s. apply Hg. Qed.

Lemma lr_mkdir_parents p :
  (forall t t', mkdir_from [] p t = Ok t' -> L t t') ->
  keeps R (mkdir_parents p).
Proof.
  intros H. unfold mkdir_parents.
  apply (keeps_bind R lr_trans); [apply lr_emit | intros _].
  now apply lr_lift_live.
Qed.

Lemma lr_copy2_data nm data dst :
  (forall p t t', write_file p data t = Ok t' ->
                  p = dst \/ p = dst ++ [nm] -> L t t') ->
  keeps R (copy2_data nm data dst).
Proof.
  intros H. unfold copy2_data.
  apply (keeps_bind R lr_trans); [apply lr_emit | intros _].
  apply lr_lift_live. intros t t' Hw. eapply H; [exact Hw|].
  unfold real_dst. destruct (is_dir t dst); auto.
Qed.

Lemma lr_write_bytes p data :
  (forall t t', write_file p data t = Ok t' -> L t t') ->
  keeps R (write_bytes p data).
Proof.
  intros H. unfold write_bytes.
  apply (keeps_bind R lr_trans); [apply lr_emit | intros _].
  now apply lr_lift_live.
Qed.

Lemma lr_unlink p : (forall t, L t (upd t p None)) -> keeps R (unlink p).
Proof.
  intros H. unfold unlink.
  apply (keeps_bind R lr_trans); [apply lr_emit | intros _].
  now apply (lr_set_live (fun t => upd t p None)).
Qed.

Lemma lr_rmtree p : (forall t, L t (prune t p)) -> keeps R (rmtree p).
Proof.
  intros H. unfold rmtree.
  apply (keeps_bind R lr_trans); [apply lr_emit | intros _].
  now apply (lr_set_live (fun t => prune t p)).
Qed.

Lemma lr_move src dst :
  (forall p t t', mkdir_from [] (parent p) t = Ok t' ->
                  p = dst \/ p = dst ++ [name src] -> L t t') ->
  (forall p t sub, p = dst \/ p = dst ++ [name src] -> L t (graft t p sub)) ->
  keeps R (move src dst).
Proof.
  intros Hm Hg. unfold move.
  apply (keeps_bind R lr_trans); [apply lr_emit | intros _].
  intros s. unfold bind, gets, id. cbv beta iota.
  assert (Hstep : forall p, p = dst \/ p = dst ++ [name src] ->
    R s (snd ((if exists_ (live s) p then raise FileExistsError
               else
                 lift_live (mkdir_from [] (parent p)) ;;
                 t <- gets live ;;
                 set_live (graft t p (subtree (tmp s) src)) ;;
                 set_tmp (prune (tmp s) src)) s))).
  { intros p Hp. destruct (exists_ (live s) p); [apply L_refl|].
    unfold bind, lift_live.
    destruct (mkdir_from [] (parent p) (live s)) as [t1|e] eqn:E; simpl;
      [|apply L_refl].
    eapply L_trans; [eapply Hm; eauto | apply Hg, Hp]. }
  destruct (is_dir (live s) dst).
  - destruct (exists_ (live s) (dst ++ [name src])); [apply L_refl|].
    unfold ret. apply Hstep. now right.
  - unfold ret. apply Hstep. now left.
Qed.

End LiveRel.

(* ================================================================== *)
(** * The merge only adds and overwrites *)

Section Persists.

Lemma persists_refl t : persists t t.
Proof. intros q _. reflexivity. Qed.

Lemma persists_trans a b c : persists a b -> persists b c -> persists a c.
Proof.
  intros H1 H2 q Hq. rewrite <- (H1 q Hq). apply H2.
  intros Hb. specialize (H1 q Hq). rewrite Hb in H1.
  destruct (a q) as [[?|]|]; simpl in H1; congruence.
Qed.

(** [mkdir] changes nothing that exists. *)
Lemma mkdir_from_existing rest : forall pre t t' q,
  mkdir_from pre rest t = Ok t' -> t q <> None -> t' q = t q.
Proof.
  induction rest as [|c rest IH]; intros pre t t' q H Hq; simpl in H.
  - congruence.
  - destruct (t (pre ++ [c])) as [[d|]|] eqn:E.
    + discriminate.
    + eapply IH; eauto.
    + assert (Hne : q <> pre ++ [c]) by congruence.
      rewrite (IH _ _ _ q H); [now apply upd_other|].
      now rewrite upd_other.
Qed.

Lemma mkdir_from_persists pre rest t t' :
  mkdir_from pre rest t = Ok t' -> persists t t'.
Proof.
  intros H q Hq. now rewrite (mkdir_from_existing _ _ _ _ _ H Hq).
Qed.

Lemma write_file_persists p data t t' :
  write_file p data t = Ok t' -> persists t t'.
Proof.
  intros H q Hq. destruct (list_eq_dec string_dec q p) as [->|Hne].
  - rewrite (write_file_at _ _ _ _ H). unfold write_file in H.
    destruct p as [|c p]; [discriminate|]. simpl stat at 1 in H.
    destruct (t (c :: p)) as [[d|]|]; [reflexivity | discriminate | congruence].
  - now rewrite (write_file_frame _ _ _ _ _ H Hne).
Qed.

Lemma copy_files_persists items root files : forall n,
  keeps (fun s s' => persists (live s) (live s'))
        (copy_files items root files n).
Proof.
  induction files as [|[f data] files IH]; intros n; simpl.
  - intros s. apply persists_refl.
  - destruct (skip items (root ++ [f])); [apply IH|].
    apply (keeps_bind _ (lr_trans persists persists_trans)).
    { apply (lr_mkdir_parents persists persists_refl persists_trans).
      intros t t'. apply mkdir_from_persists. }
    intros _. apply (keeps_bind _ (lr_trans persists persists_trans)).
    { apply (lr_copy2_data persists persists_refl persists_trans).
      intros p t t' H _. eapply write_file_persists, H. }
    intros _. apply IH.
Qed.

Lemma merge_persists items visits : forall n,
  keeps (fun s s' => persists (live s) (live s')) (merge items visits n).
Proof.
  induction visits as [|[root files] visits IH]; intros n; simpl.
  - intros s. apply persists_refl.
  - apply (keeps_bind _ (lr_trans persists persists_trans));
      [apply copy_files_persists | intros n'; apply IH].
Qed.

(** What is neither a target of the merge nor the place inside a target
    where [copy2] lands keeps its content, when it exists. *)
Lemma copy_files_stale items root files q e : forall n,
  (forall f, In f files -> q <> root ++ [fst f] /\
                           q <> (root ++ [fst f]) ++ [fst f]) ->
  keeps (fun s s' => live s q = Some e -> live s' q = Some e)
        (copy_files items root files n).
Proof.
  set (L := fun t t' : fs => t q = Some e -> t' q = Some e).
  assert (Lr : forall t, L t t) by (intros t H; exact H).
  assert (Lt : forall a b c, L a b -> L b c -> L a c)
    by (unfold L; intros a b c H1 H2 H; auto).
  induction files as [|[f data] files IH]; intros n Hq; simpl.
  - intros s H. exact H.
  - assert (Hrest : forall f0, In f0 files ->
              q <> root ++ [fst f0] /\ q <> (root ++ [fst f0]) ++ [fst f0])
      by (intros f0 Hf0; apply Hq; now right).
    destruct (Hq (f, data) (or_introl eq_refl)) as [Hq1 Hq2]. simpl in Hq1, Hq2.
    destruct (skip items (root ++ [f])); [now apply IH|].
    apply (keeps_bind _ (lr_trans L Lt)).
    { apply (lr_mkdir_parents L Lr Lt).
      intros t t' H Ht. rewrite <- Ht.
      eapply mkdir_from_existing; [exact H | congruence]. }
    intros _. apply (keeps_bind _ (lr_trans L Lt)).
    { apply (lr_copy2_data L Lr Lt).
      intros p t t' H Hp Ht. rewrite <- Ht.
      eapply write_file_frame; [exact H|].
      destruct Hp as [-> | ->]; assumption. }
    intros _. now apply IH.
Qed.

Lemma merge_stale items visits q e : forall n,
  ~ In q (targets visits) ->
  (forall t, In t (targets visits) -> q <> t ++ [name t]) ->
  keeps (fun s s' => live s q = Some e -> live s' q = Some e)
        (merge items visits n).
Proof.
  set (L := fun t t' : fs => t q = Some e -> t' q = Some e).
  assert (Lt : forall a b c, L a b -> L b c -> L a c)
    by (unfold L; intros a b c H1 H2 H; auto).
  induction visits as [|[root files] visits IH]; intros n H1 H2; simpl.
  - intros s H. exact H.
  - unfold targets in H1, H2. simpl in H1, H2.
    apply (keeps_bind _ (lr_trans L Lt)).
    + apply copy_files_stale. intros f Hf.
      assert (Hin : In (root ++ [fst f])
                       (map (fun f0 => root ++ [fst f0]) files))
        by (apply in_map_iff; eauto).
      split.
      * intros ->. apply H1, in_or_app. now left.
      * rewrite <- (name_snoc root (fst f)) at 2.
        apply H2, in_or_app. now left.
    + intros n'. apply IH.
      * intros Hc. apply H1, in_or_app. now right.
      * intros t Ht. apply H2, in_or_app. now right.
Qed.

End Persists.

(** X7.  The merge loop only adds and overwrites.  Whatever the source holds
    and wherever the loop stops, every entry of the working directory is
    still there afterwards, a file as a file and a directory as a
    directory; and an entry that is neither a target of the loop nor the
    place inside a target directory where [copy2] lands keeps its
    content. *)
Theorem merge_never_removes
    (items : list string) (visits : list (path * list (string * list byte)))
    (files_updated : nat) (s : state) :
  persists (live s) (live (snd (merge items visits files_updated s))) /\
  (forall q, live s q <> None ->
     ~ In q (targets visits) ->
     (forall t, In t (targets visits) -> q <> t ++ [name t]) ->
     live (snd (merge items visits files_updated s)) q = live s q).
Proof.
  split.
  - apply merge_persists.
  - intros q Hq H1 H2. destruct (live s q) as [e|] eqn:E; [|congruence].
    now apply (merge_stale items visits q e files_updated H1 H2 s).
Qed.

(* ================================================================== *)
(** * What the merge counts *)

Section Counting.

Lemma copies_app a b : copies (a ++ b) = copies a ++ copies b.
Proof. unfold copies. apply flat_map_app. Qed.

Lemma mkdir_parents_log p s :
  log (snd (mkdir_parents p s)) = log s ++ [Call (Mkdir p)].
Proof.
  unfold mkdir_parents, bind, emit, lift_live. simpl.
  destruct (mkdir_from [] p (live s)); reflexivity.
Qed.

Lemma copy2_data_log nm data dst s :
  log (snd (copy2_data nm data dst s)) = log s ++ [Call (Copy2 dst)].
Proof.
  unfold copy2_data, bind, emit, lift_live. simpl.
  destruct (write_file _ data (live s)); reflexivity.
Qed.

Lemma copied_one items root files :
  copied items [(root, files)]
  = filter (fun t => negb (skip items t))
           (map (fun f => root ++ [fst f]) files).
Proof. unfold copied, targets. simpl. now rewrite app_nil_r. Qed.

Lemma copy_files_count items root files : forall n s,
  exists evs,
    log (snd (copy_files items root files n s)) = log s ++ evs /\
    match fst (copy_files items root files n s) with
    | Ok n' =>
        copies evs = copied items [(root, files)] /\
        n' = n + length (copied items [(root, files)])
    | Raise _ =>
        exists rest, copied items [(root, files)] = copies evs ++ rest
    end.
Proof.
  rewrite copied_one.
  induction files as [|[f data] files IH]; intros n s; simpl.
  - exists []. rewrite app_nil_r. split; [reflexivity|]. split; [reflexivity | lia].
  - destruct (skip items (root ++ [f])) eqn:E; simpl; [apply IH|].
    rewrite parent_snoc.
    pose proof (mkdir_parents_log root s) as Hm.
    destruct (mkdir_parents root s) as [[[]|e] s1] eqn:Em; simpl in Hm.
    + rewrite (bind_run _ _ _ _ _ Em).
      pose proof (copy2_data_log f data (root ++ [f]) s1) as Hc.
      destruct (copy2_data f data (root ++ [f]) s1) as [[[]|e] s2] eqn:Ec;
        simpl in Hc.
      * rewrite (bind_run _ _ _ _ _ Ec).
        destruct (IH (n + 1) s2) as [evs [Hl Hr]].
        exists ([Call (Mkdir root); Call (Copy2 (root ++ [f]))] ++ evs).
        split.
        { rewrite Hl, Hc, Hm, <- !app_assoc. reflexivity. }
        destruct (fst (copy_files items root files (n + 1) s2)) as [n'|e].
        -- destruct Hr as [Hr ->]. rewrite copies_app, Hr. simpl.
           split; [reflexivity | lia].
        -- destruct Hr as [rest Hr]. exists rest.
           rewrite copies_app, Hr. reflexivity.
      * rewrite (bind_run_raise _ _ _ _ _ Ec).
        exists [Call (Mkdir root); Call (Copy2 (root ++ [f]))].
        split; [simpl; rewrite Hc, Hm, <- app_assoc; reflexivity|].
        simpl. eexists. reflexivity.
    + rewrite (bind_run_raise _ _ _ _ _ Em).
      exists [Call (Mkdir root)]. split; [exact Hm|].
      simpl. eexists. reflexivity.
Qed.

Lemma copied_cons items root files visits :
  copied items ((root, files) :: visits)
  = copied items [(root, files)] ++ copied items visits.
Proof.
  unfold copied, targets. simpl. rewrite app_nil_r. apply filter_app.
Qed.

Lemma merge_count items visits : forall n s,
  exists evs,
    log (snd (merge items visits n s)) = log s ++ evs /\
    match fst (merge items visits n s) with
    | Ok n' =>
        copies evs = copied items visits /\
        n' = n + length (copied items visits)
    | Raise _ => exists rest, copied items visits = copies evs ++ rest
    end.
Proof.
  induction visits as [|[root files] visits IH]; intros n s.
  - exists []. simpl. rewrite app_nil_r. split; [reflexivity|].
    split; [reflexivity | unfold copied; simpl; lia].
  - simpl merge. rewrite copied_cons.
    destruct (copy_files_count items root files n s) as [e1 [Hl1 Hr1]].
    destruct (copy_files items root files n s) as [[n1|e] s1] eqn:Ec;
      simpl in Hl1, Hr1.
    + rewrite (bind_run _ _ _ _ _ Ec).
      destruct Hr1 as [Hc1 ->].
      destruct (IH (n + length (copied items [(root, files)])) s1)
        as [e2 [Hl2 Hr2]].
      exists (e1 ++ e2). split; [rewrite Hl2, Hl1, app_assoc; reflexivity|].
      destruct (fst (merge items visits _ s1)) as [n'|e].
      * destruct Hr2 as [Hc2 ->].
        rewrite copies_app, Hc1, Hc2, List.length_app.
        split; [reflexivity | lia].
      * destruct Hr2 as [rest Hr2]. exists rest.
        rewrite copies_app, Hc1, Hr2, app_assoc. reflexivity.
    + rewrite (bind_run_raise _ _ _ _ _ Ec).
      exists e1. split; [exact Hl1|]. simpl.
      destruct Hr1 as [rest Hr1]. exists (rest ++ copied items visits).
      rewrite Hr1, app_assoc. reflexivity.
Qed.

End Counting.

(** X8.  [files_updated] counts the copies.  A merge that completes has called
    [shutil.copy2] once for each file of the walk that the exclusion test
    lets through, in the order of the walk, and returns their number added
    to the count it started from; a merge that stops on an exception has
    made an initial part of these calls. *)
Theorem merge_counts_copies
    (items : list string) (visits : list (path * list (string * list byte)))
    (files_updated : nat) (s : state) :
  exists evs,
    log (snd (merge items visits files_updated s)) = log s ++ evs /\
    match fst (merge items visits files_updated s) with
    | Ok n =>
        copies evs = copied items visits /\
        n = files_updated + length (copied items visits)
    | Raise _ => exists rest, copied items visits = copies evs ++ rest
    end.
Proof. apply merge_count. Qed.

(* ================================================================== *)
(** * What the restore loop leaves alone *)

Section RestoreFrame.
Variable q : path.
Variable e0 : option entry.

Let L (t t' : fs) : Prop := t q = e0 -> t' q = e0.

Lemma entry_refl t : L t t.
Proof. intros H. exact H. Qed.

Lemma entry_trans a b c : L a b -> L b c -> L a c.
Proof. unfold L. auto. Qed.

Lemma strip_prefix_grow (p x : path) :
  strip_prefix p q = None -> strip_prefix (p ++ x) q = None.
Proof.
  intros H. destruct (strip_prefix (p ++ x) q) as [r|] eqn:E; [|reflexivity].
  apply strip_prefix_Some in E. rewrite <- app_assoc in E.
  rewrite E, strip_prefix_app in H. discriminate.
Qed.

Lemma strip_prefix_parent (p : path) :
  strip_prefix q p = None -> strip_prefix q (parent p) = None.
Proof.
  intros H. destruct (strip_prefix q (parent p)) as [r|] eqn:E; [|reflexivity].
  apply strip_prefix_Some in E.
  destruct p as [|c p]; [simpl in E|].
  - symmetry in E. apply app_eq_nil in E as [-> _]. discriminate.
  - destruct (parent_split (c :: p)) as [x [_ Hx]]; [discriminate|].
    rewrite E, <- app_assoc in Hx. rewrite Hx, strip_prefix_app in H.
    discriminate.
Qed.

(** [mkdir] changes nothing that exists, and creates nothing beside the
    path it is given. *)
Lemma mkdir_from_entry p t t' :
  mkdir_from [] p t = Ok t' ->
  (e0 = None -> strip_prefix q p = None) -> L t t'.
Proof.
  intros H Hq Ht. rewrite <- Ht.
  destruct (t q) as [e|] eqn:E.
  - rewrite <- E. eapply mkdir_from_existing; [exact H | congruence].
  - rewrite <- E. eapply mkdir_from_frame; [exact H|].
    intros r1 r2 _ -> Hc. simpl in Hc. subst r1.
    rewrite strip_prefix_app in Hq. specialize (Hq (eq_sym Ht)).
    discriminate.
Qed.

(** One round of the restore loop. *)
Lemma restore_step_entry item b :
  (Path item = q /\ exists data, b = Bytes data /\ e0 = Some (File data)) \/
  (strip_prefix (Path item) q = None /\
   (e0 = None -> strip_prefix q (Path item) = None)) ->
  keeps (fun s s' => L (live s) (live s'))
    (match b with
     | Bytes data =>
         mkdir_parents (parent (Path item)) ;;
         write_bytes (Path item) data
     | BackupDir backup_dir =>
         t <- gets live ;;
         (if exists_ t (Path item) then
            if is_file t (Path item) then unlink (Path item)
            else rmtree (Path item)
          else ret tt) ;;
         move backup_dir (Path item)
     end).
Proof.
  pose proof (lr_trans L entry_trans) as Rt.
  pose proof (lr_refl L entry_refl) as Rr.
  intros [[Hp [data [-> He]]] | [Hout Hin]].
  - apply (keeps_bind _ Rt); [| intros _].
    + apply (lr_mkdir_parents L entry_refl entry_trans).
      intros t t' H. eapply mkdir_from_entry; [exact H|].
      intros Hn. congruence.
    + apply (lr_write_bytes L entry_refl entry_trans).
      intros t t' H _. rewrite Hp in H. rewrite He.
      eapply write_file_at, H.
  - assert (Hne : q <> Path item).
    { intros ->. rewrite strip_prefix_refl in Hout. discriminate. }
    destruct b as [data | backup_dir].
    + apply (keeps_bind _ Rt); [| intros _].
      * apply (lr_mkdir_parents L entry_refl entry_trans).
        intros t t' H. eapply mkdir_from_entry; [exact H|].
        intros Hn. now apply strip_prefix_parent, Hin.
      * apply (lr_write_bytes L entry_refl entry_trans).
        intros t t' H Ht. rewrite <- Ht.
        eapply write_file_frame; eauto.
    + apply (keeps_bind _ Rt); [apply (keeps_gets _ Rr) | intros t0].
      apply (keeps_bind _ Rt); [| intros _].
      * apply keeps_if; [apply keeps_if | apply (keeps_ret _ Rr)].
        -- apply (lr_unlink L entry_refl entry_trans).
           intros t Ht. rewrite <- Ht. now apply upd_other.
        -- apply (lr_rmtree L entry_refl entry_trans).
           intros t Ht. rewrite <- Ht. unfold prune. now rewrite Hout.
      * apply (lr_move L entry_refl entry_trans).
        -- intros p t t' H Hp. eapply mkdir_from_entry; [exact H|].
           intros Hn. destruct Hp as [-> | ->].
           ++ now apply strip_prefix_parent, Hin.
           ++ rewrite parent_snoc. now apply Hin.
        -- intros p t sub Hp Ht. rewrite <- Ht. unfold graft.
           destruct Hp as [-> | ->]; [now rewrite Hout|].
           now rewrite strip_prefix_grow.
Qed.

Lemma restore_entry d :
  (forall item b, In (item, b) d ->
     (Path item = q /\ exists data, b = Bytes data /\ e0 = Some (File data)) \/
     (strip_prefix (Path item) q = None /\
      (e0 = None -> strip_prefix q (Path item) = None))) ->
  keeps (fun s s' => L (live s) (live s')) (restore d).
Proof.
  pose proof (lr_trans L entry_trans) as Rt.
  pose proof (lr_refl L entry_refl) as Rr.
  induction d as [|[item b] d IH]; intros H; simpl.
  - apply (keeps_ret _ Rr).
  - apply (keeps_bind _ Rt); [| intros _; apply IH].
    + apply restore_step_entry. apply H. now left.
    + intros item' b' Hin. apply H. now right.
Qed.

End RestoreFrame.

(* ================================================================== *)
(** * What an update leaves alone *)

Section UpdateFrame.
Variable w : world.
Hypothesis Hperm : Permutation (iter_order w) preserve_items.
Variable q : path.
Hypothesis q_skipped : skip (iter_order w) q = true.

Lemma apply_update_entry src d rc e0 :
  (forall item b, In (item, b) d ->
     (Path item = q /\ exists data, b = Bytes data /\ e0 = Some (File data)) \/
     (strip_prefix (Path item) q = None /\
      (e0 = None -> strip_prefix q (Path item) = None))) ->
  keeps (fun s s' => live s q = e0 -> live s' q = e0)
        (apply_update w src d rc).
Proof.
  intros Hd.
  pose proof (lr_trans _ (entry_trans q e0)) as Rt.
  pose proof (lr_refl _ (entry_refl q e0)) as Rr.
  pose proof (lr_emit _ (entry_refl q e0)) as Re.
  unfold apply_update.
  apply (keeps_bind _ Rt); [apply Re | intros _].
  apply (keeps_bind _ Rt); [| intros n].
  { intros s Hs. rewrite <- Hs.
    apply (merge_skip (iter_order w) (slash_ok_perm _ Hperm)
             (walk [] src) 0 s q q_skipped). }
  apply (keeps_bind _ Rt); [apply Re | intros _].
  apply (keeps_bind _ Rt); [now apply restore_entry | intros _].
  apply (keeps_ret _ Rr).
Qed.

Lemma prepare_live s : live (snd (prepare w s)) = live s.
Proof.
  apply (q_prepare (fun a b => live b = live a)); try reflexivity.
  intros a b c H1 H2. congruence.
Qed.

Lemma body_entry s :
  tmp s = empty_fs ->
  (forall item, In item preserve_items ->
     (Path item = q /\ live s q <> Some Dir) \/ beside (Path item) q) ->
  live (snd (body w s)) q = live s q.
Proof.
  intros Ht Hq. unfold body.
  destruct (download_ok w) eqn:Hd.
  - destruct (archive w) as [[|[nm src] rest]|] eqn:Ha.
    + now rewrite (bind_run _ _ _ _ _ (prepare_empty w s Hd Ha)).
    + unfold bind. rewrite (prepare_snapshot w s nm src rest Hd Ha).
      destruct (snapshot_from_empty w (fetched s) Hperm Ht)
        as [d [sp [Hs [Hl [_ [_ [_ Hg]]]]]]].
      rewrite Hs. simpl in Hl, Hg.
      rewrite <- Hl.
      apply (apply_update_entry src d (verdict (live sp) src) (live sp q));
        [|reflexivity].
      intros item b Hin. destruct (Hg item b Hin) as [Hi Hb].
      destruct (Hq item Hi) as [[Hp Hnd] | [H1 H2]].
      * left. split; [exact Hp|]. rewrite Hl.
        destruct b as [data | bd].
        -- exists data. split; [reflexivity|]. now rewrite <- Hp.
        -- destruct Hb as [_ [Hb _]]. rewrite Hp in Hb. contradiction.
      * right. split; [exact H1 | intros _; exact H2].
    + now rewrite (bind_run_raise _ _ _ _ _ (prepare_not_zip w s Hd Ha)).
  - now rewrite (bind_run _ _ _ _ _ (prepare_download_failed w s Hd)).
Qed.

(** An entry that the exclusion test protects and that is a preserved
    item which is not a directory, or lies beside all of them, is the same
    after every run of [update_via_zip], however the run ends. *)
Lemma update_via_zip_entry s :
  (forall item, In item preserve_items ->
     (Path item = q /\ live s q <> Some Dir) \/ beside (Path item) q) ->
  live (snd (update_via_zip w s)) q = live s q.
Proof.
  intros Hq. rewrite update_via_zip_unfold.
  destruct (announced_spec w s) as [_ [Hl [Ht _]]].
  unfold try_finally, try_except.
  pose proof (body_entry (announced w s) Ht) as Hb.
  rewrite Hl in Hb. specialize (Hb Hq).
  destruct (body w (announced w s)) as [[r|e] sb]; simpl in *; exact Hb.
Qed.

End UpdateFrame.

(* ================================================================== *)
(** * The configuration file across a run of the script *)

Section Configuration.

Lemma backup_dst_shape w :
  exists x rest,
    backup_dst w = "config" :: ("config.yaml.backup." ++ x)%string :: rest.
Proof.
  unfold backup_dst, Path. simpl.
  destruct (Str.split_slash (now w)) as [|h tl]; simpl.
  - exists "", []. reflexivity.
  - eexists h, _. reflexivity.
Qed.

Lemma config_path_items item :
  In item preserve_items ->
  Path item = config_path \/ beside (Path item) config_path.
Proof.
  simpl. intros H.
  repeat (destruct H as [<- | H]; [(now left) || (right; split; reflexivity)|]).
  contradiction.
Qed.

Lemma backup_dst_items w item :
  In item preserve_items -> beside (Path item) (backup_dst w).
Proof.
  destruct (backup_dst_shape w) as [x [rest ->]].
  simpl. intros H.
  repeat (destruct H as [<- | H]; [split; reflexivity|]).
  contradiction.
Qed.

Lemma backup_dst_skipped w :
  Permutation (iter_order w) preserve_items ->
  skip (iter_order w) (backup_dst w) = true.
Proof.
  intros Hperm. apply skip_spec. exists "config/config.yaml". split.
  - eapply Permutation_in; [symmetry; exact Hperm | simpl; auto].
  - destruct (backup_dst_shape w) as [x [rest ->]].
    destruct rest; reflexivity.
Qed.

Lemma backup_dst_not_config w :
  config_path <> backup_dst w /\
  config_path <> backup_dst w ++ ["config.yaml"].
Proof.
  destruct (backup_dst_shape w) as [x [rest ->]].
  split; intros H; [|destruct rest; discriminate].
  injection H as H _. discriminate.
Qed.

End Configuration.

Section ConfigRun.
Variable w : world.
Hypothesis Hperm : Permutation (iter_order w) preserve_items.
Variable e : option entry.
Hypothesis e_not_dir : e <> Some Dir.

(** The configuration file is [e], and the backup named by [backup_path],
    when it is a file, holds the same. *)
Let inv (backup_path : option path) (t : fs) : Prop :=
  t config_path = e /\
  match backup_path with
  | None => True
  | Some p => p = backup_dst w /\
              forall data, t p = Some (File data) -> e = Some (File data)
  end.

Let P (s : state) : Prop := live s config_path = e.

Lemma post_bind {A B} (backup_path : option path)
    (c : M A) (k : A -> M B) s :
  (forall s0, live (snd (c s0)) = live s0) ->
  (forall a s1, inv backup_path (live s1) -> P (snd (k a s1))) ->
  inv backup_path (live s) -> P (snd (bind c k s)).
Proof.
  intros Hc Hk Hs. unfold bind. specialize (Hc s).
  destruct (c s) as [[a|x] s1]; simpl in *.
  - apply Hk. now rewrite Hc.
  - unfold P. rewrite Hc. apply Hs.
Qed.

Lemma input_live m s : live (snd (input m s)) = live s.
Proof. unfold input, bind, emit. simpl. destruct (stdin s); reflexivity. Qed.

Lemma get_latest_commit_info_live s :
  live (snd (get_latest_commit_info w s)) = live s.
Proof. unfold get_latest_commit_info. destruct (commit_info w); reflexivity. Qed.

Lemma update_dependencies_live s :
  live (snd (update_dependencies w s)) = live s.
Proof.
  set (L := fun t t' : fs => t' = t).
  assert (Lr : forall t, L t t) by reflexivity.
  assert (Lt : forall a b c, L a b -> L b c -> L a c)
    by (unfold L; intros; congruence).
  pose proof (lr_trans L Lt) as Rt.
  pose proof (lr_emit L Lr) as Re.
  revert s. change (keeps (fun a b => L (live a) (live b))
                          (update_dependencies w)).
  unfold update_dependencies.
  apply (keeps_bind _ Rt); [apply Re | intros _].
  apply (keeps_bind _ Rt); [apply (keeps_gets _ (lr_refl L Lr)) | intros t].
  apply keeps_if; [apply Re|].
  apply (keeps_bind _ Rt); [apply Re | intros _].
  apply (keeps_try_except _ Rt); [| intros x; apply Re].
  apply (keeps_bind _ Rt); [| intros _; apply Re].
  apply (lr_same_live L Lr). intros s. now rewrite run_command_run.
Qed.

Lemma update_via_zip_inv backup_path s :
  inv backup_path (live s) ->
  inv backup_path (live (snd (update_via_zip w s))).
Proof.
  intros [H1 H2]. split.
  - rewrite (update_via_zip_entry w Hperm config_path); [exact H1 | |].
    + change config_path with (Path "config/config.yaml" ++ []).
      apply skip_preserved; [exact Hperm | simpl; auto].
    + intros item Hi. destruct (config_path_items item Hi) as [Hp | Hb];
        [left | now right].
      split; [exact Hp | congruence].
  - destruct backup_path as [p|]; [|exact I].
    destruct H2 as [-> H2]. split; [reflexivity|].
    rewrite (update_via_zip_entry w Hperm (backup_dst w)); [exact H2 | |].
    + now apply backup_dst_skipped.
    + intros item Hi. right. now apply backup_dst_items.
Qed.

Lemma restore_config_post backup_path s :
  inv backup_path (live s) -> P (snd (restore_config backup_path s)).
Proof.
  intros [H1 H2]. unfold P.
  destruct backup_path as [p|]; [|exact H1].
  destruct H2 as [-> H2]. unfold restore_config, bind, gets. cbv beta iota.
  simpl fst. simpl snd.
  destruct (exists_ (live s) (backup_dst w)); [|exact H1].
  unfold copy2, bind, gets. cbv beta iota. simpl fst. simpl snd.
  destruct (live s (backup_dst w)) as [[data|]|] eqn:E; try exact H1.
  specialize (H2 data eq_refl).
  unfold copy2_data, bind, emit, lift_live, real_dst, is_dir, print_info.
  simpl. change (Path "config/config.yaml") with config_path.
  rewrite H1, H2.
  destruct (write_file config_path data (live s)) as [t'|x'] eqn:Hw; simpl.
  - exact (write_file_at _ _ _ _ Hw).
  - now rewrite H1.
Qed.

Lemma report_post backup_path r s :
  inv backup_path (live s) -> P (snd (report w backup_path r s)).
Proof.
  intros Hs. assert (H1 : live s config_path = e) by apply Hs.
  unfold report. destruct r as [b | success rc].
  - exact H1.
  - unfold unpack2. erewrite bind_run by reflexivity.
    destruct success.
    + unfold P.
      assert (Hk : forall s0,
        live (snd (((if rc then
               print_info "检测到 requirements.txt 有变化" ;;
               response <- input "是否更新 Python 依赖? (y/n): " ;;
               if affirmative response then update_dependencies w else ret tt
             else ret tt) ;;
            print_success "更新完成！" ;;
            print_info "建议:" ;;
            print_info "1. 检查配置文件 config/config.yaml 是否需要调整" ;;
            print_info "2. 如有备份文件，可手动对比配置差异" ;;
            print_info "3. 重启应用服务以应用更新") s0)) = live s0).
      { set (L := fun t t' : fs => t' = t).
        assert (Lr : forall t, L t t) by reflexivity.
        assert (Lt : forall a b c, L a b -> L b c -> L a c)
          by (unfold L; intros; congruence).
        pose proof (lr_trans L Lt) as Rt.
        pose proof (lr_emit L Lr) as Re.
        change (keeps (fun a b => L (live a) (live b))
          ((if rc then
               print_info "检测到 requirements.txt 有变化" ;;
               response <- input "是否更新 Python 依赖? (y/n): " ;;
               if affirmative response then update_dependencies w else ret tt
             else ret tt) ;;
            print_success "更新完成！" ;;
            print_info "建议:" ;;
            print_info "1. 检查配置文件 config/config.yaml 是否需要调整" ;;
            print_info "2. 如有备份文件，可手动对比配置差异" ;;
            print_info "3. 重启应用服务以应用更新")).
        apply (keeps_bind _ Rt).
        - apply keeps_if; [| apply (keeps_ret _ (lr_refl L Lr))].
          apply (keeps_bind _ Rt); [apply Re | intros _].
          apply (keeps_bind _ Rt); [| intros response].
          + apply (lr_same_live L Lr). apply input_live.
          + apply keeps_if; [| apply (keeps_ret _ (lr_refl L Lr))].
            apply (lr_same_live L Lr). apply update_dependencies_live.
        - intros _. repeat (apply (keeps_bind _ Rt); [apply Re | intros _]).
          apply Re. }
      rewrite Hk. exact H1.
    + assert (Hr : P (snd ((match backup_path with
                            | Some _ => restore_config backup_path
                            | None => ret tt
                            end) s))).
      { destruct backup_path; [now apply restore_config_post | exact H1]. }
      unfold bind.
      destruct ((match backup_path with
                 | Some _ => restore_config backup_path
                 | None => ret tt
                 end) s) as [[[]|x] s1]; exact Hr.
Qed.

Lemma ask_and_update_post backup_path s :
  inv backup_path (live s) -> P (snd (ask_and_update w backup_path s)).
Proof.
  intros Hs. unfold ask_and_update.
  apply (post_bind backup_path); [apply get_latest_commit_info_live | | exact Hs].
  intros commit s1 H1.
  apply (post_bind backup_path); [| | exact H1].
  { intros s0. destruct commit as [[sha msg]|]; reflexivity. }
  intros _ s2 H2.
  apply (post_bind backup_path); [apply input_live | | exact H2].
  intros response s3 H3.
  destruct (negb (affirmative response)); [apply H3|].
  unfold update_and_report, bind.
  pose proof (update_via_zip_inv backup_path s3 H3) as H4.
  destruct (update_via_zip w s3) as [[r|x] s4]; simpl in H4.
  - now apply report_post.
  - apply H4.
Qed.

Lemma copy2_data_run nm data dst s :
  copy2_data nm data dst s
  = match write_file (real_dst (live s) nm dst) data (live s) with
    | Ok t' => (Ok tt, mkState t' (tmp s) (stdin s)
                               (log s ++ [Call (Copy2 dst)]))
    | Raise x => (Raise x, logged s [Call (Copy2 dst)])
    end.
Proof.
  unfold copy2_data, bind, emit, lift_live. simpl.
  destruct (write_file _ data (live s)); reflexivity.
Qed.

Lemma copy2_run src dst s :
  copy2 src dst s
  = match stat (live s) src with
    | Some (File data) => copy2_data (name src) data dst s
    | Some Dir => (Raise IsADirectoryError, s)
    | None => (Raise FileNotFoundError, s)
    end.
Proof.
  unfold copy2, bind, gets. simpl.
  destruct (stat (live s) src) as [[data|]|]; reflexivity.
Qed.

Lemma backup_config_post s :
  live s config_path = e ->
  match backup_config w s with
  | (Ok backup_path, s1) => inv backup_path (live s1)
  | (Raise _, s1) => live s1 config_path = e
  end.
Proof.
  intros H1. unfold backup_config. fold (backup_dst w).
  erewrite bind_run by reflexivity.
  destruct (exists_ (live s) config_path) eqn:Ex.
  - pose proof (copy2_run config_path (backup_dst w) s) as Ec.
    change (stat (live s) config_path) with (live s config_path) in Ec.
    rewrite H1 in Ec.
    destruct e as [[data|]|] eqn:Ee; [| contradiction |].
    + rewrite copy2_data_run in Ec.
      destruct (write_file _ data (live s)) as [t'|x] eqn:Hw.
      * rewrite (bind_run _ _ _ _ _ Ec).
        erewrite bind_run by reflexivity. simpl.
        destruct (backup_dst_not_config w) as [N1 N2].
        assert (Hneq : config_path <> real_dst (live s) (name config_path)
                                               (backup_dst w)).
        { unfold real_dst. destruct (is_dir (live s) (backup_dst w));
            assumption. }
        split.
        -- rewrite (write_file_frame _ _ _ _ _ Hw Hneq). exact H1.
        -- split; [reflexivity|]. intros data' Hd.
           unfold real_dst, is_dir in Hw.
           destruct (backup_dst_shape w) as [x [rest Hshape]].
           assert (Hst : stat (live s) (backup_dst w)
                         = live s (backup_dst w))
             by now rewrite Hshape.
           rewrite Hst in Hw.
           destruct (live s (backup_dst w)) as [[d0|]|] eqn:Eb.
           ++ rewrite (write_file_at _ _ _ _ Hw) in Hd. congruence.
           ++ rewrite (write_file_frame _ _ _ _ _ Hw) in Hd; [congruence|].
              intros Hc. apply (f_equal (@length string)) in Hc.
              rewrite List.length_app in Hc. simpl in Hc. lia.
           ++ rewrite (write_file_at _ _ _ _ Hw) in Hd. congruence.
      * rewrite (bind_run_raise _ _ _ _ _ Ec). exact H1.
    + rewrite (bind_run_raise _ _ _ _ _ Ec). exact H1.
  - split; [exact H1 | exact I].
Qed.

Lemma script_post s : live s config_path = e -> P (snd (script w s)).
Proof.
  intros H1. unfold script, main.
  erewrite bind_run by reflexivity.
  set (s0 := mkState (live s) (tmp s) (stdin s)
               (log s ++ [Print PLAIN "=== MSX Grid 自动更新脚本 ==="])).
  pose proof (backup_config_post s0 H1) as Hb.
  unfold bind.
  destruct (backup_config w s0) as [[backup_path|x] s1].
  - pose proof (ask_and_update_post backup_path s1 Hb) as Ha.
    destruct (ask_and_update w backup_path s1) as [[[]|x] s2]; exact Ha.
  - exact Hb.
Qed.

End ConfigRun.

(** X9.  The script never changes the configuration file.  Whatever the
    archive holds and however the run ends (declined, completed, failed
    half-way, or stopped by an exception), [config/config.yaml] is
    afterwards what it was before: the same file with the same content,
    or still missing. *)
Theorem script_never_changes_config (w : world) (s : state) :
  Permutation (iter_order w) preserve_items ->
  live (snd (script w s)) config_path = live s config_path.
Proof.
  intros Hperm.
  destruct (live s config_path) as [[data|]|] eqn:E.
  - now apply (script_post w Hperm (Some (File data))).
  - (* a directory in the place of the file stops the backup *)
    unfold script, main. erewrite bind_run by reflexivity.
    match goal with
    | |- context [bind (backup_config w) _ ?st] => set (s0 := st)
    end.
    assert (Ec : backup_config w s0 = (Raise IsADirectoryError, s0)).
    { unfold backup_config. erewrite bind_run by reflexivity.
      assert (Hx : exists_ (live s0) config_path = true).
      { unfold exists_.
        change (stat (live s0) config_path) with (live s config_path).
        now rewrite E. }
      rewrite Hx. apply bind_run_raise. rewrite copy2_run.
      change (stat (live s0) config_path) with (live s config_path).
      now rewrite E. }
    rewrite (bind_run_raise _ _ _ _ _ Ec). simpl. exact E.
  - now apply (script_post w Hperm None).
Qed.

Lemma script_never_changes_config_witness :
  live (snd (script (Demo.with_archive None) (start Demo.tree ["y"])))
       config_path
  = live (start Demo.tree ["y"]) config_path.
Proof.
  apply (script_never_changes_config (Demo.with_archive None)
           (start Demo.tree ["y"])).
  apply Permutation_refl.
Defined.

(* ================================================================== *)
(** * A successful update removes nothing *)

Section NeverDeletes.

Lemma region_dec (l : list string) (q : path) :
  (exists item r, In item l /\ q = Path item ++ r) \/
  (forall item, In item l -> strip_prefix (Path item) q = None).
Proof.
  induction l as [|a l [[item [r [Hi Hq]]] | IH]].
  - right. intros item [].
  - left. exists item, r. split; [now right | exact Hq].
  - destruct (strip_prefix (Path a) q) as [r|] eqn:E.
    + left. exists a, r. split; [now left | now apply strip_prefix_Some].
    + right. intros item [<- | Hi]; auto.
Qed.

End NeverDeletes.

(** X10.  A successful update removes nothing.  After a run of [update_via_zip]
    that returns success, every entry of the working directory is still
    there, a file as a file and a directory as a directory: files of an
    older release that the new one no longer has stay where they are. *)
Theorem update_never_deletes
    (w : world) (s s' : state) (requirements_changed : bool) :
  Permutation (iter_order w) preserve_items ->
  update_via_zip w s = (Ok (RPair true requirements_changed), s') ->
  persists (live s) (live s').
Proof.
  intros Hperm H q Hq. rename requirements_changed into rc.
  destruct (region_dec preserve_items q) as [[item [r [Hi ->]]] | Hout].
  - now rewrite (update_via_zip_preserves w s rc s' Hperm H item Hi r).
  - destruct (perm_facts _ Hperm) as [Hincl Hnd].
    apply update_via_zip_success in H
      as [sa [x [sp [sr [Hla [Hta [Hp [Hx ->]]]]]]]].
    destruct x as [r | [[src d] rc']]; [contradiction|].
    apply prepare_inv in Hp as [[Hp _] | Hp]; [discriminate|].
    destruct Hp as [nm [src' [rest [d' [s0 [_ [_ [Hl0 [Ht0 [_ [Hsn E]]]]]]]]]]].
    injection E as -> -> _.
    apply snapshot_good in Hsn
      as [Hl [_ [_ [_ Hg]]]]; auto;
      [ | intros ? [] | constructor | apply good_nil ].
    apply apply_update_inv in Hx as [n [sm [Hm [Hr _]]]].
    simpl.
    pose proof (merge_persists (iter_order w) (walk [] src') 0
                  (mkState (live sp) (tmp sp) (stdin sp)
                     (log sp ++ [Print INFO "正在更新文件..."])) q) as Hk.
    rewrite Hm in Hk. simpl in Hk.
    rewrite Hl, Hl0, Hla in Hk. specialize (Hk Hq).
    rewrite <- Hk. f_equal.
    pose proof (restore_entry q (live sm q) d') as Hre.
    match type of Hr with
    | restore _ ?st = _ => specialize (fun Hc => Hre Hc st eq_refl)
    end.
    rewrite Hr in Hre. simpl in Hre. apply Hre.
    intros item b Hin. right. destruct (Hg item b Hin) as [Hi _].
    split; [now apply Hout|].
    intros Hn. rewrite Hn in Hk. destruct (live s q) as [[?|]|];
      simpl in Hk; congruence.
Qed.

Lemma update_never_deletes_witness :
  persists (live (start Demo.tree []))
           (live (snd (update_via_zip Demo.net (start Demo.tree [])))).
Proof.
  apply (update_never_deletes Demo.net (start Demo.tree [])
           (snd (update_via_zip Demo.net (start Demo.tree []))) false).
  - apply Permutation_refl.
  - apply run_eq. vm_compute. reflexivity.
Defined.

(* ================================================================== *)
(** * The directories that [os.walk] visits *)

Section Walk.

Lemma node_ind' (P : node -> Prop) :
  (forall data, P (FileN data)) ->
  (forall cs, Forall (fun c => P (snd c)) cs -> P (DirN cs)) ->
  forall n, P n.
Proof.
  intros Hf Hd. fix IH 1. intros [data | cs]; [apply Hf|].
  apply Hd. induction cs as [|[nm c] cs IHcs]; constructor;
    [apply IH | exact IHcs].
Qed.

Lemma walk_dir rel_root cs :
  walk rel_root (DirN cs)
  = (rel_root, files_of cs) :: descend rel_root cs false.
Proof.
  simpl. f_equal.
  match goal with
  | |- ?f cs false = _ =>
      assert (H : forall g, f cs g = descend rel_root cs g); [|apply H]
  end.
  induction cs as [|[d c] cs IH]; intros g; [reflexivity|].
  simpl. destruct c as [data | cs'].
  - apply IH.
  - destruct (String.eqb d ".git" && negb g); [apply IH|].
    f_equal. apply IH.
Qed.

Lemma distinct_notin x l :
  existsb (String.eqb x) l = false -> ~ In x l.
Proof.
  intros H Hin. assert (existsb (String.eqb x) l = true); [|congruence].
  apply existsb_exists. exists x. split; [exact Hin | apply String.eqb_refl].
Qed.

Lemma assoc_unique (cs : list (string * node)) d c :
  distinct (map fst cs) = true -> In (d, c) cs -> assoc d cs = Some c.
Proof.
  induction cs as [|[d' c'] cs IH]; simpl; [contradiction|].
  intros H Hin. apply andb_true_iff in H as [H1 H2].
  apply negb_true_iff, distinct_notin in H1.
  destruct Hin as [[= -> ->] | Hin].
  - now rewrite String.eqb_refl.
  - destruct (String.eqb_spec d d') as [->|_]; [|auto].
    exfalso. apply H1. apply in_map_iff. exists (d', c). auto.
Qed.

Lemma assoc_In {A} (cs : list (string * A)) d c :
  assoc d cs = Some c -> In (d, c) cs.
Proof.
  induction cs as [|[d' c'] cs IH]; simpl; [discriminate|].
  destruct (String.eqb_spec d d') as [->|_]; [intros [= ->]; now left|].
  intros H. right. auto.
Qed.

Lemma unique_names_child cs d c :
  unique_names (DirN cs) = true -> In (d, c) cs -> unique_names c = true.
Proof.
  simpl. intros H Hin. apply andb_true_iff in H as [_ H].
  induction cs as [|[d' c'] cs IH]; [contradiction|].
  apply andb_true_iff in H as [H1 H2].
  destruct Hin as [[= -> ->] | Hin]; auto.
Qed.

(** Every visit below a directory lies in a subdirectory that is not
    called [.git]. *)
Lemma descend_inv rel_root ds : forall g v,
  distinct (map fst ds) = true ->
  (g = true -> ~ In ".git" (map fst ds)) ->
  In v (descend rel_root ds g) ->
  exists d c, In (d, c) ds /\ d <> ".git" /\ In v (walk (rel_root ++ [d]) c).
Proof.
  induction ds as [|[d c] ds IH]; intros g v Hd Hg Hv; cbn [descend] in Hv;
    [destruct Hv|].
  simpl in Hd. apply andb_true_iff in Hd as [Hd1 Hd2].
  apply negb_true_iff, distinct_notin in Hd1.
  assert (Hg' : g = true -> ~ In ".git" (map fst ds))
    by (intros E Hc; apply (Hg E); now right).
  assert (Hrest : forall g', (g' = true -> ~ In ".git" (map fst ds)) ->
            In v (descend rel_root ds g') ->
            exists d0 c0, In (d0, c0) ((d, c) :: ds) /\ d0 <> ".git" /\
                          In v (walk (rel_root ++ [d0]) c0)).
  { intros g' H1 H2. destruct (IH g' v Hd2 H1 H2) as [d0 [c0 [H3 H4]]].
    exists d0, c0. split; [now right | exact H4]. }
  destruct c as [data | cs'].
  - now apply (Hrest g).
  - destruct (String.eqb_spec d ".git") as [->|Hne]; cbn [andb] in Hv.
    + destruct g; cbn [negb] in Hv.
      * exfalso. apply (Hg eq_refl). now left.
      * apply (Hrest true); [intros _; exact Hd1 | exact Hv].
    + apply in_app_or in Hv as [Hv | Hv]; [| now apply (Hrest g)].
      exists d, (DirN cs'). split; [now left | auto].
Qed.

(** Every subdirectory that is not called [.git] is walked. *)
Lemma descend_incl rel_root ds : forall g d cs' v,
  In (d, DirN cs') ds -> d <> ".git" ->
  In v (walk (rel_root ++ [d]) (DirN cs')) ->
  In v (descend rel_root ds g).
Proof.
  induction ds as [|[d0 c0] ds IH]; intros g d cs' v Hin Hne Hv;
    [contradiction|].
  cbn [descend]. destruct Hin as [[= -> ->] | Hin].
  - destruct (String.eqb_spec d ".git") as [->|_]; [contradiction|].
    cbn [andb]. apply in_or_app. now left.
  - destruct c0 as [data | cs0]; [eapply IH; eauto|].
    destruct (String.eqb d0 ".git" && negb g); [eapply IH; eauto|].
    apply in_or_app. right. eapply IH; eauto.
Qed.

Lemma walk_sound : forall n rel_root v,
  unique_names n = true -> In v (walk rel_root n) ->
  exists r cs,
    fst v = rel_root ++ r /\ ~ In ".git" r /\
    resolve n r = Some (DirN cs) /\ snd v = files_of cs.
Proof.
  induction n as [data | cs IH] using node_ind'; intros rel_root v Hu Hv;
    [contradiction|].
  rewrite walk_dir in Hv. destruct Hv as [<- | Hv].
  - exists [], cs. rewrite app_nil_r. simpl. auto.
  - assert (Hd : distinct (map fst cs) = true).
    { simpl in Hu. now apply andb_true_iff in Hu as [Hu _]. }
    apply descend_inv in Hv as [d [c [Hin [Hne Hv]]]];
      [| exact Hd | discriminate].
    rewrite Forall_forall in IH.
    destruct (IH (d, c) Hin (rel_root ++ [d]) v
                (unique_names_child cs d c Hu Hin) Hv)
      as [r [cs' [H1 [H2 [H3 H4]]]]].
    exists (d :: r), cs'. repeat split.
    + rewrite H1, <- app_assoc. reflexivity.
    + intros [Hc | Hc]; [congruence | contradiction].
    + simpl. now rewrite (assoc_unique cs d c Hd Hin).
    + exact H4.
Qed.

Lemma walk_complete r : forall n rel_root cs,
  ~ In ".git" r -> resolve n r = Some (DirN cs) ->
  In (rel_root ++ r, files_of cs) (walk rel_root n).
Proof.
  induction r as [|c r IH]; intros n rel_root cs Hg Hr; simpl in Hr.
  - injection Hr as ->. rewrite app_nil_r, walk_dir. now left.
  - destruct n as [data | ds]; [discriminate|]. simpl in Hr.
    destruct (assoc c ds) as [m|] eqn:E; [|discriminate].
    assert (Hm : exists cs', m = DirN cs').
    { destruct m as [data | cs']; [|eauto].
      destruct r; simpl in Hr; discriminate. }
    destruct Hm as [cs' ->].
    rewrite walk_dir. right.
    apply (descend_incl rel_root ds false c cs').
    + now apply assoc_In.
    + intros ->. apply Hg. now left.
    + replace (rel_root ++ c :: r) with ((rel_root ++ [c]) ++ r)
        by (rewrite <- app_assoc; reflexivity).
      apply IH; [|exact Hr]. intros Hc. apply Hg. now right.
Qed.

End Walk.

(** X11.  The walk visits the directories outside [.git], and no others.  In a
    tree in which no directory lists a name twice, [(root, files)] is a
    visit exactly when [root] leads from the top to a directory without
    passing through a directory called [.git], at any depth, and [files]
    are the files of that directory. *)
Theorem walk_visits_outside_git
    (n : node) (rel_root root : path) (files : list (string * list byte)) :
  unique_names n = true ->
  (In (root, files) (walk rel_root n) <->
   exists r cs,
     root = rel_root ++ r /\ ~ In ".git" r /\
     resolve n r = Some (DirN cs) /\ files = files_of cs).
Proof.
  intros Hu. split.
  - intros Hv. exact (walk_sound n rel_root (root, files) Hu Hv).
  - intros [r [cs [-> [Hg [Hr ->]]]]]. now apply walk_complete.
Qed.

Lemma walk_visits_outside_git_witness :
  In (["config"],
      [ ("config.yaml", bytes_of "a: 2");
        ("config.yaml.example", bytes_of "a: 0") ])
     (walk [] Demo.source) <->
  exists r cs,
    ["config"] = [] ++ r /\ ~ In ".git" r /\
    resolve Demo.source r = Some (DirN cs) /\
    [ ("config.yaml", bytes_of "a: 2");
      ("config.yaml.example", bytes_of "a: 0") ] = files_of cs.
Proof.
  apply (walk_visits_outside_git Demo.source [] ["config"]).
  reflexivity.
Defined.

(* ================================================================== *)
(** * What the snapshot loop records *)

Section SnapshotKeys.

Lemma copytree_run src dst s :
  copytree src dst s
  = if exists_ (tmp s) dst then (Raise FileExistsError, s)
    else (Ok tt, mkState (live s) (graft (tmp s) dst (subtree (live s) src))
                         (stdin s) (log s)).
Proof.
  unfold copytree, bind, gets, id. simpl.
  destruct (exists_ (tmp s) dst); reflexivity.
Qed.

Lemma snapshot_run items : forall d s,
  NoDup items ->
  (forall x, In x items -> ~ In x (map fst d)) ->
  match fst (snapshot items d s) with
  | Ok d' => d' = d ++ flat_map (snapshot_of (live s)) items
  | Raise x => x = FileExistsError
  end.
Proof.
  induction items as [|item items IH]; intros d s Hnd Hfresh.
  - simpl. now rewrite app_nil_r.
  - inversion Hnd as [|? ? Hni Hnd']; subst.
    assert (Hfr : ~ In item (map fst d)) by (apply Hfresh; now left).
    assert (Hstep : forall b x, In x items ->
                                ~ In x (map fst (dict_set item b d))).
    { intros b x Hx. rewrite dict_set_fresh by assumption.
      rewrite map_app. simpl. intros Hc.
      apply in_app_or in Hc as [Hc | [<- | []]].
      - apply (Hfresh x); [now right | assumption].
      - contradiction. }
    cbn [snapshot flat_map]. erewrite bind_run by reflexivity.
    unfold snapshot_of at 1.
    destruct (stat (live s) (Path item)) as [[data|]|] eqn:E.
    + specialize (IH (dict_set item (Bytes data) d) s Hnd' (Hstep _)).
      destruct (fst (snapshot items _ s)); [|exact IH].
      rewrite IH, dict_set_fresh, <- app_assoc by assumption. reflexivity.
    + pose proof (copytree_run (Path item) (backup_dir_of item) s) as Hc.
      destruct (exists_ (tmp s) (backup_dir_of item)).
      * rewrite (bind_run_raise _ _ _ _ _ Hc). reflexivity.
      * rewrite (bind_run _ _ _ _ _ Hc).
        match goal with
        | |- context [snapshot items ?d0 ?s0] =>
            specialize (IH d0 s0 Hnd' (Hstep _))
        end.
        destruct (fst (snapshot items _ _)); [|exact IH].
        rewrite IH, dict_set_fresh, <- app_assoc by assumption.
        reflexivity.
    + specialize (IH d s Hnd').
      destruct (fst (snapshot items d s)); [|apply IH].
      * apply IH. intros x Hx. apply Hfresh. now right.
      * intros x Hx. apply Hfresh. now right.
Qed.

End SnapshotKeys.

(** X12.  The snapshot loop records the items that exist, and nothing else: one
    entry for each item of the iteration that is in the working directory,
    in the order of the iteration, the content for a file and the place of
    the copy for a directory.  It leaves the working directory alone, and
    the only exception it can raise is the one of [copytree] on a copy
    that is already there. *)
Theorem snapshot_records_what_exists (items : list string) (s : state) :
  NoDup items ->
  live (snd (snapshot items [] s)) = live s /\
  match fst (snapshot items [] s) with
  | Ok preserve_backup =>
      preserve_backup = flat_map (snapshot_of (live s)) items
  | Raise e => e = FileExistsError
  end.
Proof.
  intros Hnd. split; [apply snapshot_live|].
  apply (snapshot_run items [] s Hnd). intros x _ [].
Qed.

Lemma snapshot_records_what_exists_witness :
  live (snd (snapshot preserve_items [] (start Demo.tree [])))
  = live (start Demo.tree []) /\
  match fst (snapshot preserve_items [] (start Demo.tree [])) with
  | Ok preserve_backup =>
      preserve_backup
      = flat_map (snapshot_of (live (start Demo.tree []))) preserve_items
  | Raise e => e = FileExistsError
  end.
Proof.
  apply (snapshot_records_what_exists preserve_items (start Demo.tree [])).
  repeat constructor; simpl; intuition discriminate.
Defined.

(* ================================================================== *)
(** * What the merge installs *)

Section Installs.
Variable items : list string.
Variable t : path.
Variable data : list byte.
Hypothesis t_not_root : t <> [].

(** Nothing in the way: no directory where the file goes. *)
Let J (a b : fs) : Prop := a t <> Some Dir -> b t <> Some Dir.
(** Installed. *)
Let Q (a b : fs) : Prop := a t = Some (File data) -> b t = Some (File data).

Lemma J_refl a : J a a.
Proof. intros H. exact H. Qed.
Lemma J_trans a b c : J a b -> J b c -> J a c.
Proof. unfold J. auto. Qed.
Lemma Q_refl a : Q a a.
Proof. intros H. exact H. Qed.
Lemma Q_trans a b c : Q a b -> Q b c -> Q a c.
Proof. unfold Q. auto. Qed.

Lemma mkdir_J root a b :
  strip_prefix t root = None -> mkdir_from [] root a = Ok b -> J a b.
Proof.
  intros Hp H Ha.
  rewrite (mkdir_from_entry t (a t) root a b H (fun _ => Hp) eq_refl).
  exact Ha.
Qed.

Lemma write_J p d a b : write_file p d a = Ok b -> J a b.
Proof.
  intros H Ha. destruct (list_eq_dec string_dec t p) as [E|Hne].
  - subst p. rewrite (write_file_at _ _ _ _ H). discriminate.
  - now rewrite (write_file_frame _ _ _ _ _ H Hne).
Qed.

Lemma copy_files_J root files : forall n,
  strip_prefix t root = None ->
  keeps (fun s s' => J (live s) (live s')) (copy_files items root files n).
Proof.
  intros n Hp. revert n.
  induction files as [|[f d] files IH]; intros n; simpl.
  - intros s. apply J_refl.
  - destruct (skip items (root ++ [f])); [apply IH|].
    rewrite parent_snoc.
    apply (keeps_bind _ (lr_trans J J_trans)).
    { apply (lr_mkdir_parents J J_refl J_trans).
      intros a b. now apply mkdir_J. }
    intros _. apply (keeps_bind _ (lr_trans J J_trans)).
    { apply (lr_copy2_data J J_refl J_trans).
      intros p a b H _. eapply write_J, H. }
    intros _. apply IH.
Qed.

Lemma copy_files_Q root files : forall n,
  (forall f, In f files -> t <> (root ++ [fst f]) ++ [fst f]) ->
  (forall f, In f files -> root ++ [fst f] = t -> snd f = data) ->
  keeps (fun s s' => Q (live s) (live s')) (copy_files items root files n).
Proof.
  induction files as [|[f d] files IH]; intros n Hland Hsame; simpl.
  - intros s. apply Q_refl.
  - assert (Hl' : forall f0, In f0 files ->
                             t <> (root ++ [fst f0]) ++ [fst f0])
      by (intros f0 H0; apply Hland; now right).
    assert (Hs' : forall f0, In f0 files -> root ++ [fst f0] = t ->
                             snd f0 = data)
      by (intros f0 H0; apply Hsame; now right).
    destruct (skip items (root ++ [f])); [now apply IH|].
    apply (keeps_bind _ (lr_trans Q Q_trans)).
    { apply (lr_mkdir_parents Q Q_refl Q_trans).
      intros a b H Ha. rewrite <- Ha.
      eapply mkdir_from_existing; [exact H | congruence]. }
    intros _. apply (keeps_bind _ (lr_trans Q Q_trans)).
    { apply (lr_copy2_data Q Q_refl Q_trans).
      intros p a b H Hp Ha.
      destruct (list_eq_dec string_dec t p) as [E|Hne].
      - subst p. rewrite (write_file_at _ _ _ _ H).
        destruct Hp as [Hp | Hp].
        + assert (d = data) as ->
            by exact (Hsame (f, d) (or_introl eq_refl) (eq_sym Hp)).
          reflexivity.
        + exfalso. exact (Hland (f, d) (or_introl eq_refl) Hp).
      - rewrite <- Ha. eapply write_file_frame; eauto. }
    intros _. now apply IH.
Qed.

Lemma merge_J visits : forall n,
  (forall v, In v visits -> strip_prefix t (fst v) = None) ->
  keeps (fun s s' => J (live s) (live s')) (merge items visits n).
Proof.
  induction visits as [|[root files] visits IH]; intros n Hp; simpl.
  - intros s. apply J_refl.
  - apply (keeps_bind _ (lr_trans J J_trans)).
    + apply copy_files_J. apply (Hp (root, files)). now left.
    + intros n'. apply IH. intros v Hv. apply Hp. now right.
Qed.

Lemma merge_Q visits : forall n,
  (forall v f, In v visits -> In f (snd v) ->
               t <> (fst v ++ [fst f]) ++ [fst f]) ->
  (forall v f, In v visits -> In f (snd v) ->
               fst v ++ [fst f] = t -> snd f = data) ->
  keeps (fun s s' => Q (live s) (live s')) (merge items visits n).
Proof.
  induction visits as [|[root files] visits IH]; intros n Hland Hsame; simpl.
  - intros s. apply Q_refl.
  - apply (keeps_bind _ (lr_trans Q Q_trans)).
    + apply copy_files_Q.
      * intros f Hf. apply (Hland (root, files) f); [now left | exact Hf].
      * intros f Hf. apply (Hsame (root, files) f); [now left | exact Hf].
    + intros n'. apply IH.
      * intros v f Hv. apply Hland. now right.
      * intros v f Hv. apply Hsame. now right.
Qed.

(** The round of the inner loop that copies the file. *)
Lemma copy_files_hit root file files : forall n s n' s',
  root ++ [file] = t -> skip items t = false ->
  strip_prefix t root = None ->
  (forall f, In f files -> t <> (root ++ [fst f]) ++ [fst f]) ->
  (forall f, In f files -> root ++ [fst f] = t -> snd f = data) ->
  In (file, data) files ->
  live s t <> Some Dir ->
  copy_files items root files n s = (Ok n', s') ->
  live s' t = Some (File data).
Proof.
  induction files as [|[f d] files IH];
    intros n s n' s' Ht Hskip Hp Hland Hsame Hin Hs H; [contradiction|].
  assert (Hl' : forall f0, In f0 files ->
                           t <> (root ++ [fst f0]) ++ [fst f0])
    by (intros f0 H0; apply Hland; now right).
  assert (Hs' : forall f0, In f0 files -> root ++ [fst f0] = t ->
                           snd f0 = data)
    by (intros f0 H0; apply Hsame; now right).
  simpl in H. destruct Hin as [[= -> ->] | Hin].
  - rewrite Ht, Hskip in H.
    apply bind_Ok in H as [[] [s1 [Hm H]]].
    apply bind_Ok in H as [[] [s2 [Hc H]]].
    pose proof (copy_files_Q root files (n + 1) Hl' Hs' s2) as HQ.
    rewrite H in HQ. apply HQ. clear HQ H.
    unfold mkdir_parents in Hm. apply bind_Ok in Hm as [[] [s0 [He Hm]]].
    injection He as <-. apply lift_live_Ok in Hm as [b [Hm ->]].
    simpl in Hm. rewrite <- Ht, parent_snoc in Hm.
    pose proof (mkdir_J root _ _ Hp Hm Hs) as Hb.
    rewrite copy2_data_run in Hc. simpl in Hc.
    unfold real_dst, is_dir in Hc.
    rewrite stat_nonempty in Hc by assumption.
    destruct (write_file _ data b) as [b'|x] eqn:Hw; [|discriminate].
    injection Hc as <-. simpl.
    destruct (b t) as [[?|]|]; [| congruence |];
      exact (write_file_at _ _ _ _ Hw).
  - assert (Hstep : forall s1,
              live s1 t <> Some Dir ->
              copy_files items root files n s1 = (Ok n', s') \/
              copy_files items root files (n + 1) s1 = (Ok n', s') ->
              live s' t = Some (File data)).
    { intros s1 H1 [H2 | H2]; eapply IH; eauto. }
    destruct (skip items (root ++ [f])); [eapply Hstep; eauto|].
    apply bind_Ok in H as [[] [s1 [Hm H]]].
    apply bind_Ok in H as [[] [s2 [Hc H]]].
    apply (Hstep s2); [|now right].
    pose proof (copy_files_J root [(f, d)] n Hp s) as HJ.
    simpl in HJ. destruct (skip items (root ++ [f])) eqn:E.
    + (* not this branch: the file was copied *)
      clear HJ.
      assert (H1 : live s1 t <> Some Dir).
      { unfold mkdir_parents in Hm.
        apply bind_Ok in Hm as [[] [s0 [He Hm]]].
        injection He as <-. apply lift_live_Ok in Hm as [b [Hm ->]].
        simpl in *. rewrite parent_snoc in Hm.
        exact (mkdir_J root _ _ Hp Hm Hs). }
      rewrite copy2_data_run in Hc.
      destruct (write_file _ d (live s1)) as [b'|x] eqn:Hw; [|discriminate].
      injection Hc as <-. simpl. exact (write_J _ _ _ _ Hw H1).
    + rewrite (bind_run _ _ _ _ _ Hm), (bind_run _ _ _ _ _ Hc) in HJ.
      simpl in HJ. now apply HJ.
Qed.

Lemma merge_hit root file files visits : forall n s n' s',
  root ++ [file] = t -> skip items t = false ->
  (forall v, In v visits -> strip_prefix t (fst v) = None) ->
  (forall v f, In v visits -> In f (snd v) ->
               t <> (fst v ++ [fst f]) ++ [fst f]) ->
  (forall v f, In v visits -> In f (snd v) ->
               fst v ++ [fst f] = t -> snd f = data) ->
  In (root, files) visits -> In (file, data) files ->
  live s t <> Some Dir ->
  merge items visits n s = (Ok n', s') ->
  live s' t = Some (File data).
Proof.
  induction visits as [|[r0 fs0] visits IH];
    intros n s n' s' Ht Hskip Hp Hland Hsame Hv Hf Hs H; [contradiction|].
  simpl in H. apply bind_Ok in H as [n1 [s1 [Hc H]]].
  assert (Hp' : forall v, In v visits -> strip_prefix t (fst v) = None)
    by (intros v H0; apply Hp; now right).
  assert (Hl' : forall v f, In v visits -> In f (snd v) ->
                            t <> (fst v ++ [fst f]) ++ [fst f])
    by (intros v f H0; apply Hland; now right).
  assert (Hs' : forall v f, In v visits -> In f (snd v) ->
                            fst v ++ [fst f] = t -> snd f = data)
    by (intros v f H0; apply Hsame; now right).
  destruct Hv as [[= -> ->] | Hv].
  - pose proof (merge_Q visits n1 Hl' Hs' s1) as HQ.
    rewrite H in HQ. apply HQ.
    eapply (copy_files_hit root file files); eauto.
    + apply (Hp (root, files)). now left.
    + intros f0 H0. apply (Hland (root, files) f0); [now left | exact H0].
    + intros f0 H0. apply (Hsame (root, files) f0); [now left | exact H0].
  - assert (H1 : live s1 t <> Some Dir).
    { pose proof (copy_files_J r0 fs0 n (Hp (r0, fs0) (or_introl eq_refl)) s)
        as HJ.
      rewrite Hc in HJ. now apply HJ. }
    exact (IH n1 s1 n' s' Ht Hskip Hp' Hl' Hs' Hv Hf H1 H).
Qed.

End Installs.

(* ================================================================== *)
(** * The files of a release *)

Section ReleaseFiles.

Lemma resolve_app r x : forall n,
  resolve n (r ++ x)
  = match resolve n r with
    | Some m => resolve m x
    | None => None
    end.
Proof.
  induction r as [|c r IH]; intros n; simpl; [reflexivity|].
  destruct (child n c); [apply IH | reflexivity].
Qed.

Lemma resolve_below_file data x m :
  resolve (FileN data) x = Some m -> x = [] /\ m = FileN data.
Proof. destruct x; simpl; [intros [= <-]; auto | discriminate]. Qed.

Lemma unique_resolve r : forall n m,
  unique_names n = true -> resolve n r = Some m -> unique_names m = true.
Proof.
  induction r as [|c r IH]; intros n m Hu H; simpl in H.
  - now injection H as <-.
  - destruct n as [data | cs]; [discriminate|]. simpl in H.
    destruct (assoc c cs) as [k|] eqn:E; [|discriminate].
    apply (IH k m); [|exact H].
    eapply unique_names_child; [exact Hu | apply assoc_In, E].
Qed.

Lemma files_of_In cs f d : In (f, d) (files_of cs) <-> In (f, FileN d) cs.
Proof.
  unfold files_of. rewrite in_flat_map. split.
  - intros [[f' [d' | cs']] [Hin H]]; simpl in H; [|contradiction].
    destruct H as [[= <- <-] | []]. exact Hin.
  - intros H. exists (f, FileN d). split; [exact H | now left].
Qed.

Lemma unique_distinct cs :
  unique_names (DirN cs) = true -> distinct (map fst cs) = true.
Proof. simpl. intros H. now apply andb_true_iff in H as [H _]. Qed.

Variable src : node.
Hypothesis src_unique : unique_names src = true.
Variable r : path.
Variable file : string.
Variable data : list byte.
Hypothesis Hfile : resolve src (r ++ [file]) = Some (FileN data).

Lemma listed_file cs f d :
  resolve src r = Some (DirN cs) -> In (f, d) (files_of cs) -> f = file ->
  d = data.
Proof.
  intros Hr Hin ->. rewrite resolve_app, Hr in Hfile. simpl in Hfile.
  apply files_of_In in Hin.
  rewrite (assoc_unique cs file (FileN d)) in Hfile; [congruence | | exact Hin].
  apply unique_distinct. eapply unique_resolve; eauto.
Qed.

Lemma release_visit :
  ~ In ".git" r ->
  exists files, In (r, files) (walk [] src) /\ In (file, data) files.
Proof.
  intros Hg. pose proof Hfile as H. rewrite resolve_app in H.
  destruct (resolve src r) as [[d | cs]|] eqn:Hr; try discriminate.
  simpl in H. destruct (assoc file cs) as [m|] eqn:E; [|discriminate].
  injection H as ->.
  exists (files_of cs). split.
  - exact (walk_complete r src [] cs Hg Hr).
  - apply files_of_In, assoc_In, E.
Qed.

Lemma release_no_prefix v :
  In v (walk [] src) -> strip_prefix (r ++ [file]) (fst v) = None.
Proof.
  intros Hv.
  destruct (walk_sound src [] v src_unique Hv) as [r' [cs [H1 [_ [H2 _]]]]].
  simpl in H1.
  destruct (strip_prefix (r ++ [file]) (fst v)) as [x|] eqn:E; [|reflexivity].
  apply strip_prefix_Some in E. rewrite H1 in E. subst r'.
  rewrite E, resolve_app, Hfile in H2.
  apply resolve_below_file in H2 as [_ H2]. discriminate.
Qed.

Lemma release_no_landing v f :
  In v (walk [] src) -> In f (snd v) ->
  r ++ [file] <> (fst v ++ [fst f]) ++ [fst f].
Proof.
  intros Hv Hf E.
  destruct (walk_sound src [] v src_unique Hv) as [r' [cs [H1 [_ [H2 H3]]]]].
  simpl in H1. rewrite H1 in E. apply app_inj_tail in E as [Er Ef].
  rewrite H3 in Hf. destruct f as [f d]. simpl in *.
  apply files_of_In in Hf.
  assert (Hd : distinct (map fst cs) = true).
  { apply unique_distinct. eapply unique_resolve; eauto. }
  pose proof Hfile as H. rewrite resolve_app, Er, resolve_app, H2 in H.
  simpl in H. rewrite (assoc_unique cs f (FileN d) Hd Hf) in H.
  simpl in H. discriminate.
Qed.

Lemma release_same_data v f :
  In v (walk [] src) -> In f (snd v) ->
  fst v ++ [fst f] = r ++ [file] -> snd f = data.
Proof.
  intros Hv Hf E.
  destruct (walk_sound src [] v src_unique Hv) as [r' [cs [H1 [_ [H2 H3]]]]].
  simpl in H1. rewrite H1 in E. apply app_inj_tail in E as [-> Ef].
  rewrite H3 in Hf. destruct f as [f d]. simpl in *.
  now apply (listed_file cs f d).
Qed.

End ReleaseFiles.

(** X13.  A successful update installs the release.  After a run of
    [update_via_zip] that returns success, every file of the release (of a
    tree in which no directory lists a name twice) that is not below a
    directory called [.git] and that the exclusion test lets through is in
    the working directory, at the same relative path and with the content
    of the release, provided the working directory had no directory in
    that place. *)
Theorem update_installs_release_files
    (w : world) (s s' : state) (requirements_changed : bool)
    (top : string) (source_dir : node) (others : list (string * node))
    (r : path) (file : string) (data : list byte) :
  Permutation (iter_order w) preserve_items ->
  update_via_zip w s = (Ok (RPair true requirements_changed), s') ->
  archive w = Some ((top, source_dir) :: others) ->
  unique_names source_dir = true ->
  resolve source_dir (r ++ [file]) = Some (FileN data) ->
  ~ In ".git" r ->
  skip (iter_order w) (r ++ [file]) = false ->
  live s (r ++ [file]) <> Some Dir ->
  live s' (r ++ [file]) = Some (File data).
Proof.
  intros Hperm H Ha Hu Hres Hgit Hskip Hnd.
  destruct (perm_facts _ Hperm) as [Hincl Hndp].
  apply update_via_zip_success in H
    as [sa [x [sp [sr [Hla [Hta [Hp [Hx ->]]]]]]]].
  destruct x as [r0 | [[src d] rc']]; [contradiction|].
  apply prepare_inv in Hp as [[Hp _] | Hp]; [discriminate|].
  destruct Hp as [nm [src' [rest [d' [s0 [_ [Ha' [Hl0 [Ht0 [_ [Hsn E]]]]]]]]]]].
  injection E as -> -> _.
  rewrite Ha in Ha'. injection Ha' as <- <- <-.
  apply snapshot_good in Hsn
    as [Hl [_ [_ [_ Hg]]]]; auto;
    [ | intros ? [] | constructor | apply good_nil ].
  apply apply_update_inv in Hx as [n [sm [Hm [Hr _]]]].
  simpl.
  destruct (release_visit source_dir r file data Hres Hgit)
    as [files [Hv Hf]].
  assert (Hsm : live sm (r ++ [file]) = Some (File data)).
  { eapply (merge_hit (iter_order w) (r ++ [file]) data) with (root := r);
      [ now destruct r | reflexivity | exact Hskip
      | apply (release_no_prefix source_dir Hu r file data Hres)
      | apply (release_no_landing source_dir Hu r file data Hres)
      | apply (release_same_data source_dir Hu r file data Hres)
      | exact Hv | exact Hf | | exact Hm ].
    simpl. now rewrite Hl, Hl0, Hla. }
  pose proof (restore_entry (r ++ [file]) (Some (File data)) d') as Hre.
  match type of Hr with
  | restore _ ?st = _ => specialize (fun Hc => Hre Hc st Hsm)
  end.
  rewrite Hr in Hre. simpl in Hre. apply Hre.
  intros item b Hin. right. destruct (Hg item b Hin) as [Hi _].
  split; [|discriminate].
  destruct (strip_prefix (Path item) (r ++ [file])) as [x|] eqn:E;
    [|reflexivity].
  apply strip_prefix_Some in E.
  rewrite E, (skip_preserved _ item x Hperm Hi) in Hskip. discriminate.
Qed.

Lemma update_installs_release_files_witness :
  live (snd (update_via_zip Demo.net (start Demo.tree []))) ([] ++ ["app.py"])
  = Some (File (bytes_of "print(2)")).
Proof.
  apply (update_installs_release_files Demo.net (start Demo.tree [])
           (snd (update_via_zip Demo.net (start Demo.tree []))) false
           "msx_grid-main" Demo.source [] [] "app.py" (bytes_of "print(2)")).
  - apply Permutation_refl.
  - apply run_eq. vm_compute. reflexivity.
  - reflexivity.
  - reflexivity.
  - reflexivity.
  - intros [].
  - reflexivity.
  - vm_compute. discriminate.
Defined.

(* ================================================================== *)
(** * How a run of the script can end *)

Section Endings.

Lemma ro_update_via_zip w : raises_only (fun _ => False) (update_via_zip w).
Proof.
  intros s. rewrite update_via_zip_unfold.
  destruct (guarded_value (body w) (announced w s)) as [r [s' [E _]]].
  now rewrite E.
Qed.

Lemma ro_report w bp r : raises_only ends_main (report w bp r).
Proof.
  destruct r as [b | success rc].
  - intros s. simpl. right. now right.
  - apply (ro_weaken (fun e => is_os_error e \/ e = EOFError));
      [| apply ro_report_pair].
    intros e [H | H]; [now left | right; now left].
Qed.

Lemma ro_get_latest_commit_info P w :
  raises_only P (get_latest_commit_info w).
Proof.
  unfold get_latest_commit_info. destruct (commit_info w); [apply ro_ret|].
  apply ro_bind; [apply ro_emit | intros _; apply ro_ret].
Qed.

Lemma ro_main w : raises_only ends_main (main w).
Proof.
  unfold main.
  apply ro_bind; [apply ro_emit | intros _].
  apply ro_bind; [| intros bp].
  { apply (ro_weaken is_os_error); [intros e H; now left|].
    apply ro_backup_config. }
  unfold ask_and_update.
  apply ro_bind; [apply ro_get_latest_commit_info | intros commit].
  apply ro_bind; [| intros _].
  { destruct commit as [[sha msg]|]; [apply ro_emit | apply ro_ret]. }
  apply ro_bind; [apply ro_input; right; now left | intros response].
  apply ro_if; [apply ro_emit|].
  unfold update_and_report.
  apply ro_bind; [| intros r; apply ro_report].
  apply (ro_weaken (fun _ => False)); [intros e [] | apply ro_update_via_zip].
Qed.

End Endings.

(** X14.  The script ends with status 0 when [main] returns and with status 1
    when it raises, and [main] can only raise an exception of the file
    system (from the backup or the restoring of the configuration), the
    end of the input at a prompt, or the [TypeError] of the unpacking.
    Nothing that goes wrong inside [update_via_zip] or in [pip] ends the
    script. *)
Theorem script_exit_status (w : world) (s : state) :
  match fst (main w s) with
  | Ok _ => fst (script w s) = 0
  | Raise e => fst (script w s) = 1 /\ ends_main e
  end.
Proof.
  pose proof (ro_main w s) as H. unfold script.
  destruct (main w s) as [[[]|e] s1]; simpl in *; auto.
Qed.

(* ================================================================== *)
(** * What the script asks *)

Section Asking.

Lemma prompts_app a b : prompts (a ++ b) = prompts a ++ prompts b.
Proof. unfold prompts. apply flat_map_app. Qed.

Lemma asks_app p1 p2 a b c :
  asks p1 a b -> asks p2 b c -> asks (p1 ++ p2) a c.
Proof.
  intros [e1 [t1 [L1 [P1 [S1 N1]]]]] [e2 [t2 [L2 [P2 [S2 N2]]]]].
  exists (e1 ++ e2), (t1 ++ t2). repeat split.
  - now rewrite L2, L1, app_assoc.
  - now rewrite prompts_app, P1, P2.
  - now rewrite S1, S2, app_assoc.
  - rewrite !List.length_app. lia.
Qed.

Lemma asks_refl s : asks [] s s.
Proof. exists [], []. rewrite app_nil_r. auto. Qed.

Lemma asks_trans a b c : asks [] a b -> asks [] b c -> asks [] a c.
Proof. apply (asks_app [] []). Qed.

Lemma asks_live s t : asks [] s (mkState t (tmp s) (stdin s) (log s)).
Proof. exists [], []. simpl. rewrite app_nil_r. auto. Qed.

Lemma asks_tmp s t : asks [] s (mkState (live s) t (stdin s) (log s)).
Proof. exists [], []. simpl. rewrite app_nil_r. auto. Qed.

Lemma asks_log s e :
  is_print_or_call e ->
  asks [] s (mkState (live s) (tmp s) (stdin s) (log s ++ [e])).
Proof.
  intros He. exists [e], []. simpl. repeat split; auto.
  destruct e; simpl in *; [reflexivity | contradiction | reflexivity].
Qed.

Let quiet {A} (c : M A) : Prop := keeps (asks []) c.

Lemma quiet_exactly {A} (c : M A) : quiet c -> exactly [] c.
Proof.
  intros H s. specialize (H s).
  destruct (fst (c s)); [exact H | exists [], []; auto].
Qed.

Lemma exactly_within {A} full (c : M A) : exactly full c -> within full c.
Proof.
  intros H s. specialize (H s).
  destruct (fst (c s)); [exists full, []; now rewrite app_nil_r | exact H].
Qed.

Lemma quiet_within {A} full (c : M A) : quiet c -> within full c.
Proof. intros H s. exists [], full. split; [reflexivity | apply H]. Qed.

Lemma bind_exactly {A B} f1 f2 (c : M A) (k : A -> M B) :
  exactly f1 c -> (forall a, within f2 (k a)) -> within (f1 ++ f2) (bind c k).
Proof.
  intros Hc Hk s. unfold bind. specialize (Hc s).
  destruct (c s) as [[a|e] s1]; simpl in *.
  - destruct (Hk a s1) as [ps [rest [-> Ha]]].
    exists (f1 ++ ps), rest. split; [now rewrite app_assoc|].
    now apply (asks_app f1 ps s s1).
  - destruct Hc as [ps [rest [-> Ha]]].
    exists ps, (rest ++ f2). split; [now rewrite app_assoc | exact Ha].
Qed.

Lemma bind_quiet {A B} full (c : M A) (k : A -> M B) :
  quiet c -> (forall a, within full (k a)) -> within full (bind c k).
Proof.
  intros Hc Hk. apply (bind_exactly [] full); [now apply quiet_exactly | exact Hk].
Qed.

Lemma bind_then_quiet {A B} full (c : M A) (k : A -> M B) :
  within full c -> (forall a, quiet (k a)) -> within full (bind c k).
Proof.
  intros Hc Hk s. unfold bind. specialize (Hc s).
  destruct (c s) as [[a|e] s1]; simpl in *; [|exact Hc].
  destruct Hc as [ps [rest [-> Ha]]]. exists ps, rest.
  split; [reflexivity|]. rewrite <- (app_nil_r ps).
  apply (asks_app ps [] s s1); [exact Ha | apply Hk].
Qed.

Lemma input_exactly m : exactly [m] (input m).
Proof.
  intros s. unfold input, bind, emit. simpl.
  destruct (stdin s) as [|l ls] eqn:E; simpl.
  - exists [m], []. split; [reflexivity|].
    exists [Prompt m], []. simpl. rewrite E. auto.
  - exists [Prompt m], [l]. simpl. rewrite E. auto.
Qed.

Lemma quiet_emit e : is_print_or_call e -> quiet (emit e).
Proof. intros He s. now apply asks_log. Qed.

Lemma quiet_ret {A} (a : A) : quiet (ret a).
Proof. intros s. apply asks_refl. Qed.

Lemma quiet_update_dependencies w : quiet (update_dependencies w).
Proof.
  unfold update_dependencies.
  apply (keeps_bind _ asks_trans); [now apply quiet_emit | intros _].
  apply (keeps_bind _ asks_trans); [apply (keeps_gets _ asks_refl) | intros t].
  apply keeps_if; [now apply quiet_emit|].
  apply (keeps_bind _ asks_trans); [now apply quiet_emit | intros _].
  apply (keeps_try_except _ asks_trans); [| intros x; now apply quiet_emit].
  apply (keeps_bind _ asks_trans); [| intros _; now apply quiet_emit].
  intros s. rewrite run_command_run. simpl. now apply asks_log.
Qed.

Lemma within_bind_ret {A B} full (a : A) (k : A -> M B) :
  within full (k a) -> within full (bind (ret a) k).
Proof. intros H s. exact (H s). Qed.

Lemma report_within w bp r : within [ask_dependencies] (report w bp r).
Proof.
  assert (Hq : r <> RPair true true -> within [ask_dependencies]
                                              (report w bp r)).
  { intros Hr. apply quiet_within.
    now apply (q_report (asks []) asks_refl asks_trans asks_live asks_log). }
  destruct r as [b | [|] [|]]; try (apply Hq; discriminate).
  unfold report, unpack2. apply within_bind_ret. cbv beta iota zeta.
  apply bind_then_quiet.
  - apply bind_quiet; [now apply quiet_emit | intros _].
    change [ask_dependencies] with ([ask_dependencies] ++ []).
    apply bind_exactly; [apply input_exactly | intros response].
    apply quiet_within.
    apply keeps_if; [apply quiet_update_dependencies | apply quiet_ret].
  - intros _.
    repeat (apply (keeps_bind _ asks_trans);
            [now apply quiet_emit | intros _]).
    now apply quiet_emit.
Qed.

Lemma main_within w : within [ask_continue; ask_dependencies] (main w).
Proof.
  unfold main.
  apply bind_quiet; [now apply quiet_emit | intros _].
  apply bind_quiet; [| intros bp].
  { apply (q_backup_config (asks []) asks_refl asks_trans asks_live
             asks_log). }
  unfold ask_and_update.
  apply bind_quiet; [| intros commit].
  { apply (q_get_latest_commit_info (asks []) asks_refl asks_trans
             asks_log). }
  apply bind_quiet; [| intros _].
  { destruct commit as [[sha msg]|]; [now apply quiet_emit | apply quiet_ret]. }
  change [ask_continue; ask_dependencies]
    with ([ask_continue] ++ [ask_dependencies]).
  apply bind_exactly; [apply input_exactly | intros response].
  destruct (negb (affirmative response)).
  - apply quiet_within. now apply quiet_emit.
  - unfold update_and_report.
    apply bind_quiet; [| intros r; apply report_within].
    apply (q_update_via_zip (asks []) asks_refl asks_trans asks_live
             asks_tmp asks_log).
Qed.

End Asking.

(** X15.  The script asks at most two questions and reads nothing that it did
    not ask for.  In every run, however it ends, the prompts shown are an
    initial part of the two of [main], in this order: whether to continue
    and whether to update the dependencies; and at most one line of the
    input is taken for each prompt shown. *)
Theorem script_asks_at_most_twice (w : world) (s : state) :
  exists ps rest,
    [ask_continue; ask_dependencies] = ps ++ rest /\
    asks ps s (snd (script w s)).
Proof.
  destruct (main_within w s) as [ps [rest [E Ha]]].
  exists ps, rest. split; [exact E|].
  unfold script. destruct (main w s) as [[[]|e] s1]; simpl in *; [exact Ha|].
  rewrite <- (app_nil_r ps).
  apply (asks_app ps [] s s1); [exact Ha|].
  now apply asks_log.
Qed.

(* ================================================================== *)
(** * An archive that is not a zip file *)

Section Corrupt.

Lemma notices_quiet evs :
  Forall is_notice evs -> calls evs = [] /\ prompts evs = [].
Proof.
  induction 1 as [|e evs He _ [IH1 IH2]]; [auto|].
  destruct e as [[] m | m | c]; simpl in *; try contradiction; auto.
Qed.

Lemma calls_app a b : calls (a ++ b) = calls a ++ calls b.
Proof. unfold calls. apply flat_map_app. Qed.

End Corrupt.

(** X16.  An archive that is not a zip file costs nothing but the download.
    [update_via_zip] then returns [(False, False)]: the exception of the
    extraction is caught and printed, no library call touches the working
    directory, which stays as it was, nothing is asked, and the temporary
    directory is removed. *)
Theorem corrupt_archive_changes_nothing (w : world) (s : state) :
  download_ok w = true -> archive w = None ->
  exists evs,
    update_via_zip w s
    = (Ok (RPair false false),
       mkState (live s) empty_fs (stdin s) (log s ++ evs)) /\
    calls evs = [] /\ prompts evs = [] /\
    In (Print ERROR ("ZIP 更新过程中出错: " ++ exn_text BadZipFile)) evs.
Proof.
  intros Hd Ha. rewrite update_via_zip_unfold.
  destruct (announced_spec w s) as [_ [Hl [_ [Hi [evs [Hlog Hn]]]]]].
  destruct (notices_quiet evs Hn) as [Hc Hp].
  unfold try_finally, try_except, body.
  rewrite (bind_run_raise _ _ _ _ _ (prepare_not_zip w _ Hd Ha)).
  unfold on_exception, bind, print_error, emit, ret, cleanup, fetched.
  simpl. rewrite Hl, Hi, Hlog.
  exists (evs ++ [Print INFO "正在下载最新代码..."; Print PLAIN "";
                  Print INFO "正在解压文件...";
                  Print ERROR ("ZIP 更新过程中出错: "
                               ++ exn_text BadZipFile)]).
  repeat split.
  - now rewrite <- !app_assoc.
  - now rewrite calls_app, Hc.
  - now rewrite prompts_app, Hp.
  - apply in_or_app. right. simpl. auto.
Qed.

Lemma corrupt_archive_changes_nothing_witness :
  exists evs,
    update_via_zip (Demo.with_archive None) (start Demo.tree [])
    = (Ok (RPair false false),
       mkState (live (start Demo.tree [])) empty_fs
               (stdin (start Demo.tree []))
               (log (start Demo.tree []) ++ evs)) /\
    calls evs = [] /\ prompts evs = [] /\
    In (Print ERROR ("ZIP 更新过程中出错: " ++ exn_text BadZipFile)) evs.
Proof.
  apply (corrupt_archive_changes_nothing (Demo.with_archive None)
           (start Demo.tree [])); reflexivity.
Defined.

(* ================================================================== *)
(** * The configuration backup, there and back *)

Section RoundTrip.

Lemma backup_config_some w s bp s1 :
  backup_config w s = (Ok (Some bp), s1) ->
  bp = backup_dst w /\
  exists data t',
    live s config_path = Some (File data) /\
    write_file (real_dst (live s) (name config_path) bp) data (live s)
    = Ok t' /\
    live s1 = t'.
Proof.
  unfold backup_config. fold (backup_dst w). intros H.
  erewrite bind_run in H by reflexivity.
  destruct (exists_ (live s) config_path); [|discriminate].
  apply bind_Ok in H as [[] [s0 [Hc H]]].
  erewrite bind_run in H by reflexivity. injection H as <- <-.
  split; [reflexivity|].
  rewrite copy2_run in Hc.
  change (stat (live s) config_path) with (live s config_path) in Hc.
  destruct (live s config_path) as [[data|]|]; try discriminate.
  rewrite copy2_data_run in Hc.
  destruct (write_file _ data (live s)) as [t'|x] eqn:Hw; [|discriminate].
  injection Hc as <-. exists data, t'. auto.
Qed.

End RoundTrip.

(** X17.  The configuration backup brings the configuration back.  When
    [backup_config] has returned a path that was not taken by a directory,
    and the backup has not been touched since, [restore_config] on that
    path returns and puts the content that the configuration file had at
    the time of the backup back in its place, whatever the file holds by
    then, and changes nothing else; it needs the [config] directory to be
    there and no directory in the place of the file. *)
Theorem config_backup_round_trip
    (w : world) (s s1 s2 : state) (backup_path : path) :
  backup_config w s = (Ok (Some backup_path), s1) ->
  is_dir (live s) backup_path = false ->
  live s2 backup_path = live s1 backup_path ->
  live s2 config_path <> Some Dir ->
  stat (live s2) (parent config_path) = Some Dir ->
  exists s3,
    restore_config (Some backup_path) s2 = (Ok tt, s3) /\
    live s3 config_path = live s config_path /\
    (forall q, q <> config_path -> live s3 q = live s2 q) /\
    tmp s3 = tmp s2 /\ stdin s3 = stdin s2.
Proof.
  intros Hb Hnd Hsame Hcd Hpar.
  destruct (backup_config_some w s backup_path s1 Hb)
    as [-> [data [t' [Hcfg [Hw <-]]]]].
  unfold real_dst in Hw. rewrite Hnd in Hw.
  rewrite (write_file_at _ _ _ _ Hw) in Hsame.
  destruct (backup_dst_shape w) as [x [rest Hshape]].
  assert (Hst : stat (live s2) (backup_dst w) = Some (File data))
    by (rewrite Hshape in *; exact Hsame).
  unfold restore_config.
  erewrite bind_run by reflexivity.
  unfold exists_. rewrite Hst. cbn [is_some].
  pose proof (copy2_run (backup_dst w) config_path s2) as Hc.
  rewrite Hst, copy2_data_run in Hc.
  unfold real_dst, is_dir in Hc.
  change (stat (live s2) config_path) with (live s2 config_path) in Hc.
  assert (Hw2 : write_file config_path data (live s2)
                = Ok (upd (live s2) config_path (Some (File data)))).
  { unfold write_file.
    change (stat (live s2) config_path) with (live s2 config_path).
    rewrite Hpar.
    destruct (live s2 config_path) as [[?|]|]; [| contradiction |];
      reflexivity. }
  destruct (live s2 config_path) as [[?|]|] eqn:E; [| contradiction |];
    rewrite Hw2 in Hc; rewrite (bind_run _ _ _ _ _ Hc);
    eexists; (split; [reflexivity|]); simpl;
    (split; [now rewrite upd_same|]);
    (split; [intros q Hq; now apply upd_other | auto]).
Qed.

Lemma config_backup_round_trip_witness :
  exists s3,
    restore_config (Some (backup_dst Demo.net))
      (mkState (upd (live (snd (backup_config Demo.net
                                  (start Demo.tree []))))
                    config_path (Some (File (bytes_of "a: 9"))))
               empty_fs [] [])
    = (Ok tt, s3) /\
    live s3 config_path = live (start Demo.tree []) config_path /\
    (forall q, q <> config_path ->
       live s3 q
       = live (mkState (upd (live (snd (backup_config Demo.net
                                          (start Demo.tree []))))
                            config_path (Some (File (bytes_of "a: 9"))))
                       empty_fs [] []) q) /\
    tmp s3 = empty_fs /\ stdin s3 = [].
Proof.
  apply (config_backup_round_trip Demo.net (start Demo.tree [])
           (snd (backup_config Demo.net (start Demo.tree [])))).
  - apply run_eq. vm_compute. reflexivity.
  - vm_compute. reflexivity.
  - vm_compute. reflexivity.
  - vm_compute. discriminate.
  - vm_compute. reflexivity.
Defined.
